(** * WebNN-native graph assembly: operands, operators, the graph builder,
      the topological sorter and the Build orchestration.

    Shallow embedding of
      - src/webnn_native/Operand.cpp       (OperandBase constructors)
      - src/webnn_native/ops/Unary.cpp     (op::Unary::Validate)
      - src/webnn_native/GraphBuilder.cpp  (the builder entry points, Build,
                                            TopologicalSort)

    Operators are heap objects compared by address (the sorter keeps an
    [unordered_set] of operator pointers), so they live in an arena
    [list OperatorBase] and a pointer is an index into it; the null pointer
    is [None].  Operands are never compared by address and are immutable
    once an entry point has returned them, so they are records held by
    value. *)

From Stdlib Require Import ZArith Lia.
From stdpp Require Import base tactics option list gmap sets strings relations.

Set Default Proof Using "Type".
#[local] Set Warnings "-clear-no-such-hyp".
Local Open Scope Z_scope.
Local Open Scope nat_scope.

(** ** Outcomes of running C++ code *)

(** A call either returns, or runs into undefined behaviour (a null or
    dangling pointer is dereferenced, a vector is indexed out of range, a
    branch depends on a member no constructor initialised), or the model
    runs out of the fuel that bounds its [while] loop. *)
Inductive Outcome (A : Type) : Type :=
| Returns (a : A)
| Undefined
| OutOfFuel.
Arguments Returns {A} a.
Arguments Undefined {A}.
Arguments OutOfFuel {A}.

Definition Outcome_bind {A B} (f : A → Outcome B) (m : Outcome A) : Outcome B :=
  match m with
  | Returns a => f a
  | Undefined => Undefined
  | OutOfFuel => OutOfFuel
  end.

#[global] Instance Outcome_ret : MRet Outcome := @Returns.
#[global] Instance Outcome_mbind : MBind Outcome := @Outcome_bind.

(** Reading an [option] that stands for a pointer or a possibly
    uninitialised member. *)
Definition deref {A} (p : option A) : Outcome A :=
  match p with
  | Some a => Returns a
  | None => Undefined
  end.

(** ** Errors *)

(** Modelled from the spec: MaybeError and DAWN_VALIDATION_ERROR are
    declared in Error.h, which is not part of the sources.  Validation
    "either succeeds silently or fails with a typed error carrying a
    human-readable message". *)
Inductive MaybeError : Type :=
| Success
| ValidationError (message : string).

Definition MaybeError_IsError (e : MaybeError) : bool :=
  match e with
  | Success => false
  | ValidationError _ => true
  end.

(** Modelled from the spec: ObjectBase is not part of the sources; operand,
    operator and builder each carry an "error flag". *)
Class ObjectBase (A : Type) := IsError : A → bool.

(** ** Operands (Operand.cpp) *)

(** Modelled from the spec: [ml::OperandType] is declared in the generated
    API header, which is not part of the sources; the spec describes it as
    an enumeration of "32-bit float and other supported numeric kinds". *)
Inductive OperandType : Type :=
| Float32 | Float16 | Int32 | Uint32 | Int8 | Uint8.

#[global] Instance OperandType_eq_dec : EqDecision OperandType.
Proof. solve_decision. Defined.

(** [mOperator] is the producing operator ([None]: no operator was stored).
    [mType] and [mRank] are [None] while no constructor or setter has
    written them: such a value can be copied, but not branched on. *)
Record OperandBase : Type := mkOperand {
  operand_error : bool;
  mOperator : option nat;
  mType : option OperandType;
  mRank : option Z
}.

#[global] Instance OperandBase_eq_dec : EqDecision OperandBase.
Proof. solve_decision. Defined.

#[global] Instance OperandBase_ObjectBase : ObjectBase OperandBase := operand_error.

(** ** Operators *)

(** The tag of a fusible activation.  The sources name Clamp, Relu,
    Sigmoid and HardSwish; LeakyRelu is the tag of the fifth handle the
    builder can make. *)
Module FusedOperator.

Inductive t : Type := Clamp | Relu | Sigmoid | LeakyRelu | HardSwish.

#[global] Instance eq_dec : EqDecision t.
Proof. solve_decision. Defined.

End FusedOperator.

Module op.

Inductive BinaryOpType : Type :=
| kMatMul | kAdd | kDiv | kMul | kSub | kMax | kMin | kPower.

Inductive UnaryOpType : Type :=
| kRelu | kHardSwish | kSigmoid | kSoftmax | kTanh.

Inductive Pool2dType : Type :=
| kAveragePool2d | kMaxPool2d.

#[global] Instance UnaryOpType_eq_dec : EqDecision UnaryOpType.
Proof. solve_decision. Defined.

End op.

Section WithAttrs.

(** The arguments an entry point hands to an operator constructor without
    looking at them: descriptors, buffers and the option structs (the
    activation member of the convolution and batch-normalisation options
    apart, which the builder does read). *)
Context {Attrs : Type}.

(** [Conv2dOptions] and [BatchNormOptions] as far as the builder reads
    them: [activation] is a pointer to an operator object. *)
Record FusableOptions : Type := mkFusableOptions {
  activation : option nat;
  otherOptions : Attrs
}.

(** The dynamic class of an operator object together with the constructor
    arguments that are not operands.  [cOperatorBase] is the class of the
    objects made by [OperatorBase::MakeError]. *)
Inductive OperatorClass : Type :=
| cOperatorBase
| cConstant (desc arrayBuffer : Attrs)
| cInput (name : string) (desc : Attrs)
| cBinary (opType : op.BinaryOpType)
| cConv2d (options : option FusableOptions)
| cPool2d (opType : op.Pool2dType) (options : option Attrs)
| cReduceMean (options : option Attrs)
| cUnary (opType : op.UnaryOpType)
| cResample (options : option Attrs)
| cReshape (new_shape : list Z)
| cSplit (splits : list Z) (options : option Attrs)
| cSqueeze (options : option Attrs)
| cTranspose (options : option Attrs)
| cLeakyRelu (options : option Attrs)
| cConcat (axis : Z)
| cGemm (options : option Attrs)
| cClamp (options : option Attrs)
| cBatchNorm (options : option FusableOptions)
| cPad (options : option Attrs)
| cInstanceNorm (options : option Attrs).

Record OperatorBase : Type := mkOperator {
  operator_error : bool;
  opClass : OperatorClass;
  mInputs : list OperandBase;
  mOutputs : list OperandBase;
  mFusedOperator : option FusedOperator.t
}.

#[global] Instance OperatorBase_ObjectBase : ObjectBase OperatorBase := operator_error.

(** *** The constructor OperandBase::OperandBase taking the producing operator

    [operatorBase] is the address of the operator under construction and
    [mOperator_] the object at that address. *)
Definition OperandBase_new (operatorBase : nat) (mOperator_ : OperatorBase) : OperandBase :=
  let this := {| operand_error := false;
                 mOperator := Some operatorBase;
                 mType := Some Float32;
                 mRank := Some 0%Z |} in
  if decide (1 ≤ length (mInputs mOperator_)) then
    match mInputs mOperator_ !! 0 with
    | Some primaryInput =>
        (* The type and rank is the same as input[0] by default. *)
        {| operand_error := operand_error this;
           mOperator := mOperator this;
           mType := mType primaryInput;
           mRank := mRank primaryInput |}
    | None => this
    end
  else this.

(** *** The constructor OperandBase::OperandBase taking ObjectBase::kError,
    and OperandBase::MakeError: only the error tag is set. *)
Definition OperandBase_MakeError : OperandBase :=
  {| operand_error := true; mOperator := None; mType := None; mRank := None |}.

(** ** The topological sorter (GraphBuilder.cpp) *)

(** [nodesDone.count(p)]: the set only ever receives addresses that were
    dereferenced before, so it never holds the null pointer. *)
Definition nodesDone_count (nodesDone : gset nat) (p : option nat) : nat :=
  match p with
  | Some node => if decide (node ∈ nodesDone) then 1 else 0
  | None => 0
  end.

(** The [for (auto& dep : node->Inputs())] loop: returns [can_add] and the
    work stack (top of the stack first). *)
Definition scan_inputs (nodesDone : gset nat) (inputs : list OperandBase)
    (nodesToDo : list (option nat)) : bool * list (option nat) :=
  foldl (λ acc dep,
           if decide (nodesDone_count nodesDone (mOperator dep) = 0)
           then (false, mOperator dep :: acc.2)
           else acc)
        (true, nodesToDo) inputs.

(** The [while (nodesToDo.size() > 0)] loop, one iteration per unit of fuel. *)
Fixpoint TopologicalSort_loop (heap : list OperatorBase) (fuel : nat)
    (nodesToDo : list (option nat)) (nodesDone : gset nat) (result : list nat)
    : Outcome (list nat) :=
  match fuel with
  | 0 => OutOfFuel
  | S fuel =>
      match nodesToDo with
      | [] => Returns result
      | top :: popped =>
          if decide (nodesDone_count nodesDone top = 0) then
            match top with
            | None => Undefined
            | Some node =>
                match heap !! node with
                | None => Undefined
                | Some o =>
                    let scanned := scan_inputs nodesDone (mInputs o) nodesToDo in
                    if scanned.1 then
                      TopologicalSort_loop heap fuel popped ({[node]} ∪ nodesDone)
                                           (result ++ [node])
                    else
                      TopologicalSort_loop heap fuel scanned.2 nodesDone result
                end
            end
          else TopologicalSort_loop heap fuel popped nodesDone result
      end
  end.

(** GraphBuilderBase::TopologicalSort.  The roots are pushed in order, so
    the last root ends up on top of the stack. *)
Definition TopologicalSort (heap : list OperatorBase) (fuel : nat)
    (rootNodes : list OperandBase) : Outcome (list nat) :=
  let nodesToDo := foldl (λ stack node, mOperator node :: stack) [] rootNodes in
  TopologicalSort_loop heap fuel nodesToDo ∅ [].

(** ** Operator construction and validation *)

(** The parts of the concrete operator classes that are not in the
    sources. *)
Class ConcreteOperators : Type := {
  (** the kind-specific checks a validator outside Unary.cpp layers over
      the base validation *)
  KindValidate : OperatorBase → MaybeError;
  (** the type and rank a constructor or validator outside Unary.cpp
      writes into output [i] with SetType and SetRank, if it does *)
  OutputAttributes : OperatorBase → nat → option (OperandType * Z);
  (** the number of outputs op::Split asks for *)
  Split_outputSize : list Z → nat
}.

Context `{!ConcreteOperators}.

(** Modelled from the spec: the constructors of OperatorBase are in
    Operator.cpp, which is not part of the sources.  "Constructing an
    Operator stores its inputs and computes default output type/rank by
    propagation from input 0": every output is made by the OperandBase
    constructor above. *)
Definition OperatorBase_new (this : nat) (class : OperatorClass)
    (inputs : list OperandBase) (outputSize : nat) : OperatorBase :=
  let constructed := {| operator_error := false; opClass := class; mInputs := inputs;
                        mOutputs := []; mFusedOperator := None |} in
  {| operator_error := false; opClass := class; mInputs := inputs;
     mOutputs := replicate outputSize (OperandBase_new this constructed);
     mFusedOperator := None |}.

(** Modelled from the spec: the constructor for a reusable
    fusible-activation handle; it has no operands. *)
Definition OperatorBase_newFused (class : OperatorClass)
    (fusedOperator : FusedOperator.t) : OperatorBase :=
  {| operator_error := false; opClass := class; mInputs := []; mOutputs := [];
     mFusedOperator := Some fusedOperator |}.

(** Modelled from the spec: OperatorBase::MakeError, "a distinguishable
    error variant carrying no further payload". *)
Definition OperatorBase_MakeError : OperatorBase :=
  {| operator_error := true; opClass := cOperatorBase; mInputs := []; mOutputs := [];
     mFusedOperator := None |}.

(** Modelled from the spec: OperatorBase::Validate is in Operator.cpp, which
    is not part of the sources.  "Inputs must all be non-error operands; an
    operator with an error input is itself invalid." *)
Definition OperatorBase_Validate (this : OperatorBase) : MaybeError :=
  if forallb (λ input : OperandBase, negb (IsError input)) (mInputs this)
  then Success
  else ValidationError "Argument inputs are invalid.".

(** op::Unary::Validate (Unary.cpp). *)
Definition Unary_Validate (mOpType : op.UnaryOpType) (this : OperatorBase)
    : Outcome MaybeError :=
  let maybeError := OperatorBase_Validate this in
  if MaybeError_IsError maybeError then Returns maybeError
  else if decide (mOpType = op.kSoftmax) then
    input ← deref (mInputs this !! 0);
    rank ← deref (mRank input);
    if decide (rank ≠ 2%Z)
    then Returns (ValidationError "Input dimensions is incorrect.")
    else Returns Success
  else Returns Success.

(** Modelled from the spec: the validators of the classes other than
    op::Unary are not part of the sources.  "Base validation (common to
    all operators) must be run first; each concrete kind then layers
    kind-specific checks", which are [KindValidate] here. *)
Definition Concrete_Validate (this : OperatorBase) : MaybeError :=
  let maybeError := OperatorBase_Validate this in
  if MaybeError_IsError maybeError then maybeError
  else KindValidate this.

(** The virtual call [op->Validate()]. *)
Definition Validate (this : OperatorBase) : Outcome MaybeError :=
  match opClass this with
  | cUnary mOpType => Unary_Validate mOpType this
  | _ => Returns (Concrete_Validate this)
  end.

(** [SetType] and [SetRank] on an output, if [attributes] has a value. *)
Definition SetTypeAndRank (attributes : option (OperandType * Z)) (output : OperandBase)
    : OperandBase :=
  match attributes with
  | Some (type, rank) =>
      {| operand_error := operand_error output; mOperator := mOperator output;
         mType := Some type; mRank := Some rank |}
  | None => output
  end.

(** The operator once its validation has succeeded.  Unary::Validate
    leaves the outputs alone.  Modelled from the spec for the other
    classes: "side effect of success: the operator's output operand(s)
    attributes may be finalized"; the outputs carry what
    [OutputAttributes] says. *)
Definition validated (this : OperatorBase) : OperatorBase :=
  match opClass this with
  | cUnary _ => this
  | _ =>
      {| operator_error := operator_error this; opClass := opClass this;
         mInputs := mInputs this;
         mOutputs := imap (λ i, SetTypeAndRank (OutputAttributes this i)) (mOutputs this);
         mFusedOperator := mFusedOperator this |}
  end.

(** Modelled from the spec: OperatorBase::PrimaryOutput is declared in
    Operator.h, which is not part of the sources; it is the first of the
    operator's "one or more output operands". *)
Definition PrimaryOutput (this : OperatorBase) : Outcome OperandBase :=
  deref (mOutputs this !! 0).

(** Modelled from the spec: ContextBase::ConsumedError "converts a
    validation/build result into a boolean". *)
Definition ConsumedError (maybeError : MaybeError) : bool :=
  MaybeError_IsError maybeError.

(** Modelled from the spec: the constructors of the concrete classes, as
    GraphBuilder.cpp calls them, are not part of the sources.  The builder
    "allocates the operator with its given inputs/options": the inputs are
    the operands the entry point passes, in that order, and the class
    keeps the other arguments as they were passed. *)
Definition new_Constant (this : nat) (desc arrayBuffer : Attrs) :=
  OperatorBase_new this (cConstant desc arrayBuffer) [] 1.
Definition new_Input (this : nat) (name : string) (desc : Attrs) :=
  OperatorBase_new this (cInput name desc) [] 1.
Definition new_Binary (this : nat) (opType : op.BinaryOpType) (a b : OperandBase) :=
  OperatorBase_new this (cBinary opType) [a; b] 1.
Definition new_Conv2d (this : nat) (input filter : OperandBase)
    (options : option FusableOptions) :=
  OperatorBase_new this (cConv2d options) [input; filter] 1.
Definition new_Pool2d (this : nat) (opType : op.Pool2dType) (input : OperandBase)
    (options : option Attrs) :=
  OperatorBase_new this (cPool2d opType options) [input] 1.
Definition new_ReduceMean (this : nat) (input : OperandBase) (options : option Attrs) :=
  OperatorBase_new this (cReduceMean options) [input] 1.
Definition new_Unary (this : nat) (opType : op.UnaryOpType) (input : OperandBase) :=
  OperatorBase_new this (cUnary opType) [input] 1.
Definition new_Unary_fused (opType : op.UnaryOpType) (fusedOperator : FusedOperator.t) :=
  OperatorBase_newFused (cUnary opType) fusedOperator.
Definition new_Resample (this : nat) (input : OperandBase) (options : option Attrs) :=
  OperatorBase_new this (cResample options) [input] 1.
Definition new_Reshape (this : nat) (input : OperandBase) (new_shape : list Z) :=
  OperatorBase_new this (cReshape new_shape) [input] 1.
Definition new_Split (this : nat) (input : OperandBase) (splits : list Z)
    (options : option Attrs) :=
  OperatorBase_new this (cSplit splits options) [input] (Split_outputSize splits).
Definition new_Squeeze (this : nat) (input : OperandBase) (options : option Attrs) :=
  OperatorBase_new this (cSqueeze options) [input] 1.
Definition new_Transpose (this : nat) (input : OperandBase) (options : option Attrs) :=
  OperatorBase_new this (cTranspose options) [input] 1.
Definition new_LeakyRelu (this : nat) (input : OperandBase) (options : option Attrs) :=
  OperatorBase_new this (cLeakyRelu options) [input] 1.
Definition new_LeakyRelu_fused (options : option Attrs) :=
  OperatorBase_newFused (cLeakyRelu options) FusedOperator.LeakyRelu.
Definition new_Concat (this : nat) (inputs : list OperandBase) (axis : Z) :=
  OperatorBase_new this (cConcat axis) inputs 1.
Definition new_Gemm (this : nat) (a b : OperandBase) (options : option Attrs) :=
  OperatorBase_new this (cGemm options) [a; b] 1.
Definition new_Clamp (this : nat) (input : OperandBase) (options : option Attrs) :=
  OperatorBase_new this (cClamp options) [input] 1.
Definition new_Clamp_fused (options : option Attrs) :=
  OperatorBase_newFused (cClamp options) FusedOperator.Clamp.
Definition new_BatchNorm (this : nat) (input mean variance : OperandBase)
    (options : option FusableOptions) :=
  OperatorBase_new this (cBatchNorm options) [input; mean; variance] 1.
Definition new_Pad (this : nat) (input padding : OperandBase) (options : option Attrs) :=
  OperatorBase_new this (cPad options) [input; padding] 1.
Definition new_InstanceNorm (this : nat) (input : OperandBase) (options : option Attrs) :=
  OperatorBase_new this (cInstanceNorm options) [input] 1.

(** ** The graph builder (GraphBuilder.cpp) *)

(** [operators] is the arena: the operator objects that are alive, by
    address.  An operator that fails validation is destroyed when its [Ref]
    goes out of scope and never enters the arena; deallocation of an
    operator that passed validation is not modelled. *)
Record GraphBuilderBase : Type := mkBuilder {
  builder_error : bool;
  operators : list OperatorBase
}.

#[global] Instance GraphBuilderBase_ObjectBase : ObjectBase GraphBuilderBase := builder_error.

(** GraphBuilderBase::GraphBuilderBase(context) *)
Definition GraphBuilderBase_new : GraphBuilderBase :=
  {| builder_error := false; operators := [] |}.

(** The operator [o] is kept alive at the next free address. *)
Definition store (this : GraphBuilderBase) (o : OperatorBase) : GraphBuilderBase :=
  {| builder_error := builder_error this; operators := operators this ++ [o] |}.

(** Modelled from the spec: OperandArrayBase is declared in OperandArray.h,
    which is not part of the sources; "an ordered, named-by-index group of
    operands sharing one producing multi-output operator", or an error. *)
Record OperandArrayBase : Type := mkOperandArray {
  array_error : bool;
  mOperands : list OperandBase
}.

Definition OperandArrayBase_MakeError : OperandArrayBase :=
  {| array_error := true; mOperands := [] |}.

(** DAWN_VALIDATE(ptr, objectBase): [ptr] is the [new] expression, given
    the address it allocates.  [None]: validation failed and the caller
    returns [objectBase::MakeError(this)]; otherwise the address of [op],
    [op] itself and the builder with [op] in its arena. *)
Definition DAWN_VALIDATE (this : GraphBuilderBase) (ptr : nat → OperatorBase)
    : Outcome (option (nat * OperatorBase * GraphBuilderBase)) :=
  let address := length (operators this) in
  let o := ptr address in
  maybeError ← Validate o;
  if ConsumedError maybeError then Returns None
  else Returns (Some (address, validated o, store this (validated o))).

Definition VALIDATE_FOR_OPERAND (this : GraphBuilderBase) (ptr : nat → OperatorBase)
    : Outcome (OperandBase * GraphBuilderBase) :=
  checked ← DAWN_VALIDATE this ptr;
  match checked with
  | None => Returns (OperandBase_MakeError, this)
  | Some (_, o, this') => output ← PrimaryOutput o; Returns (output, this')
  end.

Definition VALIDATE_FUSED_OPERATOR (this : GraphBuilderBase) (ptr : nat → OperatorBase)
    : Outcome (nat * GraphBuilderBase) :=
  checked ← DAWN_VALIDATE this ptr;
  match checked with
  | None => Returns (length (operators this), store this OperatorBase_MakeError)
  | Some (address, _, this') => Returns (address, this')
  end.

Definition VALIDATE_ARRAY_OPERAND (this : GraphBuilderBase) (ptr : nat → OperatorBase)
    : Outcome (OperandArrayBase * GraphBuilderBase) :=
  checked ← DAWN_VALIDATE this ptr;
  match checked with
  | None => Returns (OperandArrayBase_MakeError, this)
  | Some (_, o, this') =>
      Returns ({| array_error := false; mOperands := mOutputs o |}, this')
  end.

(** [options->activation->GetFusedOperator()].  Modelled from the spec: the
    accessor is declared in Operator.h, which is not part of the sources;
    it reads the operator's "fusible-operator tag". *)
Definition GetFusedOperator (this : GraphBuilderBase) (activation_ : nat)
    : Outcome FusedOperator.t :=
  o ← deref (operators this !! activation_);
  deref (mFusedOperator o).

(** [reinterpret_cast<op::Clamp*>(options->activation)->GetOptions()].
    Modelled from the spec: op::Clamp is not part of the sources; the
    accessor gives "the clamp's own min/max options". *)
Definition Clamp_GetOptions (this : GraphBuilderBase) (activation_ : nat)
    : Outcome (option Attrs) :=
  o ← deref (operators this !! activation_);
  match opClass o with
  | cClamp options => Returns options
  | _ => Undefined
  end.

(** *** The entry points *)

Definition Constant (this : GraphBuilderBase) (desc arrayBuffer : Attrs) :=
  VALIDATE_FOR_OPERAND this (λ p, new_Constant p desc arrayBuffer).

Definition Input (this : GraphBuilderBase) (name : string) (desc : Attrs) :=
  VALIDATE_FOR_OPERAND this (λ p, new_Input p name desc).

Definition Matmul (this : GraphBuilderBase) (a b : OperandBase) :=
  VALIDATE_FOR_OPERAND this (λ p, new_Binary p op.kMatMul a b).

Definition Add (this : GraphBuilderBase) (a b : OperandBase) :=
  VALIDATE_FOR_OPERAND this (λ p, new_Binary p op.kAdd a b).

Definition Div (this : GraphBuilderBase) (a b : OperandBase) :=
  VALIDATE_FOR_OPERAND this (λ p, new_Binary p op.kDiv a b).

Definition Mul (this : GraphBuilderBase) (a b : OperandBase) :=
  VALIDATE_FOR_OPERAND this (λ p, new_Binary p op.kMul a b).

Definition Sub (this : GraphBuilderBase) (a b : OperandBase) :=
  VALIDATE_FOR_OPERAND this (λ p, new_Binary p op.kSub a b).

Definition Max (this : GraphBuilderBase) (a b : OperandBase) :=
  VALIDATE_FOR_OPERAND this (λ p, new_Binary p op.kMax a b).

Definition Min (this : GraphBuilderBase) (a b : OperandBase) :=
  VALIDATE_FOR_OPERAND this (λ p, new_Binary p op.kMin a b).

Definition Pow (this : GraphBuilderBase) (a b : OperandBase) :=
  VALIDATE_FOR_OPERAND this (λ p, new_Binary p op.kPower a b).

(** [options != nullptr && options->activation != nullptr] is
    [options ≫= activation] being [Some activation_]. *)
Definition Conv2d (this : GraphBuilderBase) (input filter : OperandBase)
    (options : option FusableOptions) :=
  match options ≫= activation with
  | Some activation_ =>
      operatorType ← GetFusedOperator this activation_;
      if decide (operatorType = FusedOperator.Clamp) then
        checked ← DAWN_VALIDATE this (λ p, new_Conv2d p input filter options);
        match checked with
        | None => Returns (OperandBase_MakeError, this)
        | Some (_, conv2d, this') =>
            clampOptions ← Clamp_GetOptions this' activation_;
            primary ← PrimaryOutput conv2d;
            VALIDATE_FOR_OPERAND this' (λ p, new_Clamp p primary clampOptions)
        end
      else VALIDATE_FOR_OPERAND this (λ p, new_Conv2d p input filter options)
  | None => VALIDATE_FOR_OPERAND this (λ p, new_Conv2d p input filter options)
  end.

Definition AveragePool2d (this : GraphBuilderBase) (input : OperandBase)
    (options : option Attrs) :=
  VALIDATE_FOR_OPERAND this (λ p, new_Pool2d p op.kAveragePool2d input options).

Definition MaxPool2d (this : GraphBuilderBase) (input : OperandBase)
    (options : option Attrs) :=
  VALIDATE_FOR_OPERAND this (λ p, new_Pool2d p op.kMaxPool2d input options).

Definition ReduceMean (this : GraphBuilderBase) (input : OperandBase)
    (options : option Attrs) :=
  VALIDATE_FOR_OPERAND this (λ p, new_ReduceMean p input options).

Definition Relu (this : GraphBuilderBase) (input : OperandBase) :=
  VALIDATE_FOR_OPERAND this (λ p, new_Unary p op.kRelu input).

Definition ReluOperator (this : GraphBuilderBase) :=
  VALIDATE_FUSED_OPERATOR this (λ _, new_Unary_fused op.kRelu FusedOperator.Relu).

Definition HardSwish (this : GraphBuilderBase) (input : OperandBase) :=
  VALIDATE_FOR_OPERAND this (λ p, new_Unary p op.kHardSwish input).

Definition HardSwishOperator (this : GraphBuilderBase) :=
  VALIDATE_FUSED_OPERATOR this
    (λ _, new_Unary_fused op.kHardSwish FusedOperator.HardSwish).

Definition Resample (this : GraphBuilderBase) (input : OperandBase)
    (options : option Attrs) :=
  VALIDATE_FOR_OPERAND this (λ p, new_Resample p input options).

Definition Reshape (this : GraphBuilderBase) (input : OperandBase) (new_shape : list Z) :=
  VALIDATE_FOR_OPERAND this (λ p, new_Reshape p input new_shape).

Definition Sigmoid (this : GraphBuilderBase) (input : OperandBase) :=
  VALIDATE_FOR_OPERAND this (λ p, new_Unary p op.kSigmoid input).

Definition SigmoidOperator (this : GraphBuilderBase) :=
  VALIDATE_FUSED_OPERATOR this (λ _, new_Unary_fused op.kSigmoid FusedOperator.Sigmoid).

Definition Softmax (this : GraphBuilderBase) (input : OperandBase) :=
  VALIDATE_FOR_OPERAND this (λ p, new_Unary p op.kSoftmax input).

Definition Split (this : GraphBuilderBase) (input : OperandBase) (splits : list Z)
    (options : option Attrs) :=
  VALIDATE_ARRAY_OPERAND this (λ p, new_Split p input splits options).

Definition Squeeze (this : GraphBuilderBase) (input : OperandBase)
    (options : option Attrs) :=
  VALIDATE_FOR_OPERAND this (λ p, new_Squeeze p input options).

Definition Tanh (this : GraphBuilderBase) (input : OperandBase) :=
  VALIDATE_FOR_OPERAND this (λ p, new_Unary p op.kTanh input).

Definition Transpose (this : GraphBuilderBase) (input : OperandBase)
    (options : option Attrs) :=
  VALIDATE_FOR_OPERAND this (λ p, new_Transpose p input options).

Definition LeakyRelu (this : GraphBuilderBase) (input : OperandBase)
    (options : option Attrs) :=
  VALIDATE_FOR_OPERAND this (λ p, new_LeakyRelu p input options).

Definition LeakyReluOperator (this : GraphBuilderBase) (options : option Attrs) :=
  VALIDATE_FUSED_OPERATOR this (λ _, new_LeakyRelu_fused options).

(** The copy loop reads [inputs[i]] for every [i < inputsCount]. *)
Definition Concat (this : GraphBuilderBase) (inputsCount : nat)
    (inputs : list OperandBase) (axis : Z) :=
  if decide (inputsCount ≤ length inputs) then
    let operandInputs := take inputsCount inputs in
    VALIDATE_FOR_OPERAND this (λ p, new_Concat p operandInputs axis)
  else Undefined.

Definition Gemm (this : GraphBuilderBase) (a b : OperandBase) (options : option Attrs) :=
  VALIDATE_FOR_OPERAND this (λ p, new_Gemm p a b options).

Definition Clamp (this : GraphBuilderBase) (input : OperandBase)
    (options : option Attrs) :=
  VALIDATE_FOR_OPERAND this (λ p, new_Clamp p input options).

Definition ClampOperator (this : GraphBuilderBase) (options : option Attrs) :=
  VALIDATE_FUSED_OPERATOR this (λ _, new_Clamp_fused options).

Definition BatchNorm (this : GraphBuilderBase) (input mean variance : OperandBase)
    (options : option FusableOptions) :=
  match options ≫= activation with
  | Some activation_ =>
      operatorType ← GetFusedOperator this activation_;
      if decide (operatorType = FusedOperator.Clamp) then
        checked ← DAWN_VALIDATE this (λ p, new_BatchNorm p input mean variance options);
        match checked with
        | None => Returns (OperandBase_MakeError, this)
        | Some (_, batchNorm, this') =>
            clampOptions ← Clamp_GetOptions this' activation_;
            primary ← PrimaryOutput batchNorm;
            VALIDATE_FOR_OPERAND this' (λ p, new_Clamp p primary clampOptions)
        end
      else VALIDATE_FOR_OPERAND this (λ p, new_BatchNorm p input mean variance options)
  | None => VALIDATE_FOR_OPERAND this (λ p, new_BatchNorm p input mean variance options)
  end.

(** What Conv2d and BatchNorm have in common: [base] is the [new]
    expression of the operator that carries the options. *)
Definition with_explicit_clamp (this : GraphBuilderBase)
    (options : option FusableOptions) (base : nat → OperatorBase)
    : Outcome (OperandBase * GraphBuilderBase) :=
  match options ≫= activation with
  | Some activation_ =>
      operatorType ← GetFusedOperator this activation_;
      if decide (operatorType = FusedOperator.Clamp) then
        checked ← DAWN_VALIDATE this base;
        match checked with
        | None => Returns (OperandBase_MakeError, this)
        | Some (_, baseOperator, this') =>
            clampOptions ← Clamp_GetOptions this' activation_;
            primary ← PrimaryOutput baseOperator;
            VALIDATE_FOR_OPERAND this' (λ p, new_Clamp p primary clampOptions)
        end
      else VALIDATE_FOR_OPERAND this base
  | None => VALIDATE_FOR_OPERAND this base
  end.

Definition Pad (this : GraphBuilderBase) (input padding : OperandBase)
    (options : option Attrs) :=
  VALIDATE_FOR_OPERAND this (λ p, new_Pad p input padding options).

Definition InstanceNorm (this : GraphBuilderBase) (input : OperandBase)
    (options : option Attrs) :=
  VALIDATE_FOR_OPERAND this (λ p, new_InstanceNorm p input options).

(** What an entry point with fusible options has done when it returns
    [output] and leaves the builder [this']; [class] and [inputs] are those
    of its base operator.  The base operator is constructed from the
    arguments as they were passed and validated; if that fails, an error
    sentinel is returned.  Otherwise, when the options carry an activation
    whose fused operator is Clamp, a clamp operator is constructed at the
    next address from the primary output of the base operator and the
    options of the activation, and validated: its primary output is
    returned, or an error sentinel.  With any other activation, or none,
    the primary output of the base operator is returned and nothing else
    is constructed. *)
Definition clamp_made_explicit (this : GraphBuilderBase)
    (options : option FusableOptions) (class : OperatorClass)
    (inputs : list OperandBase) (output : OperandBase) (this' : GraphBuilderBase)
    : Prop :=
  let address := length (operators this) in
  let base := OperatorBase_new address class inputs 1 in
  ∃ maybeError, Validate base = Returns maybeError ∧
    if ConsumedError maybeError
    then output = OperandBase_MakeError ∧ this' = this
    else
      ∃ primary, PrimaryOutput (validated base) = Returns primary ∧
        match options ≫= activation with
        | Some activation_ =>
            ∃ operatorType,
              GetFusedOperator this activation_ = Returns operatorType ∧
              if decide (operatorType = FusedOperator.Clamp) then
                ∃ clampOptions maybeError',
                  Clamp_GetOptions (store this (validated base)) activation_
                  = Returns clampOptions ∧
                  let clamp := new_Clamp (S address) primary clampOptions in
                  Validate clamp = Returns maybeError' ∧
                  if ConsumedError maybeError'
                  then output = OperandBase_MakeError ∧
                       this' = store this (validated base)
                  else PrimaryOutput (validated clamp) = Returns output ∧
                       this' = store (store this (validated base)) (validated clamp)
              else output = primary ∧ this' = store this (validated base)
        | None => output = primary ∧ this' = store this (validated base)
        end.

(** ** Build (GraphBuilder.cpp) *)

(** What Build asks of its collaborators, in the order it asks:
    [GetContext()->CreateGraph()], [op->AddToGraph(graph)],
    [graph->AddOutput(name, operand)], [graph->Finish()],
    [graph->Compile()]. *)
Inductive BackendCall : Type :=
| CreateGraph
| AddToGraph (operator : nat)
| AddOutput (name : string) (output : OperandBase)
| Finish
| Compile.

(** The backend collaborator: its reply to a call, given the calls made on
    the graph so far. *)
Class Backend : Type := backend_reply : list BackendCall → BackendCall → MaybeError.

Context `{!Backend}.

(** What a Build call leaves behind: the graph it returns ([None] for
    [nullptr]; a graph is the calls made on it), the lines written to
    [dawn::ErrorLog()], and the calls that reached the collaborators. *)
Record BuildResult : Type := mkBuildResult {
  returned : option (list BackendCall);
  errorLog : list string;
  backendCalls : list BackendCall
}.

Definition abort (message : string) (graph : list BackendCall) : BuildResult :=
  {| returned := None; errorLog := [message]; backendCalls := graph |}.

(** The loop over [sorted_operands]: [false] when an operator is an error
    or cannot be added. *)
Fixpoint Build_operators (heap : list OperatorBase) (graph : list BackendCall)
    (sorted_operands : list nat) : Outcome (bool * list BackendCall) :=
  match sorted_operands with
  | [] => Returns (true, graph)
  | o :: rest =>
      object ← deref (heap !! o);
      if IsError object then Returns (false, graph)
      else if ConsumedError (backend_reply graph (AddToGraph o))
      then Returns (false, graph ++ [AddToGraph o])
      else Build_operators heap (graph ++ [AddToGraph o]) rest
  end.

(** The loop over [namedOperands->GetRecords()] that registers the outputs. *)
Fixpoint Build_outputs (graph : list BackendCall)
    (records : list (string * OperandBase)) : bool * list BackendCall :=
  match records with
  | [] => (true, graph)
  | namedOutput :: rest =>
      let call := AddOutput namedOutput.1 namedOutput.2 in
      if ConsumedError (backend_reply graph call) then (false, graph ++ [call])
      else Build_outputs (graph ++ [call]) rest
  end.

Definition Build (fuel : nat) (this : GraphBuilderBase)
    (namedOperands : list (string * OperandBase)) : Outcome BuildResult :=
  if IsError this then Returns (abort "This Graph object is an error" [])
  else if decide (namedOperands = [])
  then Returns (abort "The output named operands are empty." [])
  else
    let outputs := namedOperands.*2 in
    sorted_operands ← TopologicalSort (operators this) fuel outputs;
    let graph := [CreateGraph] in
    added ← Build_operators (operators this) graph sorted_operands;
    if negb added.1
    then Returns (abort "Failed to add the operand when building graph." added.2)
    else
      let registered := Build_outputs added.2 namedOperands in
      if negb registered.1
      then Returns (abort "Failed to add output when building graph." registered.2)
      else
        let graph := registered.2 in
        if ConsumedError (backend_reply graph Finish)
        then Returns (abort "Failed to finish building graph." (graph ++ [Finish]))
        else
          let graph := graph ++ [Finish] in
          if ConsumedError (backend_reply graph Compile)
          then Returns (abort "Failed to compile the graph." (graph ++ [Compile]))
          else
            let graph := graph ++ [Compile] in
            Returns {| returned := Some graph; errorLog := []; backendCalls := graph |}.

(** ** Graphs built through the public construction calls *)

Inductive PublicCall : Type :=
| CallConstant (desc arrayBuffer : Attrs)
| CallInput (name : string) (desc : Attrs)
| CallMatmul (a b : OperandBase)
| CallAdd (a b : OperandBase)
| CallDiv (a b : OperandBase)
| CallMul (a b : OperandBase)
| CallSub (a b : OperandBase)
| CallMax (a b : OperandBase)
| CallMin (a b : OperandBase)
| CallPow (a b : OperandBase)
| CallConv2d (input filter : OperandBase) (options : option FusableOptions)
| CallAveragePool2d (input : OperandBase) (options : option Attrs)
| CallMaxPool2d (input : OperandBase) (options : option Attrs)
| CallReduceMean (input : OperandBase) (options : option Attrs)
| CallRelu (input : OperandBase)
| CallReluOperator
| CallHardSwish (input : OperandBase)
| CallHardSwishOperator
| CallResample (input : OperandBase) (options : option Attrs)
| CallReshape (input : OperandBase) (new_shape : list Z)
| CallSigmoid (input : OperandBase)
| CallSigmoidOperator
| CallSoftmax (input : OperandBase)
| CallSplit (input : OperandBase) (splits : list Z) (options : option Attrs)
| CallSqueeze (input : OperandBase) (options : option Attrs)
| CallTanh (input : OperandBase)
| CallTranspose (input : OperandBase) (options : option Attrs)
| CallLeakyRelu (input : OperandBase) (options : option Attrs)
| CallLeakyReluOperator (options : option Attrs)
| CallConcat (inputsCount : nat) (inputs : list OperandBase) (axis : Z)
| CallGemm (a b : OperandBase) (options : option Attrs)
| CallClamp (input : OperandBase) (options : option Attrs)
| CallClampOperator (options : option Attrs)
| CallBatchNorm (input mean variance : OperandBase) (options : option FusableOptions)
| CallPad (input padding : OperandBase) (options : option Attrs)
| CallInstanceNorm (input : OperandBase) (options : option Attrs).

(** The operands a call is given. *)
Definition arguments (call : PublicCall) : list OperandBase :=
  match call with
  | CallConstant _ _ | CallInput _ _ | CallReluOperator | CallHardSwishOperator
  | CallSigmoidOperator | CallLeakyReluOperator _ | CallClampOperator _ => []
  | CallMatmul a b | CallAdd a b | CallDiv a b | CallMul a b | CallSub a b
  | CallMax a b | CallMin a b | CallPow a b | CallGemm a b _ => [a; b]
  | CallConv2d input filter _ => [input; filter]
  | CallAveragePool2d input _ | CallMaxPool2d input _ | CallReduceMean input _
  | CallRelu input | CallHardSwish input | CallResample input _ | CallReshape input _
  | CallSigmoid input | CallSoftmax input | CallSplit input _ _ | CallSqueeze input _
  | CallTanh input | CallTranspose input _ | CallLeakyRelu input _ | CallClamp input _
  | CallInstanceNorm input _ => [input]
  | CallConcat inputsCount inputs _ => take inputsCount inputs
  | CallBatchNorm input mean variance _ => [input; mean; variance]
  | CallPad input padding _ => [input; padding]
  end.

Definition operand_result (m : Outcome (OperandBase * GraphBuilderBase))
    : Outcome (list OperandBase * GraphBuilderBase) :=
  r ← m; Returns ([r.1], r.2).

Definition operator_result (m : Outcome (nat * GraphBuilderBase))
    : Outcome (list OperandBase * GraphBuilderBase) :=
  r ← m; Returns ([], r.2).

Definition array_result (m : Outcome (OperandArrayBase * GraphBuilderBase))
    : Outcome (list OperandBase * GraphBuilderBase) :=
  r ← m; Returns (mOperands r.1, r.2).

(** Running a call: the operands it hands to the client, and the builder
    afterwards. *)
Definition run (call : PublicCall) (this : GraphBuilderBase)
    : Outcome (list OperandBase * GraphBuilderBase) :=
  match call with
  | CallConstant desc arrayBuffer => operand_result (Constant this desc arrayBuffer)
  | CallInput name desc => operand_result (Input this name desc)
  | CallMatmul a b => operand_result (Matmul this a b)
  | CallAdd a b => operand_result (Add this a b)
  | CallDiv a b => operand_result (Div this a b)
  | CallMul a b => operand_result (Mul this a b)
  | CallSub a b => operand_result (Sub this a b)
  | CallMax a b => operand_result (Max this a b)
  | CallMin a b => operand_result (Min this a b)
  | CallPow a b => operand_result (Pow this a b)
  | CallConv2d input filter options => operand_result (Conv2d this input filter options)
  | CallAveragePool2d input options => operand_result (AveragePool2d this input options)
  | CallMaxPool2d input options => operand_result (MaxPool2d this input options)
  | CallReduceMean input options => operand_result (ReduceMean this input options)
  | CallRelu input => operand_result (Relu this input)
  | CallReluOperator => operator_result (ReluOperator this)
  | CallHardSwish input => operand_result (HardSwish this input)
  | CallHardSwishOperator => operator_result (HardSwishOperator this)
  | CallResample input options => operand_result (Resample this input options)
  | CallReshape input new_shape => operand_result (Reshape this input new_shape)
  | CallSigmoid input => operand_result (Sigmoid this input)
  | CallSigmoidOperator => operator_result (SigmoidOperator this)
  | CallSoftmax input => operand_result (Softmax this input)
  | CallSplit input splits options => array_result (Split this input splits options)
  | CallSqueeze input options => operand_result (Squeeze this input options)
  | CallTanh input => operand_result (Tanh this input)
  | CallTranspose input options => operand_result (Transpose this input options)
  | CallLeakyRelu input options => operand_result (LeakyRelu this input options)
  | CallLeakyReluOperator options => operator_result (LeakyReluOperator this options)
  | CallConcat inputsCount inputs axis =>
      operand_result (Concat this inputsCount inputs axis)
  | CallGemm a b options => operand_result (Gemm this a b options)
  | CallClamp input options => operand_result (Clamp this input options)
  | CallClampOperator options => operator_result (ClampOperator this options)
  | CallBatchNorm input mean variance options =>
      operand_result (BatchNorm this input mean variance options)
  | CallPad input padding options => operand_result (Pad this input padding options)
  | CallInstanceNorm input options => operand_result (InstanceNorm this input options)
  end.

(** What the construction calls maintain of the arena: the inputs of an
    operator are operands without the error tag, produced at a lower
    address; its outputs name the operator and carry no error tag. *)
Definition well_formed (heap : list OperatorBase) : Prop :=
  ∀ address o, heap !! address = Some o →
    (∀ input, input ∈ mInputs o →
       IsError input = false ∧
       ∃ producer, mOperator input = Some producer ∧ producer < address) ∧
    (∀ output, output ∈ mOutputs o →
       IsError output = false ∧ mOperator output = Some address).

(** An operand the client can hold: the error sentinel, or an output of
    an operator in the arena. *)
Definition handed_out (this : GraphBuilderBase) (operand : OperandBase) : Prop :=
  operand = OperandBase_MakeError ∨
  ∃ address o, operators this !! address = Some o ∧ operand ∈ mOutputs o.

(** The builders a client can reach: a new builder, then calls on operands
    that earlier calls handed out. *)
Inductive Built : GraphBuilderBase → Prop :=
| Built_new error : Built {| builder_error := error; operators := [] |}
| Built_call this call results this' :
    Built this →
    Forall (handed_out this) (arguments call) →
    run call this = Returns (results, this') →
    Built this'.

(** A client session as the list of its calls, run in order; every call
    must be given operands that the builder has handed out. *)
Definition handed_out_check (this : GraphBuilderBase) (operand : OperandBase) : bool :=
  bool_decide (operand = OperandBase_MakeError) ||
  bool_decide (Exists (λ o, operand ∈ mOutputs o) (operators this)).

Fixpoint replay (calls : list PublicCall) (this : GraphBuilderBase)
    : Outcome GraphBuilderBase :=
  match calls with
  | [] => Returns this
  | call :: calls =>
      if forallb (handed_out_check this) (arguments call)
      then r ← run call this; replay calls r.2
      else Undefined
  end.

(** ** The operator graph *)

(** The operators producing the inputs of the operator at [node]. *)
Definition producers (heap : list OperatorBase) (node : nat) : list nat :=
  match heap !! node with
  | Some o => omap mOperator (mInputs o)
  | None => []
  end.

Definition depends (heap : list OperatorBase) (consumer producer : nat) : Prop :=
  producer ∈ producers heap consumer.

(** Reachable from the terminal operands. *)
Definition reachable (heap : list OperatorBase) (rootNodes : list OperandBase)
    (node : nat) : Prop :=
  ∃ root first, root ∈ rootNodes ∧ mOperator root = Some first ∧
                rtc (depends heap) first node.

(** Every input of an operator was produced by an operator at a lower
    address: the graph is acyclic by construction. *)
Definition acyclic (heap : list OperatorBase) : Prop :=
  ∀ address o input, heap !! address = Some o → input ∈ mInputs o →
    ∃ producer, mOperator input = Some producer ∧ producer < address.

(** A terminal operand that names an operator of the arena. *)
Definition terminal (heap : list OperatorBase) (operand : OperandBase) : Prop :=
  ∃ address, mOperator operand = Some address ∧ address < length heap.

(** Duplicates among the terminal operands, two operands being duplicates
    when they have the same producing operator. *)
Fixpoint unique_keep_last (rootNodes : list OperandBase) : list OperandBase :=
  match rootNodes with
  | [] => []
  | node :: rest =>
      if decide (mOperator node ∈ mOperator <$> rest)
      then unique_keep_last rest
      else node :: unique_keep_last rest
  end.

Fixpoint unique_keep_first (rootNodes : list OperandBase) : list OperandBase :=
  match rootNodes with
  | [] => []
  | node :: rest =>
      node :: filter (λ other, mOperator other ≠ mOperator node) (unique_keep_first rest)
  end.

(** [ordered heap done emitted]: appended to a result that holds exactly
    [done], the operators [emitted] are new, and each comes after the
    producers of all its inputs. *)
Fixpoint ordered (heap : list OperatorBase) (done : gset nat) (emitted : list nat) : Prop :=
  match emitted with
  | [] => True
  | node :: rest =>
      (node ∉ done) ∧ (∀ p, p ∈ producers heap node → p ∈ done) ∧
      ordered heap ({[node]} ∪ done) rest
  end.

(** [pops heap nodes done iterations emitted]: with [nodes] on top of the
    work stack and [done] finalized, [iterations] turns of the loop pop
    all of [nodes], whatever lies below them and whatever the result
    holds already, and append [emitted] in the meantime. *)
Definition pops (heap : list OperatorBase) (nodes : list nat) (done : gset nat)
    (iterations : nat) (emitted : list nat) : Prop :=
  ∀ nodesToDo result fuel,
    TopologicalSort_loop heap (iterations + fuel) ((Some <$> nodes) ++ nodesToDo)
                         done result
    = TopologicalSort_loop heap fuel nodesToDo (list_to_set emitted ∪ done)
                           (result ++ emitted).

(** [visits heap nodes]: the loop gets through [nodes] from every [done];
    the operators it appends are [ordered], are reachable from [nodes],
    and leave every one of [nodes] finalized. *)
Definition visits (heap : list OperatorBase) (nodes : list nat) : Prop :=
  ∀ done, ∃ iterations emitted,
    pops heap nodes done iterations emitted ∧
    ordered heap done emitted ∧
    (∀ x, x ∈ emitted → ∃ y, y ∈ nodes ∧ rtc (depends heap) y x) ∧
    (∀ y, y ∈ nodes → y ∈ done ∨ y ∈ emitted).

(** No operator of [nodes] is reachable from another one. *)
Definition independent (heap : list OperatorBase) (nodes : list nat) : Prop :=
  ∀ p q, p ∈ nodes → q ∈ nodes → p ≠ q → ¬ rtc (depends heap) p q.

End WithAttrs.

(** ** Three sentences of the specification, as it words them *)

Section AsSpecified.

Context {Attrs : Type}.

(** "Traversal order among independent producers follows the order
    operators were listed in Inputs()": the producers of the inputs of
    [node], when independent, stand in the output in the order of
    Inputs(). *)
Definition producers_in_Inputs_order (heap : list (@OperatorBase Attrs))
    (rootNodes : list OperandBase) (node : nat) : Prop :=
  ∀ fuel result,
    TopologicalSort heap fuel rootNodes = Returns result →
    independent heap (producers heap node) →
    filter (λ x, x ∈ producers heap node) result = producers heap node.

(** The sorter "returns the same sequence as on the deduplicated list",
    the deduplicated list keeping the first operand of every group of
    duplicates. *)
Definition same_as_deduplicated (heap : list (@OperatorBase Attrs))
    (rootNodes : list OperandBase) : Prop :=
  ∀ fuel result,
    TopologicalSort heap fuel rootNodes = Returns result →
    TopologicalSort heap fuel (unique_keep_first rootNodes) = Returns result.


End AsSpecified.

(** ** The same graph at other addresses *)

Section Relocation.

Context {Attrs : Type}.

(** The graph as another run of the allocator would lay it out: the
    operator stored at [address] is stored at [f address], and every
    pointer to an operator is mapped along. *)
Definition relocate_operand (f : nat → nat) (operand : OperandBase) : OperandBase :=
  {| operand_error := operand_error operand;
     mOperator := f <$> mOperator operand;
     mType := mType operand;
     mRank := mRank operand |}.

Definition relocate_options (f : nat → nat) (options : @FusableOptions Attrs)
    : FusableOptions :=
  {| activation := f <$> activation options; otherOptions := otherOptions options |}.

Definition relocate_class (f : nat → nat) (class : @OperatorClass Attrs)
    : OperatorClass :=
  match class with
  | cConv2d options => cConv2d (relocate_options f <$> options)
  | cBatchNorm options => cBatchNorm (relocate_options f <$> options)
  | _ => class
  end.

Definition relocate (f : nat → nat) (o : @OperatorBase Attrs) : OperatorBase :=
  {| operator_error := operator_error o;
     opClass := relocate_class f (opClass o);
     mInputs := relocate_operand f <$> mInputs o;
     mOutputs := relocate_operand f <$> mOutputs o;
     mFusedOperator := mFusedOperator o |}.

Definition relocated (f : nat → nat) (heap heap' : list (@OperatorBase Attrs)) : Prop :=
  ∀ address, heap' !! f address = relocate f <$> heap !! address.

(** The outcome of a call with its result mapped. *)
Definition Outcome_map {A B} (g : A → B) (m : Outcome A) : Outcome B :=
  a ← m; Returns (g a).

End Relocation.


(** ** What the entry points add to the arena *)

Section Construction.

Context {Attrs : Type} `{!@ConcreteOperators Attrs}.

(** [appended this given new]: the operators [new], stored behind those of
    [this] by a call that was given the operands [given].  An error object
    or a fused-operator handle has neither inputs nor outputs; an input carries no error tag and is
    one of [given] or an output of an operator stored earlier by the same
    call; an output carries no error tag and names its operator; and the
    outputs have a type and a rank as soon as the inputs have. *)
Definition appended (this : @GraphBuilderBase Attrs) (given : list OperandBase)
    (new : list (@OperatorBase Attrs)) : Prop :=
  ∀ k o, new !! k = Some o →
    (IsError o = true ∨ is_Some (mFusedOperator o) →
     mInputs o = [] ∧ mOutputs o = []) ∧
    (∀ input, input ∈ mInputs o →
       IsError input = false ∧
       (input ∈ given ∨ ∃ k' o', k' < k ∧ new !! k' = Some o' ∧ input ∈ mOutputs o')) ∧
    (∀ output, output ∈ mOutputs o →
       IsError output = false ∧ mOperator output = Some (length (operators this) + k)) ∧
    ((∀ input, input ∈ mInputs o → is_Some (mType input) ∧ is_Some (mRank input)) →
     ∀ output, output ∈ mOutputs o → is_Some (mType output) ∧ is_Some (mRank output)).

(** What the construction calls maintain of the arena besides
    [well_formed]: an error object or a fused-operator handle has neither
    inputs nor outputs, every
    input of an operator is an output of an operator of the arena, and
    every output has a type and a rank. *)
Definition linked (heap : list (@OperatorBase Attrs)) : Prop :=
  ∀ address o, heap !! address = Some o →
    (IsError o = true ∨ is_Some (mFusedOperator o) →
     mInputs o = [] ∧ mOutputs o = []) ∧
    (∀ input, input ∈ mInputs o →
       ∃ producer p, heap !! producer = Some p ∧ input ∈ mOutputs p) ∧
    (∀ output, output ∈ mOutputs o → is_Some (mType output) ∧ is_Some (mRank output)).

(** The options of a call that takes fusible options. *)
Definition fusable_options (call : @PublicCall Attrs) : option (option FusableOptions) :=
  match call with
  | CallConv2d _ _ options | CallBatchNorm _ _ _ options => Some options
  | _ => None
  end.

(** The call is Conv2d or BatchNorm with an activation whose fused operator
    is Clamp. *)
Definition on_clamp_path (this : @GraphBuilderBase Attrs) (call : PublicCall) : Prop :=
  ∃ options handle,
    fusable_options call = Some options ∧
    options ≫= activation = Some handle ∧
    GetFusedOperator this handle = Returns FusedOperator.Clamp.

(** A set of operators each of which consumes an output of one of them. *)
Definition feeds_itself (heap : list (@OperatorBase Attrs)) (cycle : gset nat) : Prop :=
  ∀ node, node ∈ cycle → ∃ p, p ∈ producers heap node ∧ p ∈ cycle.

(** ** What Build asks of the backend *)

Context `{!Backend}.

(** The calls Build makes on the graph it has created when none is
    refused: the sorted operators are added, the named outputs are
    registered, the graph is finished and compiled. *)
Definition requests (sorted_operands : list nat) (records : list (string * OperandBase))
    : list BackendCall :=
  (AddToGraph <$> sorted_operands) ++
  ((λ namedOutput, AddOutput namedOutput.1 namedOutput.2) <$> records) ++
  [Finish; Compile].

(** Making [calls] one after the other on [graph], up to the first call
    the backend refuses: the refused call, if there is one, and the graph
    with the calls made. *)
Fixpoint ask (graph : list BackendCall) (calls : list BackendCall)
    : option BackendCall * list BackendCall :=
  match calls with
  | [] => (None, graph)
  | call :: rest =>
      if ConsumedError (backend_reply graph call) then (Some call, graph ++ [call])
      else ask (graph ++ [call]) rest
  end.

(** The line Build logs when [call] is refused.  The creation of the graph
    is not checked. *)
Definition refusal_message (call : BackendCall) : list string :=
  match call with
  | CreateGraph => []
  | AddToGraph _ => ["Failed to add the operand when building graph."]
  | AddOutput _ _ => ["Failed to add output when building graph."]
  | Finish => ["Failed to finish building graph."]
  | Compile => ["Failed to compile the graph."]
  end.

(** What is left behind by making [calls] on a new graph. *)
Definition asked (calls : list BackendCall) : BuildResult :=
  match ask [CreateGraph] calls with
  | (None, graph) => {| returned := Some graph; errorLog := []; backendCalls := graph |}
  | (Some refused, graph) =>
      {| returned := None; errorLog := refusal_message refused; backendCalls := graph |}
  end.

(** The operators handed to the backend by [calls]. *)
Definition added (calls : list BackendCall) : list nat :=
  omap (λ call, match call with AddToGraph operator => Some operator | _ => None end)
       calls.

End Construction.


(** ** A concrete session

    Operator attributes are lists of integers: a descriptor is its list of
    dimensions.  The validators outside Unary.cpp accept everything; graph
    inputs and constants get type Float32 and the rank of their
    descriptor. *)

#[global] Instance session_operators : @ConcreteOperators (list Z) := {|
  KindValidate := λ _, Success;
  OutputAttributes := λ o _,
    match opClass o with
    | cInput _ desc | cConstant desc _ => Some (Float32, Z.of_nat (length desc))
    | _ => None
    end;
  Split_outputSize := length
|}.

(** A backend that accepts every call. *)
#[global] Instance session_backend : Backend := λ _ _, Success.

(** A = Input "A", B = Input "B" (both of rank 2), C = MatMul(A, B),
    D = Relu(C). *)
Definition session : Outcome (list OperandBase * @GraphBuilderBase (list Z)) :=
  a ← Input GraphBuilderBase_new "A" [2; 2]%Z;
  b ← Input a.2 "B" [2; 2]%Z;
  c ← Matmul b.2 a.1 b.1;
  d ← Relu c.2 c.1;
  Returns ([a.1; b.1; c.1; d.1], d.2).

Definition session_builder : @GraphBuilderBase (list Z) :=
  Eval vm_compute in
    match session with Returns r => r.2 | _ => GraphBuilderBase_new end.

Definition session_operand (i : nat) : OperandBase :=
  match session with
  | Returns r => default OperandBase_MakeError (r.1 !! i)
  | _ => OperandBase_MakeError
  end.

Definition session_A : OperandBase := Eval vm_compute in session_operand 0.
Definition session_B : OperandBase := Eval vm_compute in session_operand 1.
Definition session_C : OperandBase := Eval vm_compute in session_operand 2.
Definition session_D : OperandBase := Eval vm_compute in session_operand 3.

(** x = Input "x" of rank 1, s = Softmax(x), r = Relu(s). *)
Definition poisoned_session : Outcome (list OperandBase * @GraphBuilderBase (list Z)) :=
  x ← Input GraphBuilderBase_new "x" [4]%Z;
  s ← Softmax x.2 x.1;
  r ← Relu s.2 s.1;
  Returns ([x.1; s.1; r.1], r.2).

Definition poisoned_builder : @GraphBuilderBase (list Z) :=
  Eval vm_compute in
    match poisoned_session with Returns r => r.2 | _ => GraphBuilderBase_new end.

Definition poisoned_x : OperandBase :=
  Eval vm_compute in
    match poisoned_session with
    | Returns r => default OperandBase_MakeError (r.1 !! 0)
    | _ => OperandBase_MakeError
    end.

(** relu6 = ClampOperator(options), x = Input "x", w = Constant; then
    y = Conv2d(x, w, options with activation relu6). *)
Definition clamp_options : option (list Z) := Some [0; 6]%Z.

Definition conv2d_options : option (@FusableOptions (list Z)) :=
  Some {| activation := Some 0; otherOptions := [] |}.

Definition clamp_setup : Outcome (list OperandBase * @GraphBuilderBase (list Z)) :=
  relu6 ← ClampOperator GraphBuilderBase_new clamp_options;
  x ← Input relu6.2 "x" [1; 3; 8; 8]%Z;
  w ← Constant x.2 [4; 3; 3; 3]%Z [];
  Returns ([x.1; w.1], w.2).

Definition clamp_before : @GraphBuilderBase (list Z) :=
  Eval vm_compute in
    match clamp_setup with Returns r => r.2 | _ => GraphBuilderBase_new end.

Definition clamp_x : OperandBase :=
  Eval vm_compute in
    match clamp_setup with
    | Returns r => default OperandBase_MakeError (r.1 !! 0)
    | _ => OperandBase_MakeError
    end.

Definition clamp_w : OperandBase :=
  Eval vm_compute in
    match clamp_setup with
    | Returns r => default OperandBase_MakeError (r.1 !! 1)
    | _ => OperandBase_MakeError
    end.

Definition clamp_after : @GraphBuilderBase (list Z) :=
  Eval vm_compute in
    match Conv2d clamp_before clamp_x clamp_w conv2d_options with
    | Returns r => r.2
    | _ => GraphBuilderBase_new
    end.

Definition clamp_y : OperandBase :=
  Eval vm_compute in
    match Conv2d clamp_before clamp_x clamp_w conv2d_options with
    | Returns r => r.1
    | _ => OperandBase_MakeError
    end.

(** Operators as the entry points construct them: Softmax on the rank-1
    input of the poisoned session, Relu on D, and the graph input A. *)
Definition softmax_of_x : @OperatorBase (list Z) := new_Unary 1 op.kSoftmax poisoned_x.
Definition relu_of_D : @OperatorBase (list Z) := new_Unary 4 op.kRelu session_D.
Definition input_A : @OperatorBase (list Z) := new_Input 0 "A" [2; 2]%Z.

(** The operator MatMul(A, B) of the session, stored at address 2. *)
Definition session_matmul : @OperatorBase (list Z) :=
  Eval vm_compute in default OperatorBase_MakeError (operators session_builder !! 2).

(** What Build leaves behind for the output D of the session. *)
Definition session_result : BuildResult :=
  Eval vm_compute in
    match Build 20 session_builder [("result", session_D)] with
    | Returns result => result
    | _ => {| returned := None; errorLog := []; backendCalls := [] |}
    end.

(** Split of D into two parts, called on the builder of the session. *)
Definition split_array : OperandArrayBase :=
  Eval vm_compute in
    match Split session_builder session_D [1; 1]%Z None with
    | Returns r => r.1
    | _ => OperandArrayBase_MakeError
    end.

Definition split_after : @GraphBuilderBase (list Z) :=
  Eval vm_compute in
    match Split session_builder session_D [1; 1]%Z None with
    | Returns r => r.2
    | _ => GraphBuilderBase_new
    end.

(** The builder of the clamp session after its first call, ClampOperator. *)
Definition clamp_first : @GraphBuilderBase (list Z) :=
  Eval vm_compute in
    match ClampOperator GraphBuilderBase_new clamp_options with
    | Returns r => r.2
    | _ => GraphBuilderBase_new
    end.

(** An arena that the public calls cannot build: the operator at address
    0 consumes the output of the operator at address 1, which consumes the
    output of the operator at address 0. *)
Definition output_of (address : nat) : OperandBase :=
  {| operand_error := false; mOperator := Some address;
     mType := Some Float32; mRank := Some 2%Z |}.

Definition cyclic_arena : list (@OperatorBase (list Z)) :=
  [ {| operator_error := false; opClass := cUnary op.kRelu;
       mInputs := [output_of 1]; mOutputs := [output_of 0]; mFusedOperator := None |};
    {| operator_error := false; opClass := cUnary op.kTanh;
       mInputs := [output_of 0]; mOutputs := [output_of 1]; mFusedOperator := None |} ].


(** relu = ReluOperator(), then x = Input "x" and w = Constant. *)
Definition relu_first : @GraphBuilderBase (list Z) :=
  Eval vm_compute in
    match ReluOperator GraphBuilderBase_new with
    | Returns r => r.2
    | _ => GraphBuilderBase_new
    end.

Definition relu_before : @GraphBuilderBase (list Z) :=
  Eval vm_compute in
    match (x ← Input relu_first "x" [1; 3; 8; 8]%Z; Constant x.2 [4; 3; 3; 3]%Z []) with
    | Returns r => r.2
    | _ => GraphBuilderBase_new
    end.


(** The graph of the session as an allocator that starts ten addresses
    higher lays it out. *)
Definition shift (address : nat) : nat := 10 + address.

Definition session_relocated : list (@OperatorBase (list Z)) :=
  replicate 10 OperatorBase_MakeError ++ (relocate shift <$> operators session_builder).


(** * Properties *)

Section Sorter.

Context {Attrs : Type}.
Implicit Types (heap : list (@OperatorBase Attrs)) (done : gset nat).
Implicit Types (inputs rootNodes : list OperandBase).

(** ** One iteration of the loop *)

Lemma scan_inputs_from done inputs can_add nodesToDo :
  foldl (λ (acc : bool * list (option nat)) (dep : OperandBase),
           if decide (nodesDone_count done (mOperator dep) = 0)
           then (false, mOperator dep :: acc.2)
           else acc)
        (can_add, nodesToDo) inputs
  = (can_add &&
       bool_decide (filter (λ p, nodesDone_count done p = 0) (mOperator <$> inputs) = []),
     reverse (filter (λ p, nodesDone_count done p = 0) (mOperator <$> inputs)) ++ nodesToDo).
Proof.
  revert can_add nodesToDo.
  induction inputs as [|dep inputs IH]; intros can_add nodesToDo; simpl.
  - by rewrite andb_true_r.
  - rewrite filter_cons.
    destruct (decide (nodesDone_count done (mOperator dep) = 0)) as [Hz|Hz].
    + rewrite IH. simpl. rewrite andb_false_r, reverse_cons. f_equal.
      by rewrite <- app_assoc.
    + by rewrite IH.
Qed.

Lemma scan_inputs_spec done inputs nodesToDo :
  scan_inputs done inputs nodesToDo
  = (bool_decide (filter (λ p, nodesDone_count done p = 0) (mOperator <$> inputs) = []),
     reverse (filter (λ p, nodesDone_count done p = 0) (mOperator <$> inputs)) ++ nodesToDo).
Proof. unfold scan_inputs. by rewrite scan_inputs_from. Qed.

Lemma filter_count_Some done (ps : list nat) :
  filter (λ p, nodesDone_count done p = 0) (Some <$> ps)
  = Some <$> filter (λ p, p ∉ done) ps.
Proof.
  induction ps as [|p ps IH]; [done|].
  rewrite fmap_cons, !filter_cons. simpl.
  destruct (decide (p ∈ done)) as [Hin|Hin].
  - rewrite decide_False by done. rewrite decide_False by (by intros ?). done.
  - rewrite decide_True by done. rewrite decide_True by done.
    by rewrite fmap_cons, IH.
Qed.

Lemma loop_nil heap fuel done result :
  TopologicalSort_loop heap (S fuel) [] done result = Returns result.
Proof. done. Qed.

Lemma loop_null heap fuel nodesToDo done result :
  TopologicalSort_loop heap (S fuel) (None :: nodesToDo) done result = Undefined.
Proof. done. Qed.

Lemma loop_done heap fuel node nodesToDo done result :
  node ∈ done →
  TopologicalSort_loop heap (S fuel) (Some node :: nodesToDo) done result
  = TopologicalSort_loop heap fuel nodesToDo done result.
Proof.
  intros Hin. simpl. rewrite (decide_True (P := node ∈ done)) by done.
  by rewrite decide_False.
Qed.

Lemma loop_inspect heap fuel node o nodesToDo done result :
  node ∉ done → heap !! node = Some o →
  TopologicalSort_loop heap (S fuel) (Some node :: nodesToDo) done result
  = let missing := filter (λ p, nodesDone_count done p = 0) (mOperator <$> mInputs o) in
    if bool_decide (missing = [])
    then TopologicalSort_loop heap fuel nodesToDo ({[node]} ∪ done) (result ++ [node])
    else TopologicalSort_loop heap fuel (reverse missing ++ Some node :: nodesToDo) done result.
Proof.
  intros Hin Ho. simpl. rewrite (decide_False (P := node ∈ done)) by done.
  rewrite decide_True by done. rewrite Ho, scan_inputs_spec. done.
Qed.

(** ** The operator graph *)

Lemma fmap_Some_omap {A B} (f : A → option B) (l : list A) :
  (∀ x, x ∈ l → is_Some (f x)) → f <$> l = Some <$> omap f l.
Proof.
  induction l as [|x l IH]; intros Hall; [done|].
  destruct (Hall x) as [y Hy]; [by left|].
  simpl. rewrite Hy. simpl. f_equal. apply IH.
  intros z Hz. apply Hall. by right.
Qed.

Lemma acyclic_inputs heap node o :
  acyclic heap → heap !! node = Some o →
  mOperator <$> mInputs o = Some <$> producers heap node.
Proof.
  intros Hacyclic Ho. unfold producers. rewrite Ho.
  apply fmap_Some_omap. intros input Hin.
  destruct (Hacyclic node o input Ho Hin) as (p & Hp & _). by exists p.
Qed.

Lemma producers_lt heap node p :
  acyclic heap → p ∈ producers heap node → p < node.
Proof.
  intros Hacyclic. unfold producers.
  destruct (heap !! node) as [o|] eqn:Ho; [|by intros ?%elem_of_nil].
  intros (input & Hin & Hp)%list_elem_of_omap.
  destruct (Hacyclic node o input Ho Hin) as (p' & Hp' & Hlt). congruence.
Qed.

Lemma reach_le heap y x :
  acyclic heap → rtc (depends heap) y x → x ≤ y.
Proof.
  intros Hacyclic. induction 1 as [|a b c Hab _ IH]; [done|].
  apply (producers_lt _ _ _ Hacyclic) in Hab. lia.
Qed.

Lemma ordered_app heap done emitted1 emitted2 :
  ordered heap done (emitted1 ++ emitted2) ↔
  ordered heap done emitted1 ∧ ordered heap (list_to_set emitted1 ∪ done) emitted2.
Proof.
  revert done. induction emitted1 as [|x emitted1 IH]; intros done; simpl.
  - rewrite (left_id_L ∅ (∪)). naive_solver.
  - rewrite IH.
    replace (list_to_set emitted1 ∪ ({[x]} ∪ done))
      with ({[x]} ∪ list_to_set emitted1 ∪ done) by set_solver.
    naive_solver.
Qed.

Lemma ordered_fresh heap done emitted x :
  ordered heap done emitted → x ∈ emitted → x ∉ done.
Proof.
  revert done. induction emitted as [|y emitted IH]; intros done; simpl.
  - by intros _ ?%elem_of_nil.
  - intros (Hy & _ & Hrest) [->|Hin]%elem_of_cons; [done|].
    specialize (IH _ Hrest Hin). set_solver.
Qed.

Lemma ordered_NoDup heap done emitted :
  ordered heap done emitted → NoDup emitted.
Proof.
  revert done. induction emitted as [|y emitted IH]; intros done; simpl.
  - constructor.
  - intros (_ & _ & Hrest). constructor; [|by eapply IH].
    intros Hin. apply (ordered_fresh _ _ _ _ Hrest) in Hin. set_solver.
Qed.

(** Positions: in an [ordered] sequence the producer of an input is
    either already in [done] or stands at a strictly smaller index. *)
Lemma ordered_lookup heap done emitted i node p :
  ordered heap done emitted → emitted !! i = Some node →
  p ∈ producers heap node →
  p ∈ done ∨ ∃ j, j < i ∧ emitted !! j = Some p.
Proof.
  revert done i. induction emitted as [|y emitted IH]; intros done i; simpl.
  - by intros _ ?.
  - intros (_ & Hprod & Hrest) Hi Hp. destruct i as [|i]; simpl in Hi.
    + injection Hi as ->. left. by apply Hprod.
    + destruct (IH _ _ Hrest Hi Hp) as [Hin|(j & Hj & Hlook)].
      * apply elem_of_union in Hin as [->%elem_of_singleton|Hin]; [|by left].
        right. exists 0. split; [lia|done].
      * right. exists (S j). split; [lia|done].
Qed.

(** An [ordered] sequence starting from the empty set is closed under
    [depends]. *)
Lemma ordered_closed heap emitted x y :
  ordered heap ∅ emitted → x ∈ emitted → rtc (depends heap) x y → y ∈ emitted.
Proof.
  intros Hordered Hx Hreach. revert Hx.
  induction Hreach as [|a b c Hab _ IH]; intros Ha; [done|].
  apply list_elem_of_lookup in Ha as [i Hi].
  destruct (ordered_lookup _ _ _ _ _ _ Hordered Hi Hab) as [Hb|(j & _ & Hj)].
  - by apply not_elem_of_empty in Hb.
  - apply IH. apply list_elem_of_lookup. by exists j.
Qed.

(** ** Visiting the nodes on top of the stack *)

Lemma filter_none {A} (P : A → Prop) `{!∀ x, Decision (P x)} (l : list A) :
  (∀ x, x ∈ l → ¬ P x) → filter P l = [].
Proof.
  induction l as [|x l IH]; intros Hnone; [done|].
  rewrite filter_cons, decide_False by (apply Hnone; by left).
  apply IH. intros y Hy. apply Hnone. by right.
Qed.

Lemma pops_nil heap done : pops heap [] done 0 [].
Proof.
  intros nodesToDo result fuel. simpl.
  by rewrite (left_id_L ∅ (∪)), app_nil_r.
Qed.

Lemma pops_app heap nodes1 nodes2 done k1 k2 emitted1 emitted2 :
  pops heap nodes1 done k1 emitted1 →
  pops heap nodes2 (list_to_set emitted1 ∪ done) k2 emitted2 →
  pops heap (nodes1 ++ nodes2) done (k1 + k2) (emitted1 ++ emitted2).
Proof.
  intros Hrun1 Hrun2 nodesToDo result fuel.
  rewrite fmap_app, <- !app_assoc, <- Nat.add_assoc, Hrun1, Hrun2.
  f_equal; [rewrite list_to_set_app_L; set_solver|by rewrite <- app_assoc].
Qed.

(** A node that is finalized already is popped. *)
Lemma pops_done heap node done :
  node ∈ done → pops heap [node] done 1 [].
Proof.
  intros Hdone nodesToDo result fuel. simpl fmap. simpl app at 1.
  change (1 + fuel) with (S fuel). rewrite loop_done by done.
  by rewrite list_to_set_nil, (left_id_L ∅ (∪)), app_nil_r.
Qed.

(** A node whose producers are all finalized is appended and popped. *)
Lemma pops_ready heap node o done :
  acyclic heap → heap !! node = Some o → node ∉ done →
  filter (λ p, p ∉ done) (producers heap node) = [] →
  pops heap [node] done 1 [node].
Proof.
  intros Hacyclic Ho Hdone Hempty nodesToDo result fuel. simpl fmap. simpl app at 1.
  change (1 + fuel) with (S fuel). rewrite (loop_inspect heap fuel node o) by done.
  simpl. rewrite (acyclic_inputs heap node o), filter_count_Some, Hempty by done.
  simpl. f_equal. set_solver.
Qed.

(** A node with producers missing stays on the stack below them; once the
    loop is through them, the node is inspected again and appended. *)
Lemma pops_deferred heap node o done k emitted :
  acyclic heap → heap !! node = Some o → node ∉ done →
  filter (λ p, p ∉ done) (producers heap node) ≠ [] →
  pops heap (reverse (filter (λ p, p ∉ done) (producers heap node))) done k emitted →
  node ∉ emitted →
  (∀ p, p ∈ producers heap node → p ∈ list_to_set (C := gset nat) emitted ∪ done) →
  pops heap [node] done (S (k + 1)) (emitted ++ [node]).
Proof.
  intros Hacyclic Ho Hdone Hmissing Hrun Hnew Hall nodesToDo result fuel.
  pose proof (acyclic_inputs heap node o Hacyclic Ho) as Hinputs.
  simpl fmap. simpl app at 1.
  change (S (k + 1) + fuel) with (S (k + 1 + fuel)).
  rewrite (loop_inspect heap _ node o) by done.
  simpl. rewrite Hinputs, filter_count_Some.
  rewrite bool_decide_eq_false_2
    by (intros Hnil; apply fmap_nil_inv in Hnil; done).
  rewrite <- fmap_reverse, <- Nat.add_assoc, Hrun.
  change (1 + fuel) with (S fuel).
  rewrite (loop_inspect heap fuel node o); [|set_solver|done].
  simpl. rewrite Hinputs, filter_count_Some.
  rewrite bool_decide_eq_true_2.
  - rewrite list_to_set_app_L, app_assoc. f_equal. set_solver.
  - rewrite filter_none; [done|].
    intros p Hp Hp'. apply Hp'. by apply Hall.
Qed.

Lemma visits_nil heap : visits heap [].
Proof.
  intros done. exists 0, []. split_and!.
  - apply pops_nil.
  - done.
  - by intros x ?%elem_of_nil.
  - by intros y ?%elem_of_nil.
Qed.

Lemma visits_app heap nodes1 nodes2 :
  visits heap nodes1 → visits heap nodes2 → visits heap (nodes1 ++ nodes2).
Proof.
  intros Hvisit1 Hvisit2 done.
  destruct (Hvisit1 done) as (k1 & emitted1 & Hrun1 & Hord1 & Hreach1 & Hin1).
  destruct (Hvisit2 (list_to_set emitted1 ∪ done))
    as (k2 & emitted2 & Hrun2 & Hord2 & Hreach2 & Hin2).
  exists (k1 + k2), (emitted1 ++ emitted2). split_and!.
  - by apply pops_app.
  - apply ordered_app. by split.
  - intros x [Hx|Hx]%elem_of_app.
    + destruct (Hreach1 x Hx) as (y & Hy & Hrtc). exists y. set_solver.
    + destruct (Hreach2 x Hx) as (y & Hy & Hrtc). exists y. set_solver.
  - intros y [Hy|Hy]%elem_of_app.
    + destruct (Hin1 y Hy); set_solver.
    + destruct (Hin2 y Hy); set_solver.
Qed.

Lemma visits_Forall heap (bound : nat) nodes :
  (∀ node, node < bound → visits heap [node]) →
  Forall (λ node, node < bound) nodes → visits heap nodes.
Proof.
  intros Hnode. induction 1 as [|node nodes Hlt _ IH].
  - apply visits_nil.
  - apply (visits_app heap [node] nodes); [by apply Hnode|done].
Qed.

(** What is appended while the missing producers of [node] are visited
    lies strictly below [node], and afterwards every producer is
    finalized. *)
Lemma missing_visited heap node done emitted :
  acyclic heap →
  (∀ x, x ∈ emitted →
     ∃ y, y ∈ reverse (filter (λ p, p ∉ done) (producers heap node)) ∧
          rtc (depends heap) y x) →
  (∀ y, y ∈ reverse (filter (λ p, p ∉ done) (producers heap node)) →
     y ∈ done ∨ y ∈ emitted) →
  (node ∉ emitted) ∧
  (∀ x, x ∈ emitted → rtc (depends heap) node x) ∧
  (∀ p, p ∈ producers heap node → p ∈ list_to_set (C := gset nat) emitted ∪ done).
Proof.
  intros Hacyclic Hreach Hin.
  assert (Hbelow : ∀ x, x ∈ emitted → rtc (depends heap) node x ∧ x < node).
  { intros x Hx. destruct (Hreach x Hx) as (y & Hy & Hrtc).
    apply elem_of_reverse, list_elem_of_filter in Hy as [_ Hy]. split.
    - by apply rtc_l with y.
    - apply (reach_le heap) in Hrtc; [|done].
      apply (producers_lt heap) in Hy; [|done]. lia. }
  split_and!.
  - intros Hnode. apply Hbelow in Hnode. lia.
  - intros x Hx. by apply Hbelow.
  - intros p Hp. destruct (decide (p ∈ done)) as [?|Hp']; [set_solver|].
    destruct (Hin p); [|set_solver|set_solver].
    by apply elem_of_reverse, list_elem_of_filter.
Qed.

Lemma visits_node heap node :
  acyclic heap → node < length heap → visits heap [node].
Proof.
  intros Hacyclic. induction (lt_wf node) as [node _ IH]. intros Hlen done.
  destruct (decide (node ∈ done)) as [Hdone|Hdone].
  { exists 1, []. split_and!.
    - by apply pops_done.
    - done.
    - by intros x ?%elem_of_nil.
    - intros y ->%list_elem_of_singleton. by left. }
  destruct (lookup_lt_is_Some_2 heap node Hlen) as [o Ho].
  set (missing := filter (λ p, p ∉ done) (producers heap node)).
  destruct (decide (missing = [])) as [Hempty|Hnonempty].
  - (* every producer is finalized already *)
    exists 1, [node]. split_and!.
    + by apply (pops_ready heap node o).
    + simpl. split_and!; [done| |done].
      intros p Hp. destruct (decide (p ∈ done)) as [?|Hp']; [done|].
      assert (p ∈ missing) as Hmissing by (by apply list_elem_of_filter).
      rewrite Hempty in Hmissing. by apply elem_of_nil in Hmissing.
    + intros x ->%list_elem_of_singleton. exists node. split; [by left|done].
    + intros y ->%list_elem_of_singleton. right. by left.
  - (* the missing producers lie below [node]: the induction hypothesis
       takes the loop through them *)
    assert (Hvisit : visits heap (reverse missing)).
    { apply (visits_Forall heap node).
      - intros p Hp. apply IH; [done|lia].
      - apply Forall_forall. intros p Hp.
        apply elem_of_reverse, list_elem_of_filter in Hp as [_ Hp].
        by apply (producers_lt heap). }
    destruct (Hvisit done) as (k & emitted & Hrun & Hord & Hreach & Hin).
    destruct (missing_visited heap node done emitted Hacyclic Hreach Hin)
      as (Hnew & Hbelow & Hall).
    exists (S (k + 1)), (emitted ++ [node]). split_and!.
    + by apply (pops_deferred heap node o).
    + apply ordered_app. split; [done|]. simpl. split_and!; [set_solver|done|done].
    + intros x [Hx|Hx%list_elem_of_singleton]%elem_of_app; [|subst x].
      * exists node. split; [by left|by apply Hbelow].
      * exists node. split; [by left|done].
    + intros y ->%list_elem_of_singleton. right. set_solver.
Qed.

(** ** The order among independent producers *)

Lemma filter_only {A} (P : A → Prop) `{!∀ x, Decision (P x)} (l : list A) (x : A) :
  NoDup l → x ∈ l → P x → (∀ y, y ∈ l → P y → y = x) → filter P l = [x].
Proof.
  induction l as [|y l IH]; intros Hnodup Hx HPx Honly.
  - by apply elem_of_nil in Hx.
  - apply NoDup_cons in Hnodup as [Hy Hnodup]. rewrite filter_cons.
    destruct (decide (P y)) as [HPy|HPy].
    + assert (y = x) as -> by (apply Honly; [by left|done]).
      f_equal. apply filter_none.
      intros z Hz HPz. assert (z = x) as -> by (apply Honly; [by right|done]). done.
    + apply elem_of_cons in Hx as [->|Hx]; [done|].
      apply IH; [done..|]. intros z Hz. apply Honly. by right.
Qed.

Lemma filter_agree {A} (P Q : A → Prop) `{!∀ x, Decision (P x)} `{!∀ x, Decision (Q x)}
    (l : list A) :
  (∀ x, x ∈ l → P x ↔ Q x) → filter P l = filter Q l.
Proof.
  induction l as [|x l IH]; intros Hagree; [done|].
  rewrite !filter_cons, IH by (intros y Hy; apply Hagree; by right).
  destruct (Hagree x) as [HPQ HQP]; [by left|].
  destruct (decide (P x)), (decide (Q x)); naive_solver.
Qed.

(** Distinct, pairwise independent nodes that are all still to do are
    appended in the order they lie on the stack. *)
Lemma visits_independent heap nodes done :
  acyclic heap → Forall (λ node, node < length heap) nodes →
  NoDup nodes → independent heap nodes → (∀ p, p ∈ nodes → p ∉ done) →
  ∃ iterations emitted,
    pops heap nodes done iterations emitted ∧
    ordered heap done emitted ∧
    (∀ x, x ∈ emitted → ∃ y, y ∈ nodes ∧ rtc (depends heap) y x) ∧
    (∀ y, y ∈ nodes → y ∈ done ∨ y ∈ emitted) ∧
    filter (λ x, x ∈ nodes) emitted = nodes.
Proof.
  intros Hacyclic Hlen. revert done.
  induction Hlen as [|node nodes Hlt _ IH]; intros done Hnodup Hindep Htodo.
  { exists 0, []. split_and!; [apply pops_nil|done| | |done].
    - by intros x ?%elem_of_nil.
    - by intros x ?%elem_of_nil. }
  apply NoDup_cons in Hnodup as [Hnode Hnodup].
  destruct (visits_node heap node Hacyclic Hlt done)
    as (k1 & emitted1 & Hrun1 & Hord1 & Hreach1 & Hin1).
  assert (Hnode1 : node ∈ emitted1).
  { destruct (Hin1 node) as [Hdone|?]; [by left| |done].
    exfalso. by apply (Htodo node); [left|]. }
  assert (Hothers : ∀ y, y ∈ nodes → y ∉ emitted1).
  { intros y Hy Hy1. destruct (Hreach1 y Hy1) as (z & ->%list_elem_of_singleton & Hrtc).
    apply (Hindep node y); [by left|by right| |done]. by intros ->. }
  destruct (IH (list_to_set emitted1 ∪ done))
    as (k2 & emitted2 & Hrun2 & Hord2 & Hreach2 & Hin2 & Hfilter); [done| | |].
  { intros p q Hp Hq. apply Hindep; by right. }
  { intros p Hp [Hp1%elem_of_list_to_set|Hpdone]%elem_of_union.
    - by apply (Hothers p).
    - by apply (Htodo p); [right|]. }
  exists (k1 + k2), (emitted1 ++ emitted2). split_and!.
  - by apply (pops_app heap [node] nodes).
  - apply ordered_app. by split.
  - intros x [Hx|Hx]%elem_of_app.
    + destruct (Hreach1 x Hx) as (y & Hy & Hrtc). exists y. set_solver.
    + destruct (Hreach2 x Hx) as (y & Hy & Hrtc). exists y. set_solver.
  - intros y [->|Hy]%elem_of_cons; [set_solver|].
    destruct (Hin2 y Hy); set_solver.
  - rewrite filter_app. change (node :: nodes) with ([node] ++ nodes). f_equal.
    + apply filter_only; [by eapply ordered_NoDup|done|by left|].
      intros y Hy [->|Hy']%elem_of_cons; [done|]. by destruct (Hothers y).
    + etrans; [|exact Hfilter]. apply filter_agree. intros x Hx. split.
      * intros [->|?]%elem_of_cons; [|done].
        apply (ordered_fresh heap _ _ _ Hord2) in Hx. set_solver.
      * intros ?. by right.
Qed.

(** A node that the loop inspects while it is not finalized. *)
Lemma inspect_missing_reversed heap node done :
  acyclic heap → node < length heap → node ∉ done →
  NoDup (filter (λ p, p ∉ done) (producers heap node)) →
  independent heap (filter (λ p, p ∉ done) (producers heap node)) →
  ∃ iterations emitted,
    pops heap [node] done iterations (emitted ++ [node]) ∧
    ordered heap done (emitted ++ [node]) ∧
    filter (λ x, x ∈ filter (λ p, p ∉ done) (producers heap node)) emitted
    = reverse (filter (λ p, p ∉ done) (producers heap node)).
Proof.
  intros Hacyclic Hlen Hdone Hnodup Hindep.
  destruct (lookup_lt_is_Some_2 heap node Hlen) as [o Ho].
  set (missing := filter (λ p, p ∉ done) (producers heap node)) in *.
  assert (Hready : ∀ emitted,
             (∀ p, p ∈ producers heap node →
                   p ∈ list_to_set (C := gset nat) emitted ∪ done) →
             node ∉ emitted → ordered heap done emitted →
             ordered heap done (emitted ++ [node])).
  { intros emitted Hall Hnew Hord. apply ordered_app. split; [done|].
    simpl. split_and!; [set_solver|done|done]. }
  destruct (decide (missing = [])) as [Hempty|Hnonempty].
  - exists 1, []. split_and!.
    + by apply (pops_ready heap node o).
    + apply Hready; [|by intros ?%elem_of_nil|done].
      intros p Hp. destruct (decide (p ∈ done)) as [?|Hp']; [set_solver|].
      assert (p ∈ missing) as Hmissing by (by apply list_elem_of_filter).
      rewrite Hempty in Hmissing. by apply elem_of_nil in Hmissing.
    + by rewrite Hempty.
  - destruct (visits_independent heap (reverse missing) done)
      as (k & emitted & Hrun & Hord & Hreach & Hin & Hfilter); [done| | | | |].
    { apply Forall_forall. intros p Hp.
      apply elem_of_reverse, list_elem_of_filter in Hp as [_ Hp].
      apply (producers_lt heap) in Hp; [lia|done]. }
    { by rewrite reverse_Permutation. }
    { intros p q Hp Hq Hne. rewrite elem_of_reverse in Hp, Hq.
      by apply (Hindep p q). }
    { intros p Hp. by apply elem_of_reverse, list_elem_of_filter in Hp as [? _]. }
    destruct (missing_visited heap node done emitted Hacyclic Hreach Hin)
      as (Hnew & Hbelow & Hall).
    exists (S (k + 1)), emitted. split_and!.
    + by apply (pops_deferred heap node o).
    + by apply Hready.
    + etrans; [|exact Hfilter]. apply filter_agree. intros x _.
      by rewrite elem_of_reverse.
Qed.

(** ** Duplicates among the terminal operands *)

Lemma unique_keep_last_subseteq rootNodes :
  unique_keep_last rootNodes ⊆ rootNodes.
Proof.
  induction rootNodes as [|root rootNodes IH]; [done|]. simpl.
  case_decide; set_solver.
Qed.

Lemma keep_last_pops heap rootNodes done :
  acyclic heap → Forall (terminal heap) rootNodes →
  ∃ k k' emitted,
    pops heap (reverse (omap mOperator rootNodes)) done k emitted ∧
    pops heap (reverse (omap mOperator (unique_keep_last rootNodes))) done k' emitted ∧
    ordered heap done emitted ∧
    (∀ a, a ∈ omap mOperator rootNodes → a ∈ done ∨ a ∈ emitted).
Proof.
  intros Hacyclic Hroots.
  induction Hroots as [|root rootNodes (a & Ha & Hlt) _ IH].
  { exists 0, 0, []. split_and!; [apply pops_nil|apply pops_nil|done|].
    by intros a ?%elem_of_nil. }
  destruct IH as (k & k' & emitted & Hrun & Hrun' & Hord & Hin).
  assert (Hcons : ∀ others, omap mOperator (root :: others) = a :: omap mOperator others).
  { intros others. simpl. by rewrite Ha. }
  rewrite Hcons, reverse_cons. simpl unique_keep_last.
  destruct (decide (mOperator root ∈ mOperator <$> rootNodes)) as [Hdup|Hfresh].
  - (* the operator of [root] is on the stack above already *)
    assert (a ∈ omap mOperator rootNodes) as Hseen.
    { apply list_elem_of_fmap in Hdup as (other & Hother & Hin').
      apply list_elem_of_omap. exists other. split; [done|congruence]. }
    exists (k + 1), k', emitted. split_and!; [|done|done|].
    + rewrite <- (app_nil_r emitted). apply pops_app; [done|].
      apply pops_done. destruct (Hin a Hseen); set_solver.
    + intros b [->|Hb]%elem_of_cons; [by apply Hin|by apply Hin].
  - destruct (visits_node heap a Hacyclic Hlt (list_to_set emitted ∪ done))
      as (k2 & emitted2 & Hrun2 & Hord2 & _ & Hin2).
    exists (k + k2), (k' + k2), (emitted ++ emitted2). split_and!.
    + by apply pops_app.
    + rewrite Hcons, reverse_cons. by apply pops_app.
    + apply ordered_app. by split.
    + intros b [->|Hb]%elem_of_cons.
      * destruct (Hin2 a); [by left|set_solver|set_solver].
      * destruct (Hin b Hb); set_solver.
Qed.

(** ** The sorter as a whole *)

Lemma roots_stack_from rootNodes (stack : list (option nat)) :
  foldl (λ stack node, mOperator node :: stack) stack rootNodes
  = reverse (mOperator <$> rootNodes) ++ stack.
Proof.
  revert stack. induction rootNodes as [|node rootNodes IH]; intros stack; [done|].
  simpl. rewrite IH, reverse_cons, <- app_assoc. done.
Qed.

Lemma TopologicalSort_unfold heap fuel rootNodes :
  TopologicalSort heap fuel rootNodes
  = TopologicalSort_loop heap fuel (reverse (mOperator <$> rootNodes)) ∅ [].
Proof. unfold TopologicalSort. by rewrite roots_stack_from, app_nil_r. Qed.

Lemma terminal_operators heap rootNodes :
  Forall (terminal heap) rootNodes →
  mOperator <$> rootNodes = Some <$> omap mOperator rootNodes ∧
  Forall (λ node, node < length heap) (omap mOperator rootNodes).
Proof.
  intros Hroots.
  induction Hroots as [|root rootNodes Hroot _ IH]; [done|].
  destruct Hroot as (address & Haddress & Hlt). destruct IH as [IH1 IH2].
  simpl. rewrite Haddress. simpl. split; [by f_equal|by constructor].
Qed.

Lemma visits_terminals heap rootNodes :
  acyclic heap → Forall (terminal heap) rootNodes →
  visits heap (reverse (omap mOperator rootNodes)).
Proof.
  intros Hacyclic [_ Hlt]%terminal_operators.
  apply (visits_Forall heap (length heap)).
  - intros node Hnode. by apply visits_node.
  - by apply Forall_reverse.
Qed.

(** More fuel does not change an outcome that was reached. *)
Lemma loop_fuel_mono heap fuel fuel' nodesToDo done result :
  fuel ≤ fuel' →
  TopologicalSort_loop heap fuel nodesToDo done result ≠ OutOfFuel →
  TopologicalSort_loop heap fuel' nodesToDo done result
  = TopologicalSort_loop heap fuel nodesToDo done result.
Proof.
  revert fuel' nodesToDo done result.
  induction fuel as [|fuel IH]; intros fuel' nodesToDo visited result Hle Hrun;
    [by destruct Hrun|].
  destruct fuel' as [|fuel']; [lia|].
  simpl in *. repeat case_match; try reflexivity; apply IH; (lia || assumption).
Qed.

(** Any two calls that end, with a result or in undefined behaviour, end
    the same way. *)
Lemma TopologicalSort_outcomes_agree heap rootNodes fuel1 fuel2 :
  TopologicalSort heap fuel1 rootNodes ≠ OutOfFuel →
  TopologicalSort heap fuel2 rootNodes ≠ OutOfFuel →
  TopologicalSort heap fuel1 rootNodes = TopologicalSort heap fuel2 rootNodes.
Proof.
  unfold TopologicalSort. intros Hrun1 Hrun2.
  destruct (Nat.le_ge_cases fuel1 fuel2) as [Hle|Hle].
  - symmetry. by apply loop_fuel_mono.
  - by apply loop_fuel_mono.
Qed.

(** ** The sorter on the same graph at other addresses *)

Lemma filter_fmap_agree {A B} (f : A → B) (P : B → Prop) (Q : A → Prop)
    `{!∀ y, Decision (P y)} `{!∀ x, Decision (Q x)} (l : list A) :
  (∀ x, x ∈ l → P (f x) ↔ Q x) → filter P (f <$> l) = f <$> filter Q l.
Proof.
  induction l as [|x l IH]; intros Hagree; [done|].
  rewrite fmap_cons, !filter_cons, IH by (intros y Hy; apply Hagree; by right).
  destruct (Hagree x) as [HPQ HQP]; [by left|].
  destruct (decide (P (f x))), (decide (Q x)); naive_solver.
Qed.

Lemma nodesDone_count_relocated (f : nat → nat) `{!Inj (=) (=) f} done p :
  nodesDone_count (set_map f done) (f <$> p) = nodesDone_count done p.
Proof.
  destruct p as [node|]; [|done]. simpl.
  destruct (decide (node ∈ done)) as [Hin|Hin].
  - rewrite decide_True; [done|]. apply elem_of_map. by exists node.
  - rewrite decide_False; [done|].
    intros (x & Hx & Hx')%elem_of_map. apply (inj f) in Hx. by subst.
Qed.

(** The loop on the relocated graph does, turn by turn, what it does on
    the graph: the set is only asked for membership, and pointers are
    only compared for equality and dereferenced. *)
Lemma loop_relocated (f : nat → nat) `{!Inj (=) (=) f} heap heap' fuel
    (nodesToDo : list (option nat)) done (result : list nat) :
  relocated f heap heap' →
  TopologicalSort_loop heap' fuel (fmap (M := list) (fmap (M := option) f) nodesToDo)
                       (set_map f done) (fmap (M := list) f result)
  = Outcome_map (fmap (M := list) f)
                (TopologicalSort_loop heap fuel nodesToDo done result).
Proof.
  intros Hrelocated. revert nodesToDo done result.
  induction fuel as [|fuel IH]; intros nodesToDo visited result; [done|].
  destruct nodesToDo as [|[node|] popped]; [done| |done].
  rewrite fmap_cons. change (f <$> Some node) with (Some (f node)).
  destruct (decide (node ∈ visited)) as [Hin|Hin].
  { rewrite !loop_done; [apply IH|done|]. apply elem_of_map. by exists node. }
  assert (f node ∉ (set_map f visited : gset nat)) as Hin'.
  { intros (x & Hx & Hx')%elem_of_map. apply (inj f) in Hx. by subst. }
  pose proof (Hrelocated node) as Hnode.
  destruct (heap !! node) as [o|] eqn:Ho; simpl in Hnode.
  2:{ simpl. rewrite (decide_False (P := node ∈ visited)) by done.
      rewrite (decide_False (P := f node ∈ _)) by done.
      rewrite !decide_True by done. by rewrite Ho, Hnode. }
  rewrite (loop_inspect heap' fuel (f node) (relocate f o)) by done.
  rewrite (loop_inspect heap fuel node o) by done.
  assert (filter (λ p, nodesDone_count (set_map f visited) p = 0)
            (mOperator <$> mInputs (relocate f o))
          = fmap f <$> filter (λ p, nodesDone_count visited p = 0)
                         (mOperator <$> mInputs o)) as Hmissing.
  { replace (mOperator <$> mInputs (relocate f o))
      with (fmap (M := option) f <$> (mOperator <$> mInputs o))
      by (simpl; by rewrite <- !list_fmap_compose).
    apply filter_fmap_agree. intros p _. by rewrite nodesDone_count_relocated. }
  cbv zeta. rewrite Hmissing.
  destruct (filter _ (mOperator <$> mInputs o)) as [|p missing] eqn:Hfilter.
  - rewrite !bool_decide_eq_true_2 by done.
    replace ({[f node]} ∪ set_map f visited : gset nat)
      with (set_map f ({[node]} ∪ visited) : gset nat) by set_solver.
    change [f node] with (f <$> [node]). rewrite <- fmap_app. apply IH.
  - rewrite !bool_decide_eq_false_2 by done.
    rewrite <- fmap_reverse.
    change (Some (f node) :: fmap (M := list) (fmap (M := option) f) popped)
      with (fmap (M := list) (fmap (M := option) f) (Some node :: popped)).
    rewrite <- fmap_app. apply IH.
Qed.

(** Claim C5.  Sorting the same graph twice yields the same operator
    order.  On every arena and every list of terminal operands, any two
    calls that end (whatever number of iterations each is given) end the
    same way; and the outcome does not depend on where the operators are
    stored: on the same graph laid out at other addresses the sorter does
    the same and returns the same operators, in the same order, at their
    new addresses (the set of finalized operators is only asked for
    membership, never iterated).  On an acyclic arena with terminal
    operands of the arena the calls do return: there is one sequence that
    every call with enough iterations returns. *)
Theorem TopologicalSort_deterministic heap rootNodes :
  (∀ fuel1 fuel2,
     TopologicalSort heap fuel1 rootNodes ≠ OutOfFuel →
     TopologicalSort heap fuel2 rootNodes ≠ OutOfFuel →
     TopologicalSort heap fuel1 rootNodes = TopologicalSort heap fuel2 rootNodes) ∧
  (∀ (f : nat → nat) heap' fuel,
     Inj (=) (=) f → relocated f heap heap' →
     TopologicalSort heap' fuel (relocate_operand f <$> rootNodes)
     = Outcome_map (fmap (M := list) f) (TopologicalSort heap fuel rootNodes)) ∧
  (acyclic heap → Forall (terminal heap) rootNodes →
   ∃ result enough, ∀ fuel1 fuel2, enough ≤ fuel1 → enough ≤ fuel2 →
     TopologicalSort heap fuel1 rootNodes = Returns result ∧
     TopologicalSort heap fuel2 rootNodes = Returns result).
Proof.
  split_and!.
  - intros fuel1 fuel2. apply TopologicalSort_outcomes_agree.
  - intros f heap' fuel Hinj Hrelocated. rewrite !TopologicalSort_unfold.
    rewrite <- (loop_relocated f heap heap') by done.
    rewrite set_map_empty, fmap_reverse. simpl. f_equal. f_equal.
    by rewrite <- !list_fmap_compose.
  - intros Hacyclic Hroots.
    destruct (visits_terminals heap rootNodes Hacyclic Hroots ∅)
      as (k & emitted & Hrun & _).
    destruct (terminal_operators heap rootNodes Hroots) as [Hops _].
    exists emitted, (S k).
    assert (∀ fuel, S k ≤ fuel → TopologicalSort heap fuel rootNodes = Returns emitted)
      as Hreturns.
    { intros fuel Hfuel. rewrite TopologicalSort_unfold, Hops, <- fmap_reverse.
      replace fuel with (k + S (fuel - S k)) by lia.
      specialize (Hrun [] [] (S (fuel - S k))). rewrite app_nil_r in Hrun.
      by rewrite Hrun. }
    intros fuel1 fuel2 Hfuel1 Hfuel2. split; by apply Hreturns.
Qed.

(** Claim C9, as the code has it.  On terminal operands with duplicates
    (two operands with the same producing operator) TopologicalSort
    returns the same sequence as on the list that keeps, of every group of
    duplicates, the operand listed last; the producing operator of every
    terminal operand, shared or not, appears exactly once in the result. *)
Theorem TopologicalSort_duplicates_keep_last heap rootNodes :
  acyclic heap → Forall (terminal heap) rootNodes →
  ∃ enough result,
    (∀ fuel, enough ≤ fuel →
       TopologicalSort heap fuel rootNodes = Returns result ∧
       TopologicalSort heap fuel (unique_keep_last rootNodes) = Returns result) ∧
    NoDup result ∧
    (∀ root address, root ∈ rootNodes → mOperator root = Some address →
       address ∈ result).
Proof.
  intros Hacyclic Hroots.
  destruct (keep_last_pops heap rootNodes ∅ Hacyclic Hroots)
    as (k & k' & emitted & Hrun & Hrun' & Hord & Hin).
  assert (Hkept : Forall (terminal heap) (unique_keep_last rootNodes)).
  { rewrite Forall_forall in Hroots. apply Forall_forall. intros root Hroot.
    by apply Hroots, unique_keep_last_subseteq. }
  destruct (terminal_operators heap rootNodes Hroots) as [Hops _].
  destruct (terminal_operators heap _ Hkept) as [Hops' _].
  exists (S (k + k')), emitted. split_and!; [|by eapply ordered_NoDup|].
  2:{ intros root address Hroot Haddress.
      destruct (Hin address) as [Hempty|?]; [|by apply not_elem_of_empty in Hempty|done].
      apply list_elem_of_omap. by exists root. }
  intros fuel Hfuel. rewrite !TopologicalSort_unfold, Hops, Hops', <- !fmap_reverse.
  split.
  - replace fuel with (k + S (fuel - S k)) by lia.
    specialize (Hrun [] [] (S (fuel - S k))). rewrite app_nil_r in Hrun.
    by rewrite Hrun.
  - replace fuel with (k' + S (fuel - S k')) by lia.
    specialize (Hrun' [] [] (S (fuel - S k'))). rewrite app_nil_r in Hrun'.
    by rewrite Hrun'.
Qed.

Lemma filter_all {A} (P : A → Prop) `{!∀ x, Decision (P x)} (l : list A) :
  (∀ x, x ∈ l → P x) → filter P l = l.
Proof.
  induction l as [|x l IH]; intros Hall; [done|].
  rewrite filter_cons, decide_True by (apply Hall; by left).
  f_equal. apply IH. intros y Hy. apply Hall. by right.
Qed.

(** The operator of the terminal operand listed last is inspected first,
    with nothing finalized. *)
Lemma last_root_producers_reversed heap rootNodes root node :
  acyclic heap → Forall (terminal heap) rootNodes →
  mOperator root = Some node → node < length heap →
  NoDup (producers heap node) → independent heap (producers heap node) →
  ∃ enough result,
    (∀ fuel, enough ≤ fuel →
       TopologicalSort heap fuel (rootNodes ++ [root]) = Returns result) ∧
    filter (λ x, x ∈ producers heap node) result = reverse (producers heap node).
Proof.
  intros Hacyclic Hroots Hroot Hlen Hnodup Hindependent.
  pose proof (inspect_missing_reversed heap node ∅ Hacyclic Hlen) as Hinspect.
  rewrite filter_all in Hinspect by (intros p _; apply not_elem_of_empty).
  destruct Hinspect as (k1 & emitted1 & Hrun1 & Hord1 & Hfilter1);
    [apply not_elem_of_empty|done|done|].
  destruct (visits_terminals heap rootNodes Hacyclic Hroots
              (list_to_set (emitted1 ++ [node]) ∪ ∅))
    as (k2 & emitted2 & Hrun2 & Hord2 & _).
  destruct (terminal_operators heap rootNodes Hroots) as [Hops _].
  exists (S (k1 + k2)), ((emitted1 ++ [node]) ++ emitted2). split.
  - intros fuel Hfuel.
    rewrite TopologicalSort_unfold, fmap_app, reverse_app, Hops.
    simpl. rewrite Hroot, <- fmap_reverse.
    replace fuel with (k1 + (k2 + S (fuel - S (k1 + k2)))) by lia.
    specialize (Hrun1 (Some <$> reverse (omap mOperator rootNodes)) []
                  (k2 + S (fuel - S (k1 + k2)))).
    simpl in Hrun1. rewrite Hrun1.
    specialize (Hrun2 [] (emitted1 ++ [node]) (S (fuel - S (k1 + k2)))).
    rewrite app_nil_r in Hrun2. by rewrite Hrun2.
  - assert (∀ p, p ∈ producers heap node → p ∈ emitted1) as Hin.
    { intros p Hp. apply elem_of_reverse in Hp. rewrite <- Hfilter1 in Hp.
      by apply list_elem_of_filter in Hp as [_ ?]. }
    rewrite !filter_app, Hfilter1.
    rewrite (filter_none _ [node]), (filter_none _ emitted2).
    + by rewrite !app_nil_r.
    + intros x Hx Hp. apply (ordered_fresh heap _ _ _ Hord2) in Hx.
      apply Hx. apply elem_of_union. left. apply elem_of_list_to_set, elem_of_app.
      left. by apply Hin.
    + intros x ->%list_elem_of_singleton Hp.
      apply (producers_lt heap) in Hp; [lia|done].
Qed.

(** Claim C4, as the code has it.  Whenever the loop of TopologicalSort
    inspects a node that is not finalized, the producers of its inputs
    that are not finalized yet, when they are distinct and pairwise
    independent, are appended to the output in the REVERSE of the order in
    which Inputs() lists them (the last one listed is pushed last and
    popped first), and the node itself right after what their visits
    append; the loop gets there after finitely many iterations, whatever
    else is on the stack.  So for the operator of the terminal operand
    listed last, which is inspected first: its producers stand in the
    sequence TopologicalSort returns in the reverse of the order of
    Inputs(). *)
Theorem TopologicalSort_missing_producers_reversed heap :
  acyclic heap →
  (∀ node done,
     node < length heap → node ∉ done →
     NoDup (filter (λ p, p ∉ done) (producers heap node)) →
     independent heap (filter (λ p, p ∉ done) (producers heap node)) →
     ∃ iterations emitted,
       pops heap [node] done iterations (emitted ++ [node]) ∧
       ordered heap done (emitted ++ [node]) ∧
       filter (λ x, x ∈ filter (λ p, p ∉ done) (producers heap node)) emitted
       = reverse (filter (λ p, p ∉ done) (producers heap node))) ∧
  (∀ rootNodes root node,
     Forall (terminal heap) rootNodes →
     mOperator root = Some node → node < length heap →
     NoDup (producers heap node) → independent heap (producers heap node) →
     ∃ enough result,
       (∀ fuel, enough ≤ fuel →
          TopologicalSort heap fuel (rootNodes ++ [root]) = Returns result) ∧
       filter (λ x, x ∈ producers heap node) result = reverse (producers heap node)).
Proof.
  intros Hacyclic. split.
  - intros node done. by apply inspect_missing_reversed.
  - intros rootNodes root node. by apply last_root_producers_reversed.
Qed.

(** The sorter on an acyclic arena: it returns, and what it returns is
    [ordered] and holds exactly the reachable operators. *)
Lemma TopologicalSort_acyclic heap rootNodes :
  acyclic heap → Forall (terminal heap) rootNodes →
  ∃ iterations result,
    (∀ fuel, iterations < fuel → TopologicalSort heap fuel rootNodes = Returns result) ∧
    ordered heap ∅ result ∧
    (∀ node, node ∈ result ↔ reachable heap rootNodes node).
Proof.
  intros Hacyclic Hroots.
  destruct (visits_terminals heap rootNodes Hacyclic Hroots ∅)
    as (k & emitted & Hrun & Hord & Hreach & Hin).
  destruct (terminal_operators heap rootNodes Hroots) as [Hops _].
  exists k, emitted. split_and!; [|done|].
  - intros fuel Hfuel. rewrite TopologicalSort_unfold, Hops, <- fmap_reverse.
    replace fuel with (k + S (fuel - S k)) by lia.
    specialize (Hrun [] [] (S (fuel - S k))). rewrite app_nil_r in Hrun.
    by rewrite Hrun.
  - intros node. split.
    + intros Hnode. destruct (Hreach node Hnode) as (first & Hfirst & Hrtc).
      apply elem_of_reverse, list_elem_of_omap in Hfirst as (root & Hroot & Hop).
      by exists root, first.
    + intros (root & first & Hroot & Hop & Hrtc).
      apply (ordered_closed heap emitted first); [done| |done].
      destruct (Hin first) as [Hempty|?]; [|by apply not_elem_of_empty in Hempty|done].
      apply elem_of_reverse, list_elem_of_omap. by exists root.
Qed.

(** ** The sorter and the rest of the arena *)

Lemma loop_ignores_later heap more fuel nodesToDo done result :
  acyclic heap →
  Forall (λ p, ∀ node, p = Some node → node < length heap) nodesToDo →
  TopologicalSort_loop (heap ++ more) fuel nodesToDo done result
  = TopologicalSort_loop heap fuel nodesToDo done result.
Proof.
  intros Hacyclic. revert nodesToDo done result.
  induction fuel as [|fuel IH]; intros nodesToDo visited result Hstack; [done|].
  destruct nodesToDo as [|[node|] popped]; [done| |done].
  apply Forall_cons in Hstack as [Hnode Hpopped].
  specialize (Hnode node eq_refl).
  destruct (decide (node ∈ visited)) as [Hin|Hin].
  { rewrite !loop_done by done. by apply IH. }
  destruct (lookup_lt_is_Some_2 heap node Hnode) as [o Ho].
  rewrite (loop_inspect (heap ++ more) fuel node o) by (by rewrite ?lookup_app_l).
  rewrite (loop_inspect heap fuel node o) by done.
  simpl. case_bool_decide; [by apply IH|].
  apply IH. apply Forall_app. split; [|by constructor; [intros ? [= <-]|]].
  apply Forall_forall. intros p Hp node' ->.
  apply elem_of_reverse, list_elem_of_filter in Hp as [_ Hp].
  rewrite (acyclic_inputs heap node o) in Hp by done.
  apply list_elem_of_fmap in Hp as (p & [= <-] & Hp).
  apply (producers_lt heap) in Hp; [lia|done].
Qed.

(** Operators stored behind the arena do not change what the sorter
    returns for terminal operands of the arena: the sequence for an
    operand stays the same however many operators are constructed after
    it. *)
Theorem TopologicalSort_ignores_later_operators heap more rootNodes fuel :
  acyclic heap → Forall (terminal heap) rootNodes →
  TopologicalSort (heap ++ more) fuel rootNodes = TopologicalSort heap fuel rootNodes.
Proof.
  intros Hacyclic Hroots. rewrite !TopologicalSort_unfold.
  apply loop_ignores_later; [done|].
  destruct (terminal_operators heap rootNodes Hroots) as [-> Hlt].
  rewrite <- fmap_reverse. apply Forall_fmap, Forall_reverse.
  eapply Forall_impl; [exact Hlt|]. by intros node Hnode ? [= <-].
Qed.

(** ** The sorter on a cycle *)

Lemma loop_cycle heap (cycle : gset nat) fuel nodesToDo done result :
  feeds_itself heap cycle →
  (∀ node, node ∈ cycle → node ∉ done) →
  (∃ node, node ∈ cycle ∧ Some node ∈ nodesToDo) →
  ∀ sorted, TopologicalSort_loop heap fuel nodesToDo done result ≠ Returns sorted.
Proof.
  intros Hcycle. revert nodesToDo done result.
  induction fuel as [|fuel IH]; intros nodesToDo visited result Hfresh Hstack sorted;
    [done|].
  destruct Hstack as (member & Hmember & Hin).
  destruct nodesToDo as [|[node|] popped];
    [by apply elem_of_nil in Hin| |by rewrite loop_null].
  destruct (decide (node ∈ visited)) as [Hnode|Hnode].
  { rewrite loop_done by done. apply IH; [done|]. exists member. split; [done|].
    apply elem_of_cons in Hin as [[= ->]|Hin]; [|done]. by apply Hfresh in Hmember. }
  destruct (heap !! node) as [o|] eqn:Ho.
  2:{ simpl. rewrite (decide_False (P := node ∈ visited)) by done.
      rewrite decide_True by done. by rewrite Ho. }
  rewrite (loop_inspect heap fuel node o) by done. simpl.
  case_bool_decide as Hmissing.
  - assert (node ∉ cycle) as Hout.
    { intros Hnode'. destruct (Hcycle node Hnode') as (p & Hp & Hp').
      unfold producers in Hp. rewrite Ho in Hp.
      apply list_elem_of_omap in Hp as (input & Hinput & Hoperator).
      assert (Some p ∈ filter (λ q, nodesDone_count visited q = 0)
                        (mOperator <$> mInputs o)) as Hfound.
      { apply list_elem_of_filter. split.
        - simpl. rewrite decide_False; [done|]. by apply Hfresh.
        - apply list_elem_of_fmap. by exists input. }
      rewrite Hmissing in Hfound. by apply elem_of_nil in Hfound. }
    apply IH.
    + intros x Hx [->%elem_of_singleton|Hx']%elem_of_union; [done|].
      by apply (Hfresh x).
    + exists member. split; [done|].
      apply elem_of_cons in Hin as [[= ->]|Hin]; done.
  - apply IH; [done|]. exists member. split; [done|].
    apply elem_of_app. by right.
Qed.

(** On a graph with a cycle the sorter does not return: when the producing
    operator of a terminal operand lies in a set of operators each of
    which consumes an output of one of them, no number of iterations of
    the loop ends with a result.  The loop has no test for a node that is
    already on the stack. *)
Theorem TopologicalSort_cycle_never_returns heap (cycle : gset nat) rootNodes root node :
  feeds_itself heap cycle →
  root ∈ rootNodes → mOperator root = Some node → node ∈ cycle →
  ∀ fuel sorted, TopologicalSort heap fuel rootNodes ≠ Returns sorted.
Proof.
  intros Hcycle Hroot Hoperator Hnode fuel sorted. rewrite TopologicalSort_unfold.
  apply (loop_cycle heap cycle); [done|by intros x _ ?%not_elem_of_empty|].
  exists node. split; [done|].
  apply elem_of_reverse, list_elem_of_fmap. by exists root.
Qed.

(** ** The order of the terminal operands *)

Lemma reachable_Permutation heap rootNodes rootNodes' node :
  rootNodes ≡ₚ rootNodes' → reachable heap rootNodes node →
  reachable heap rootNodes' node.
Proof.
  intros Hperm (root & first & Hroot & Hoperator & Hreach).
  exists root, first. split; [|done]. by rewrite <- Hperm.
Qed.

(** Listing the terminal operands in another order changes the sequence
    the sorter returns by a permutation only: both calls return, the two
    sequences hold the same operators, namely those reachable from the
    terminal operands, and each sequence holds every operator once. *)
Theorem TopologicalSort_roots_permutation heap rootNodes rootNodes' :
  acyclic heap → Forall (terminal heap) rootNodes → rootNodes ≡ₚ rootNodes' →
  ∃ enough result result',
    (∀ fuel, enough ≤ fuel →
       TopologicalSort heap fuel rootNodes = Returns result ∧
       TopologicalSort heap fuel rootNodes' = Returns result') ∧
    result ≡ₚ result' ∧ NoDup result ∧ NoDup result' ∧
    (∀ node, node ∈ result ↔ reachable heap rootNodes node).
Proof.
  intros Hacyclic Hroots Hperm.
  assert (Forall (terminal heap) rootNodes') as Hroots' by (by rewrite <- Hperm).
  destruct (TopologicalSort_acyclic heap rootNodes Hacyclic Hroots)
    as (k & result & Hrun & Hord & Hreach).
  destruct (TopologicalSort_acyclic heap rootNodes' Hacyclic Hroots')
    as (k' & result' & Hrun' & Hord' & Hreach').
  exists (S (k + k')), result, result'.
  split_and!.
  - intros fuel Hfuel. split; [apply Hrun|apply Hrun']; lia.
  - apply NoDup_Permutation; [by eapply ordered_NoDup..|].
    intros node. rewrite Hreach, Hreach'.
    split; apply reachable_Permutation; [done|by symmetry].
  - by eapply ordered_NoDup.
  - by eapply ordered_NoDup.
  - done.
Qed.


(** Whatever number of iterations it is given, the sorter on an acyclic
    arena returns nothing but the [ordered] sequence of the reachable
    operators. *)
Lemma TopologicalSort_Returns_acyclic heap rootNodes fuel sorted :
  acyclic heap → Forall (terminal heap) rootNodes →
  TopologicalSort heap fuel rootNodes = Returns sorted →
  ordered heap ∅ sorted ∧ (∀ node, node ∈ sorted ↔ reachable heap rootNodes node).
Proof.
  intros Hacyclic Hroots Hsorted.
  destruct (TopologicalSort_acyclic heap rootNodes Hacyclic Hroots)
    as (k & result & Hrun & Hord & Hreach).
  assert (result = sorted) as <-; [|done].
  destruct (decide (k < fuel)) as [Hlt|Hge].
  - rewrite (Hrun fuel Hlt) in Hsorted. by injection Hsorted.
  - specialize (Hrun (S k) (Nat.lt_succ_diag_r k)).
    unfold TopologicalSort in Hrun, Hsorted.
    rewrite (loop_fuel_mono heap fuel (S k)) in Hrun; [congruence|lia|].
    by rewrite Hsorted.
Qed.


End Sorter.

Section Builder.

Context {Attrs : Type} `{!@ConcreteOperators Attrs}.
Implicit Types (heap : list (@OperatorBase Attrs)) (this : @GraphBuilderBase Attrs).
Implicit Types (o : @OperatorBase Attrs) (class : @OperatorClass Attrs).
Implicit Types (inputs : list OperandBase).

(** ** Validation *)

Lemma OperatorBase_Validate_Success o :
  OperatorBase_Validate o = Success ↔
  ∀ input, input ∈ mInputs o → IsError input = false.
Proof.
  unfold OperatorBase_Validate.
  destruct (forallb _ _) eqn:Hall.
  - split; [|done]. intros _ input Hin.
    rewrite forallb_forall in Hall. apply list_elem_of_In, Hall in Hin.
    by apply negb_true_iff in Hin.
  - split; [done|]. intros Hok. exfalso.
    apply not_true_iff_false in Hall. apply Hall, forallb_forall.
    intros input Hin%list_elem_of_In. apply negb_true_iff. by apply Hok.
Qed.

(** Validation that is not consumed as an error has passed the base
    validation. *)
Lemma Validate_passed o maybeError :
  Validate o = Returns maybeError → ConsumedError maybeError = false →
  OperatorBase_Validate o = Success.
Proof.
  unfold Validate, Concrete_Validate, Unary_Validate, ConsumedError.
  destruct (OperatorBase_Validate o) as [|message] eqn:Hbase; [done|].
  simpl. intros Hrun Herror.
  destruct (opClass o); simpl in Hrun; injection Hrun as <-; done.
Qed.

(** An operator with an error operand among its inputs fails validation. *)
Lemma Validate_poisoned o input :
  input ∈ mInputs o → IsError input = true →
  ∃ maybeError, Validate o = Returns maybeError ∧ ConsumedError maybeError = true.
Proof.
  intros Hin Herror.
  assert (OperatorBase_Validate o ≠ Success) as Hbase.
  { intros Hok. rewrite OperatorBase_Validate_Success in Hok.
    specialize (Hok input Hin). congruence. }
  unfold Validate, Concrete_Validate, Unary_Validate.
  destruct (OperatorBase_Validate o) as [|message] eqn:Hvalidate; [done|].
  exists (ValidationError message). by destruct (opClass o).
Qed.

Lemma validated_inputs o : mInputs (validated o) = mInputs o.
Proof. unfold validated. by destruct (opClass o). Qed.

Lemma validated_class o : opClass (validated o) = opClass o.
Proof. unfold validated. destruct (opClass o) eqn:Hclass; simpl; congruence. Qed.

Lemma validated_error o : operator_error (validated o) = operator_error o.
Proof. unfold validated. by destruct (opClass o). Qed.

Lemma SetTypeAndRank_keeps attributes output :
  operand_error (SetTypeAndRank attributes output) = operand_error output ∧
  mOperator (SetTypeAndRank attributes output) = mOperator output.
Proof. by destruct attributes as [[??]|]. Qed.

Lemma validated_outputs o output :
  output ∈ mOutputs (validated o) →
  ∃ constructed, constructed ∈ mOutputs o ∧
    operand_error output = operand_error constructed ∧
    mOperator output = mOperator constructed.
Proof.
  assert (output ∈ mOutputs o → ∃ constructed, constructed ∈ mOutputs o ∧
    operand_error output = operand_error constructed ∧
    mOperator output = mOperator constructed) as Hsame by (intros ?; by exists output).
  unfold validated. destruct (opClass o); try exact Hsame; simpl;
    (intros (i & constructed & -> & Hlookup)%elem_of_lookup_imap;
     exists constructed; split; [by eapply list_elem_of_lookup_2|];
     apply SetTypeAndRank_keeps).
Qed.

Lemma OperandBase_new_operator address o :
  operand_error (OperandBase_new address o) = false ∧
  mOperator (OperandBase_new address o) = Some address.
Proof. unfold OperandBase_new. by repeat case_match. Qed.

Lemma OperatorBase_new_outputs address class inputs outputSize output :
  output ∈ mOutputs (validated (OperatorBase_new address class inputs outputSize)) →
  IsError output = false ∧ mOperator output = Some address.
Proof.
  intros (constructed & Hin & Herror & Hoperator)%validated_outputs.
  unfold IsError, OperandBase_ObjectBase. rewrite Herror, Hoperator.
  apply elem_of_replicate in Hin as [-> _]. apply OperandBase_new_operator.
Qed.

(** ** The arena stays well formed *)

Lemma well_formed_acyclic heap : well_formed heap → acyclic heap.
Proof.
  intros Hwf address o input Ho Hin.
  destruct (Hwf address o Ho) as [Hinputs _]. by apply Hinputs.
Qed.

Lemma handed_out_terminal this operand :
  well_formed (operators this) → handed_out this operand → IsError operand = false →
  terminal (operators this) operand.
Proof.
  intros Hwf [->|(address & o & Ho & Hin)] Hok; [done|].
  exists address. split.
  - destruct (Hwf address o Ho) as [_ Houtputs]. by apply Houtputs.
  - by eapply lookup_lt_Some.
Qed.

Lemma handed_out_store this o operand :
  handed_out this operand → handed_out (store this o) operand.
Proof.
  intros [?|(address & o' & Ho & Hin)]; [by left|right].
  exists address, o'. split; [|done]. simpl. by apply lookup_app_l_Some.
Qed.

Lemma well_formed_store this o :
  well_formed (operators this) →
  (∀ input, input ∈ mInputs o → IsError input = false ∧ handed_out this input) →
  (∀ output, output ∈ mOutputs o →
     IsError output = false ∧ mOperator output = Some (length (operators this))) →
  well_formed (operators (store this o)).
Proof.
  intros Hwf Hinputs Houtputs address o' Ho'. simpl in Ho'.
  apply lookup_app_Some in Ho' as [Ho'|[Hlen Ho']]; [by apply Hwf|].
  apply list_lookup_singleton_Some in Ho' as [Haddress <-].
  assert (address = length (operators this)) as -> by lia. split; [|done].
  intros input Hin. destruct (Hinputs input Hin) as [Hok Hout]. split; [done|].
  destruct (handed_out_terminal this input Hwf Hout Hok) as (producer & ? & ?).
  by exists producer.
Qed.

Lemma bind_Returns {A B} (m : Outcome A) (f : A → Outcome B) (b : B) :
  (m ≫= f) = Returns b ↔ ∃ a, m = Returns a ∧ f a = Returns b.
Proof.
  destruct m as [a| |]; simpl; split; try done.
  - intros Hf. by exists a.
  - by intros (a' & [= <-] & Hf).
  - by intros (a' & ? & _).
  - by intros (a' & ? & _).
Qed.

Lemma DAWN_VALIDATE_Returns this (ptr : nat → OperatorBase) checked :
  DAWN_VALIDATE this ptr = Returns checked →
  ∃ maybeError,
    Validate (ptr (length (operators this))) = Returns maybeError ∧
    checked = if ConsumedError maybeError then None
              else Some (length (operators this),
                         validated (ptr (length (operators this))),
                         store this (validated (ptr (length (operators this))))).
Proof.
  unfold DAWN_VALIDATE. intros (maybeError & Hvalidate & Hchecked)%bind_Returns.
  exists maybeError. split; [done|].
  destruct (ConsumedError maybeError); by injection Hchecked as <-.
Qed.

(** An operator made by [new] from operands the client holds enters a
    well-formed arena only with inputs free of errors, and leaves the
    arena well formed. *)
Lemma DAWN_VALIDATE_new this class inputs outputSize address o this' :
  well_formed (operators this) → Forall (handed_out this) inputs →
  DAWN_VALIDATE this (λ p, OperatorBase_new p class inputs outputSize)
  = Returns (Some (address, o, this')) →
  address = length (operators this) ∧
  o = validated (OperatorBase_new address class inputs outputSize) ∧
  this' = store this o ∧
  well_formed (operators this') ∧
  (∀ input, input ∈ inputs → IsError input = false).
Proof.
  intros Hwf Hinputs (maybeError & Hvalidate & Hchecked)%DAWN_VALIDATE_Returns.
  destruct (ConsumedError maybeError) eqn:Herror; [done|].
  injection Hchecked as -> -> ->.
  pose proof (Validate_passed _ _ Hvalidate Herror) as Hbase.
  rewrite OperatorBase_Validate_Success in Hbase. simpl in Hbase.
  split_and!; [done..| |done].
  apply well_formed_store; [done| |].
  - intros input Hin. rewrite validated_inputs in Hin. simpl in Hin.
    split; [by apply Hbase|]. rewrite Forall_forall in Hinputs. by apply Hinputs.
  - apply OperatorBase_new_outputs.
Qed.

Lemma DAWN_VALIDATE_fused this class fusedOperator address o this' :
  well_formed (operators this) →
  DAWN_VALIDATE this (λ _, OperatorBase_newFused class fusedOperator)
  = Returns (Some (address, o, this')) →
  well_formed (operators this').
Proof.
  intros Hwf (maybeError & Hvalidate & Hchecked)%DAWN_VALIDATE_Returns.
  destruct (ConsumedError maybeError) eqn:Herror; [done|].
  injection Hchecked as -> -> ->.
  apply well_formed_store; [done| |].
  - intros input Hin. rewrite validated_inputs in Hin. by apply elem_of_nil in Hin.
  - intros output (constructed & Hin & _)%validated_outputs.
    by apply elem_of_nil in Hin.
Qed.

Lemma PrimaryOutput_Returns o output :
  PrimaryOutput o = Returns output → output ∈ mOutputs o.
Proof.
  unfold PrimaryOutput. destruct (mOutputs o !! 0) eqn:Hlookup; [|done].
  intros [= <-]. by eapply list_elem_of_lookup_2.
Qed.

Lemma handed_out_stored this o output :
  output ∈ mOutputs o → handed_out (store this o) output.
Proof.
  intros Hin. right. exists (length (operators this)), o. split; [|done].
  simpl. rewrite lookup_app_r by done. by rewrite Nat.sub_diag.
Qed.

Lemma VALIDATE_FOR_OPERAND_new this class inputs outputSize output this' :
  well_formed (operators this) → Forall (handed_out this) inputs →
  VALIDATE_FOR_OPERAND this (λ p, OperatorBase_new p class inputs outputSize)
  = Returns (output, this') →
  well_formed (operators this') ∧ handed_out this' output.
Proof.
  intros Hwf Hinputs. unfold VALIDATE_FOR_OPERAND.
  intros ([[[address o] this'']|] & Hchecked & Hresult)%bind_Returns.
  - apply bind_Returns in Hresult as (primary & Hprimary & [= -> ->]).
    apply DAWN_VALIDATE_new in Hchecked as (-> & _ & -> & Hwf' & _); [|done..].
    split; [done|]. by apply handed_out_stored, PrimaryOutput_Returns.
  - injection Hresult as <- <-. split; [done|by left].
Qed.

Lemma VALIDATE_ARRAY_OPERAND_new this class inputs outputSize array this' :
  well_formed (operators this) → Forall (handed_out this) inputs →
  VALIDATE_ARRAY_OPERAND this (λ p, OperatorBase_new p class inputs outputSize)
  = Returns (array, this') →
  well_formed (operators this') ∧ Forall (handed_out this') (mOperands array).
Proof.
  intros Hwf Hinputs. unfold VALIDATE_ARRAY_OPERAND.
  intros ([[[address o] this'']|] & Hchecked & Hresult)%bind_Returns.
  - injection Hresult as <- <-.
    apply DAWN_VALIDATE_new in Hchecked as (-> & _ & -> & Hwf' & _); [|done..].
    split; [done|]. apply Forall_forall. intros output Hin. by apply handed_out_stored.
  - injection Hresult as <- <-. split; [done|]. constructor.
Qed.

Lemma VALIDATE_FUSED_OPERATOR_new this class fusedOperator address this' :
  well_formed (operators this) →
  VALIDATE_FUSED_OPERATOR this (λ _, OperatorBase_newFused class fusedOperator)
  = Returns (address, this') →
  well_formed (operators this').
Proof.
  intros Hwf. unfold VALIDATE_FUSED_OPERATOR.
  intros ([[[address' o] this'']|] & Hchecked & Hresult)%bind_Returns.
  - injection Hresult as <- <-. by eapply DAWN_VALIDATE_fused.
  - injection Hresult as <- <-. apply well_formed_store; [done| |].
    + by intros input ?%elem_of_nil.
    + by intros output ?%elem_of_nil.
Qed.

Lemma with_explicit_clamp_new this options class inputs output this' :
  well_formed (operators this) → Forall (handed_out this) inputs →
  with_explicit_clamp this options (λ p, OperatorBase_new p class inputs 1)
  = Returns (output, this') →
  well_formed (operators this') ∧ handed_out this' output.
Proof.
  intros Hwf Hinputs. unfold with_explicit_clamp.
  destruct (options ≫= activation) as [activation_|];
    [|by apply VALIDATE_FOR_OPERAND_new].
  intros (operatorType & _ & Hrun)%bind_Returns.
  destruct (decide (operatorType = FusedOperator.Clamp));
    [|by apply VALIDATE_FOR_OPERAND_new in Hrun].
  apply bind_Returns in Hrun as ([[[address o] this'']|] & Hchecked & Hrun).
  - apply bind_Returns in Hrun as (clampOptions & _ & Hrun).
    apply bind_Returns in Hrun as (primary & Hprimary & Hrun).
    apply DAWN_VALIDATE_new in Hchecked as (-> & _ & -> & Hwf' & _); [|done..].
    apply VALIDATE_FOR_OPERAND_new in Hrun; [done..|].
    constructor; [|done]. by apply handed_out_stored, PrimaryOutput_Returns.
  - injection Hrun as <- <-. split; [done|by left].
Qed.

Lemma Conv2d_unfold this input filter options :
  Conv2d this input filter options
  = with_explicit_clamp this options (λ p, new_Conv2d p input filter options).
Proof. reflexivity. Qed.

Lemma BatchNorm_unfold this input mean variance options :
  BatchNorm this input mean variance options
  = with_explicit_clamp this options
      (λ p, new_BatchNorm p input mean variance options).
Proof. reflexivity. Qed.

Ltac unfold_entry_points H :=
  try rewrite Conv2d_unfold in H; try rewrite BatchNorm_unfold in H;
  unfold Constant, Input, Matmul, Add, Div, Mul, Sub, Max, Min, Pow,
    AveragePool2d, MaxPool2d, ReduceMean, Relu, ReluOperator, HardSwish,
    HardSwishOperator, Resample, Reshape, Sigmoid, SigmoidOperator, Softmax, Split,
    Squeeze, Tanh, Transpose, LeakyRelu, LeakyReluOperator, Gemm, Clamp,
    ClampOperator, Pad, InstanceNorm in H;
  unfold new_Constant, new_Input, new_Binary, new_Conv2d, new_Pool2d, new_ReduceMean,
    new_Unary, new_Unary_fused, new_Resample, new_Reshape, new_Split, new_Squeeze,
    new_Transpose, new_LeakyRelu, new_LeakyRelu_fused, new_Concat, new_Gemm,
    new_Clamp, new_Clamp_fused, new_BatchNorm, new_Pad, new_InstanceNorm in H.

(** Every public construction call keeps the arena well formed and hands
    out operands of the arena or error sentinels. *)
Lemma run_well_formed call this results this' :
  well_formed (operators this) → Forall (handed_out this) (arguments call) →
  run call this = Returns (results, this') →
  well_formed (operators this') ∧ Forall (handed_out this') results.
Proof.
  intros Hwf Harguments Hrun.
  destruct call; unfold run in Hrun; unfold arguments in Harguments;
    unfold operand_result, operator_result, array_result in Hrun;
    apply bind_Returns in Hrun as ([returned this''] & Hrun & [= <- <-]);
    simpl; unfold_entry_points Hrun;
    try (apply VALIDATE_FOR_OPERAND_new in Hrun as [? ?];
         [split; [done|by apply Forall_singleton]|done..]);
    try (apply VALIDATE_FUSED_OPERATOR_new in Hrun; [split; [done|constructor]|done]);
    try (apply with_explicit_clamp_new in Hrun as [? ?];
         [split; [done|by apply Forall_singleton]|done..]).
  - by apply VALIDATE_ARRAY_OPERAND_new in Hrun.
  - unfold Concat in Hrun. case_decide; [|done]. unfold_entry_points Hrun.
    apply VALIDATE_FOR_OPERAND_new in Hrun as [? ?];
      [split; [done|by apply Forall_singleton]|done..].
Qed.

Lemma Built_well_formed this : Built this → well_formed (operators this).
Proof.
  induction 1 as [error|this call results this' _ IH Harguments Hrun].
  - intros address o Ho. simpl in Ho. by rewrite lookup_nil in Ho.
  - by apply (run_well_formed call this results this').
Qed.


(** ** The sorter on a graph built through the public calls *)

(** Claim C1.  On the arena of a builder reached through the public
    construction calls, and terminal operands that the builder handed out
    and that are no error sentinels, TopologicalSort returns (for every
    large enough bound on the iterations of its loop) a sequence in which
    every operator stands strictly after the producers of all its inputs,
    no operator occurs twice, and the operators that occur are exactly
    those reachable from the terminal operands. *)
Theorem TopologicalSort_topological this rootNodes :
  Built this →
  Forall (λ root, IsError root = false ∧ handed_out this root) rootNodes →
  ∃ result,
    (∃ enough, ∀ fuel, enough ≤ fuel →
       TopologicalSort (operators this) fuel rootNodes = Returns result) ∧
    (∀ i node p, result !! i = Some node → p ∈ producers (operators this) node →
       ∃ j, j < i ∧ result !! j = Some p) ∧
    NoDup result ∧
    (∀ node, reachable (operators this) rootNodes node ↔ node ∈ result).
Proof.
  intros Hwf%Built_well_formed Hroots.
  assert (Forall (terminal (operators this)) rootNodes) as Hterminal.
  { eapply Forall_impl; [exact Hroots|]. intros root [Hok Hout].
    by apply handed_out_terminal. }
  destruct (TopologicalSort_acyclic (operators this) rootNodes)
    as (k & result & Hrun & Hord & Hreach); [by apply well_formed_acyclic|done|].
  exists result. split_and!.
  - exists (S k). intros fuel Hfuel. apply Hrun. lia.
  - intros i node p Hi Hp.
    destruct (ordered_lookup _ _ _ _ _ _ Hord Hi Hp) as [Hempty|?]; [|done].
    by apply not_elem_of_empty in Hempty.
  - by eapply ordered_NoDup.
  - intros node. by rewrite Hreach.
Qed.


(** ** Default type and rank of an output (Operand.cpp) *)

Lemma OperandBase_new_primaryInput address o :
  1 ≤ length (mInputs o) →
  ∃ primaryInput,
    mInputs o !! 0 = Some primaryInput ∧
    mType (OperandBase_new address o) = mType primaryInput ∧
    mRank (OperandBase_new address o) = mRank primaryInput.
Proof.
  intros Hlen. unfold OperandBase_new. rewrite decide_True by done.
  destruct (mInputs o) as [|primaryInput rest]; [simpl in Hlen; lia|].
  by exists primaryInput.
Qed.

(** An entry point for a unary operator hands out an operand with the
    type and rank of its argument. *)
Lemma new_Unary_output this opType input output this' :
  VALIDATE_FOR_OPERAND this (λ p, new_Unary p opType input) = Returns (output, this') →
  IsError output = false →
  mType output = mType input ∧ mRank output = mRank input ∧
  mOperator output = Some (length (operators this)).
Proof.
  unfold VALIDATE_FOR_OPERAND.
  intros ([[[address o] this'']|] & Hchecked & Hresult)%bind_Returns Hok.
  - apply bind_Returns in Hresult as (primary & Hprimary & [= -> ->]).
    apply DAWN_VALIDATE_Returns in Hchecked as (maybeError & _ & Hchecked).
    destruct (ConsumedError maybeError); [done|].
    injection Hchecked as -> -> ->. by injection Hprimary as <-.
  - injection Hresult as <- <-. done.
Qed.

(** Claim C7.  The operand constructed for an operator with at least one
    input has the element type and the rank of the operator's first
    input; and the operand that an entry point for a unary operator hands
    out still has them, Unary::Validate having no logic that overrides
    them. *)
Theorem OperandBase_new_first_input :
  (∀ address o,
     1 ≤ length (mInputs o) →
     ∃ primaryInput,
       mInputs o !! 0 = Some primaryInput ∧
       mType (OperandBase_new address o) = mType primaryInput ∧
       mRank (OperandBase_new address o) = mRank primaryInput) ∧
  (∀ this opType input output this',
     VALIDATE_FOR_OPERAND this (λ p, new_Unary p opType input) = Returns (output, this') →
     IsError output = false →
     mType output = mType input ∧ mRank output = mRank input).
Proof.
  split.
  - apply OperandBase_new_primaryInput.
  - intros this opType input output this' Hrun Hok.
    destruct (new_Unary_output this opType input output this' Hrun Hok)
      as (Htype & Hrank & _).
    by split.
Qed.

(** Claim C10.  The operand constructed for an operator with no inputs has
    element type Float32 and rank 0. *)
Theorem OperandBase_new_no_input address o :
  mInputs o = [] →
  mType (OperandBase_new address o) = Some Float32 ∧
  mRank (OperandBase_new address o) = Some 0%Z.
Proof.
  intros Hnone. unfold OperandBase_new. rewrite Hnone.
  case_decide as Hlen; [simpl in Hlen; lia|done].
Qed.

(** ** The rank check of softmax (Unary.cpp) *)

(** Claim C6.  For a softmax operator that passes the base validation and
    whose input has rank [rank], Unary::Validate fails with the message
    "Input dimensions is incorrect." exactly when [rank] is not 2, and
    succeeds when it is 2. *)
Theorem Unary_Validate_softmax o input rest rank :
  mInputs o = input :: rest →
  OperatorBase_Validate o = Success →
  mRank input = Some rank →
  Unary_Validate op.kSoftmax o
  = Returns (if decide (rank = 2%Z) then Success
             else ValidationError "Input dimensions is incorrect.").
Proof.
  intros Hinputs Hbase Hrank. unfold Unary_Validate.
  rewrite Hbase, Hinputs. simpl. rewrite Hrank. simpl.
  destruct (decide (rank = 2%Z)) as [->|Hne].
  - by rewrite decide_False by (by intros ?).
  - by rewrite decide_True.
Qed.

(** ** The clamp work-around of Conv2d and BatchNorm *)

Lemma VALIDATE_FOR_OPERAND_Returns this (ptr : nat → OperatorBase) output this' :
  VALIDATE_FOR_OPERAND this ptr = Returns (output, this') →
  ∃ maybeError,
    Validate (ptr (length (operators this))) = Returns maybeError ∧
    if ConsumedError maybeError
    then output = OperandBase_MakeError ∧ this' = this
    else PrimaryOutput (validated (ptr (length (operators this)))) = Returns output ∧
         this' = store this (validated (ptr (length (operators this)))).
Proof.
  unfold VALIDATE_FOR_OPERAND. intros (checked & Hchecked & Hresult)%bind_Returns.
  apply DAWN_VALIDATE_Returns in Hchecked as (maybeError & Hvalidate & ->).
  exists maybeError. split; [done|].
  destruct (ConsumedError maybeError).
  - by injection Hresult as <- <-.
  - apply bind_Returns in Hresult as (primary & Hprimary & [= <- <-]). done.
Qed.

Lemma with_explicit_clamp_Returns this options class inputs output this' :
  with_explicit_clamp this options (λ p, OperatorBase_new p class inputs 1)
  = Returns (output, this') →
  clamp_made_explicit this options class inputs output this'.
Proof.
  unfold with_explicit_clamp, clamp_made_explicit.
  destruct (options ≫= activation) as [activation_|].
  - intros (operatorType & Hfused & Hrun)%bind_Returns.
    destruct (decide (operatorType = FusedOperator.Clamp)) as [Hclamp|Hother].
    + apply bind_Returns in Hrun as (checked & Hchecked & Hrun).
      apply DAWN_VALIDATE_Returns in Hchecked as (maybeError & Hvalidate & ->).
      exists maybeError. split; [done|].
      destruct (ConsumedError maybeError); [by injection Hrun as <- <-|].
      apply bind_Returns in Hrun as (clampOptions & Hoptions & Hrun).
      apply bind_Returns in Hrun as (primary & Hprimary & Hrun).
      exists primary. split; [done|]. exists operatorType. split; [done|].
      rewrite decide_True by done.
      apply VALIDATE_FOR_OPERAND_Returns in Hrun as (maybeError' & Hvalidate' & Hrun).
      exists clampOptions, maybeError'. simpl in Hvalidate', Hrun.
      rewrite length_app, Nat.add_1_r in Hvalidate', Hrun. done.
    + apply VALIDATE_FOR_OPERAND_Returns in Hrun as (maybeError & Hvalidate & Hrun).
      exists maybeError. split; [done|].
      destruct (ConsumedError maybeError); [done|]. destruct Hrun as [Hprimary ->].
      exists output. split; [done|]. exists operatorType. split; [done|].
      by rewrite decide_False.
  - intros (maybeError & Hvalidate & Hrun)%VALIDATE_FOR_OPERAND_Returns.
    exists maybeError. split; [done|].
    destruct (ConsumedError maybeError); [done|]. destruct Hrun as [Hprimary ->].
    by exists output.
Qed.


(** ** Poisoning *)

Lemma DAWN_VALIDATE_poisoned this class inputs outputSize input :
  input ∈ inputs → IsError input = true →
  DAWN_VALIDATE this (λ p, OperatorBase_new p class inputs outputSize) = Returns None.
Proof.
  intros Hin Herror. unfold DAWN_VALIDATE.
  destruct (Validate_poisoned
              (OperatorBase_new (length (operators this)) class inputs outputSize) input)
    as (maybeError & -> & Hconsumed); [done..|].
  simpl. by rewrite Hconsumed.
Qed.

(** An entry point given an operand with the error tag among the operands
    it reads stores nothing and hands out an error: Split an error array
    without operands, every other entry point the error sentinel. *)
Lemma run_poisoned call this results this' input :
  input ∈ arguments call → IsError input = true →
  run call this = Returns (results, this') →
  this' = this ∧
  match call with
  | CallSplit operand splits options =>
      results = [] ∧
      Split this operand splits options = Returns (OperandArrayBase_MakeError, this)
  | _ => results = [OperandBase_MakeError]
  end.
Proof.
  intros Hin Herror Hrun.
  destruct call; unfold run in Hrun; unfold arguments in Hin;
    try (by apply elem_of_nil in Hin);
    unfold operand_result, operator_result, array_result in Hrun;
    apply bind_Returns in Hrun as ([returned_ this''] & Hrun & [= <- <-]);
    simpl; try unfold Concat in Hrun; try (case_decide; [|done]);
    try unfold Split;
    unfold_entry_points Hrun;
    try unfold with_explicit_clamp in Hrun;
    try (destruct (_ ≫= activation);
         [apply bind_Returns in Hrun as (operatorType & _ & Hrun);
          destruct (decide (operatorType = FusedOperator.Clamp))|]);
    unfold VALIDATE_FOR_OPERAND, VALIDATE_ARRAY_OPERAND, new_Split in Hrun |- *;
    rewrite ?(DAWN_VALIDATE_poisoned _ _ _ _ input Hin Herror);
    rewrite (DAWN_VALIDATE_poisoned _ _ _ _ input Hin Herror) in Hrun;
    simpl in Hrun; by injection Hrun as <- <-.
Qed.


Lemma handed_out_check_true this operand :
  handed_out_check this operand = true → handed_out this operand.
Proof.
  unfold handed_out_check. intros [Herror|Hout]%orb_true_iff.
  { left. by apply bool_decide_eq_true in Herror. }
  right. apply bool_decide_eq_true, Exists_exists in Hout as (o & Ho & Hin).
  apply list_elem_of_lookup in Ho as [address Ho]. by exists address, o.
Qed.

Lemma replay_Built calls this this' :
  Built this → replay calls this = Returns this' → Built this'.
Proof.
  revert this. induction calls as [|call calls IH]; intros this Hbuilt; simpl.
  - by intros [= <-].
  - destruct (forallb _ _) eqn:Harguments; [|done].
    intros ([results this''] & Hrun & Hrest)%bind_Returns.
    apply (IH this''); [|done].
    apply (Built_call this call results this''); [done| |done].
    apply Forall_forall. intros operand Hin.
    rewrite forallb_forall in Harguments.
    by apply handed_out_check_true, Harguments, list_elem_of_In.
Qed.

(** An operator without inputs reaches only itself. *)
Lemma reach_leaf heap node x :
  producers heap node = [] → rtc (depends heap) node x → x = node.
Proof.
  intros Hleaf Hreach. destruct Hreach as [|a b c Hab _]; [done|].
  unfold depends in Hab. rewrite Hleaf in Hab. by apply elem_of_nil in Hab.
Qed.

(** ** What a construction call appends *)

Lemma appended_nil this given : appended this given [].
Proof. intros k o Hk. by rewrite lookup_nil in Hk. Qed.

Lemma appended_snoc this given new o :
  appended this given new →
  (IsError o = true ∨ is_Some (mFusedOperator o) →
   mInputs o = [] ∧ mOutputs o = []) →
  (∀ input, input ∈ mInputs o →
     IsError input = false ∧
     (input ∈ given ∨ ∃ k' o', new !! k' = Some o' ∧ input ∈ mOutputs o')) →
  (∀ output, output ∈ mOutputs o →
     IsError output = false ∧
     mOperator output = Some (length (operators this) + length new)) →
  ((∀ input, input ∈ mInputs o → is_Some (mType input) ∧ is_Some (mRank input)) →
   ∀ output, output ∈ mOutputs o → is_Some (mType output) ∧ is_Some (mRank output)) →
  appended this given (new ++ [o]).
Proof.
  intros Hnew Herror Hinputs Houtputs Hinit k o' Hk.
  apply lookup_app_Some in Hk as [Hk|[Hlen Hk]].
  - destruct (Hnew k o' Hk) as (H1 & H2 & H3 & H4). split_and!; [done| |done..].
    intros input Hin.
    destruct (H2 input Hin) as [Hok [?|(k' & o'' & Hlt & Hk' & Hout)]];
      (split; [done|]); [by left|].
    right. exists k', o''. split_and!; [done| |done]. by apply lookup_app_l_Some.
  - apply list_lookup_singleton_Some in Hk as [Hk <-].
    assert (k = length new) as -> by lia. split_and!; [done| |done..].
    intros input Hin.
    destruct (Hinputs input Hin) as [Hok [?|(k' & o'' & Hk' & Hout)]];
      (split; [done|]); [by left|].
    right. exists k', o''.
    split_and!; [by eapply lookup_lt_Some|by apply lookup_app_l_Some|done].
Qed.

Lemma OperandBase_new_initialised address o :
  (∀ input, input ∈ mInputs o → is_Some (mType input) ∧ is_Some (mRank input)) →
  is_Some (mType (OperandBase_new address o)) ∧
  is_Some (mRank (OperandBase_new address o)).
Proof.
  intros Hinputs. unfold OperandBase_new.
  case_decide; [|by split].
  destruct (mInputs o !! 0) as [primaryInput|] eqn:Hprimary; [|by split].
  simpl. by eapply Hinputs, list_elem_of_lookup_2.
Qed.

Lemma validated_fused o : mFusedOperator (validated o) = mFusedOperator o.
Proof. unfold validated. by destruct (opClass o). Qed.

Lemma SetTypeAndRank_initialised attributes output :
  is_Some (mType output) ∧ is_Some (mRank output) →
  is_Some (mType (SetTypeAndRank attributes output)) ∧
  is_Some (mRank (SetTypeAndRank attributes output)).
Proof. by destruct attributes as [[??]|]. Qed.

Lemma validated_initialised o :
  (∀ output, output ∈ mOutputs o → is_Some (mType output) ∧ is_Some (mRank output)) →
  ∀ output, output ∈ mOutputs (validated o) →
    is_Some (mType output) ∧ is_Some (mRank output).
Proof.
  intros Hconstructed. unfold validated.
  destruct (opClass o); try exact Hconstructed; simpl;
    (intros output (i & constructed & -> & Hlookup)%elem_of_lookup_imap;
     apply SetTypeAndRank_initialised, Hconstructed;
     by eapply list_elem_of_lookup_2).
Qed.

Lemma new_appended this given new class inputs outputSize :
  appended this given new →
  (∀ input, input ∈ inputs →
     input ∈ given ∨ ∃ k' o', new !! k' = Some o' ∧ input ∈ mOutputs o') →
  (∀ input, input ∈ inputs → IsError input = false) →
  appended this given
    (new ++ [validated (OperatorBase_new (length (operators this) + length new)
                                         class inputs outputSize)]).
Proof.
  intros Hnew Hfrom Hok. apply appended_snoc; [done|..].
  - unfold IsError, OperatorBase_ObjectBase.
    rewrite validated_error, validated_fused. simpl.
    by intros [?|[? ?]].
  - intros input Hin. rewrite validated_inputs in Hin. simpl in Hin.
    split; [by apply Hok|by apply Hfrom].
  - apply OperatorBase_new_outputs.
  - intros Hinputs. apply validated_initialised. simpl.
    intros output [-> _]%elem_of_replicate. apply OperandBase_new_initialised.
    simpl. intros input Hin. apply Hinputs. by rewrite validated_inputs.
Qed.

Lemma bare_appended this given new o :
  appended this given new → mInputs o = [] → mOutputs o = [] →
  appended this given (new ++ [o]).
Proof.
  intros Hnew Hinputs Houtputs.
  apply appended_snoc; [done|done|rewrite Hinputs|rewrite Houtputs..];
    try (by intros ? ?%elem_of_nil). by intros _ ? ?%elem_of_nil.
Qed.

Lemma Validate_inputs o maybeError input :
  Validate o = Returns maybeError → ConsumedError maybeError = false →
  input ∈ mInputs o → IsError input = false.
Proof.
  intros Hvalidate Herror.
  pose proof (Validate_passed _ _ Hvalidate Herror) as Hbase.
  rewrite OperatorBase_Validate_Success in Hbase. apply Hbase.
Qed.

Lemma VALIDATE_FOR_OPERAND_appended this class inputs outputSize output this' :
  VALIDATE_FOR_OPERAND this (λ p, OperatorBase_new p class inputs outputSize)
  = Returns (output, this') →
  ∃ new, operators this' = operators this ++ new ∧
    builder_error this' = builder_error this ∧ length new ≤ 1 ∧
    appended this inputs new ∧
    (output = OperandBase_MakeError ∨ ∃ o, o ∈ new ∧ output ∈ mOutputs o).
Proof.
  intros (maybeError & Hvalidate & Hrun)%VALIDATE_FOR_OPERAND_Returns.
  destruct (ConsumedError maybeError) eqn:Herror.
  - destruct Hrun as [-> ->]. exists [].
    split_and!; [by rewrite app_nil_r|done|simpl; lia|apply appended_nil|by left].
  - destruct Hrun as [Hprimary ->]. eexists [_].
    split_and!; [done|done|simpl; lia| |].
    + pose proof (new_appended this inputs [] class inputs outputSize) as Hnew.
      simpl in Hnew. rewrite Nat.add_0_r in Hnew.
      apply Hnew; [apply appended_nil|by left|].
      intros input Hin. by apply (Validate_inputs _ _ _ Hvalidate Herror).
    + right. eexists. split; [by apply list_elem_of_singleton|].
      by apply PrimaryOutput_Returns.
Qed.

Lemma VALIDATE_ARRAY_OPERAND_appended this class inputs outputSize array this' :
  VALIDATE_ARRAY_OPERAND this (λ p, OperatorBase_new p class inputs outputSize)
  = Returns (array, this') →
  ∃ new, operators this' = operators this ++ new ∧
    builder_error this' = builder_error this ∧ length new ≤ 1 ∧
    appended this inputs new ∧
    Forall (λ output, output = OperandBase_MakeError ∨
                      ∃ o, o ∈ new ∧ output ∈ mOutputs o) (mOperands array).
Proof.
  unfold VALIDATE_ARRAY_OPERAND. intros (checked & Hchecked & Hrun)%bind_Returns.
  apply DAWN_VALIDATE_Returns in Hchecked as (maybeError & Hvalidate & ->).
  destruct (ConsumedError maybeError) eqn:Herror; injection Hrun as <- <-.
  - exists []. split_and!;
      [by rewrite app_nil_r|done|simpl; lia|apply appended_nil|constructor].
  - eexists [_]. split_and!; [done|done|simpl; lia| |].
    + pose proof (new_appended this inputs [] class inputs outputSize) as Hnew.
      simpl in Hnew. rewrite Nat.add_0_r in Hnew.
      apply Hnew; [apply appended_nil|by left|].
      intros input Hin. by apply (Validate_inputs _ _ _ Hvalidate Herror).
    + apply Forall_forall. intros output Hin. right. eexists.
      split; [by apply list_elem_of_singleton|done].
Qed.

Lemma VALIDATE_FUSED_OPERATOR_appended this class fusedOperator address this' :
  VALIDATE_FUSED_OPERATOR this (λ _, OperatorBase_newFused class fusedOperator)
  = Returns (address, this') →
  ∃ o, operators this' = operators this ++ [o] ∧
    builder_error this' = builder_error this ∧
    address = length (operators this) ∧
    mInputs o = [] ∧ mOutputs o = [] ∧
    (o = OperatorBase_MakeError ∨
     IsError o = false ∧ opClass o = class ∧ mFusedOperator o = Some fusedOperator).
Proof.
  unfold VALIDATE_FUSED_OPERATOR. intros (checked & Hchecked & Hrun)%bind_Returns.
  apply DAWN_VALIDATE_Returns in Hchecked as (maybeError & Hvalidate & ->).
  destruct (ConsumedError maybeError) eqn:Herror; injection Hrun as <- <-.
  - exists OperatorBase_MakeError. split_and!; try done. by left.
  - eexists. split_and!; [done|done|done|by rewrite validated_inputs| |].
    + destruct (mOutputs (validated (OperatorBase_newFused class fusedOperator)))
        as [|output outputs] eqn:Houtputs; [done|].
      destruct (validated_outputs (OperatorBase_newFused class fusedOperator) output)
        as (constructed & Hin & _); [rewrite Houtputs; by left|].
      by apply elem_of_nil in Hin.
    + right. split_and!.
      * unfold IsError, OperatorBase_ObjectBase. by rewrite validated_error.
      * by rewrite validated_class.
      * unfold validated. by destruct (opClass _).
Qed.

Lemma with_explicit_clamp_appended this options class inputs output this' :
  with_explicit_clamp this options (λ p, OperatorBase_new p class inputs 1)
  = Returns (output, this') →
  ∃ new, operators this' = operators this ++ new ∧
    builder_error this' = builder_error this ∧ length new ≤ 2 ∧
    appended this inputs new ∧
    (output = OperandBase_MakeError ∨ ∃ o, o ∈ new ∧ output ∈ mOutputs o).
Proof.
  intros (maybeError & Hvalidate & Hrun)%with_explicit_clamp_Returns.
  destruct (ConsumedError maybeError) eqn:Herror.
  { destruct Hrun as [-> ->]. exists [].
    split_and!; [by rewrite app_nil_r|done|simpl; lia|apply appended_nil|by left]. }
  destruct Hrun as (primary & Hprimary & Hrun).
  set (base := validated (OperatorBase_new (length (operators this)) class inputs 1))
    in *.
  assert (appended this inputs [base]) as Hbase.
  { pose proof (new_appended this inputs [] class inputs 1) as Hnew.
    simpl in Hnew. rewrite Nat.add_0_r in Hnew.
    apply Hnew; [apply appended_nil|by left|].
    intros input Hin. by apply (Validate_inputs _ _ _ Hvalidate Herror). }
  assert (∀ this'', output = primary ∧ this'' = store this base →
    ∃ new, operators this'' = operators this ++ new ∧
      builder_error this'' = builder_error this ∧ length new ≤ 2 ∧
      appended this inputs new ∧
      (output = OperandBase_MakeError ∨ ∃ o, o ∈ new ∧ output ∈ mOutputs o)) as Hone.
  { intros this'' [-> ->]. exists [base].
    split_and!; [done|done|simpl; lia|done|].
    right. exists base. split; [by apply list_elem_of_singleton|].
    by apply PrimaryOutput_Returns. }
  destruct (options ≫= activation) as [activation_|]; [|by apply Hone].
  destruct Hrun as (operatorType & _ & Hrun).
  destruct (decide (operatorType = FusedOperator.Clamp)); [|by apply Hone].
  destruct Hrun as (clampOptions & maybeError' & _ & Hvalidate' & Hrun).
  destruct (ConsumedError maybeError') eqn:Herror'.
  { destruct Hrun as [-> ->]. exists [base].
    split_and!; [done|done|simpl; lia|done|by left]. }
  destruct Hrun as [Houtput ->].
  eexists [base; _]. split_and!; [simpl; by rewrite <- app_assoc|done|simpl; lia| |].
  - pose proof (new_appended this inputs [base] (cClamp clampOptions) [primary] 1)
      as Hnew.
    simpl in Hnew. rewrite Nat.add_1_r in Hnew. apply Hnew; [done| |].
    + intros input ->%list_elem_of_singleton. right. exists 0, base.
      split; [done|]. by apply PrimaryOutput_Returns.
    + intros input Hin. by apply (Validate_inputs _ _ _ Hvalidate' Herror').
  - right. eexists. split; [apply elem_of_cons; right; by apply list_elem_of_singleton|].
    by apply PrimaryOutput_Returns.
Qed.

(** Every public construction call stores at most two operators behind
    those of the arena and hands out error sentinels or outputs of the
    operators it stored. *)
Lemma run_appended call this results this' :
  run call this = Returns (results, this') →
  ∃ new, operators this' = operators this ++ new ∧
    builder_error this' = builder_error this ∧ length new ≤ 2 ∧
    appended this (arguments call) new ∧
    Forall (λ result, result = OperandBase_MakeError ∨
                      ∃ o, o ∈ new ∧ result ∈ mOutputs o) results.
Proof.
  intros Hrun.
  destruct call; unfold run in Hrun; unfold arguments;
    unfold operand_result, operator_result, array_result in Hrun;
    apply bind_Returns in Hrun as ([returned this''] & Hrun & [= <- <-]);
    simpl; unfold_entry_points Hrun;
    try (apply VALIDATE_FOR_OPERAND_appended in Hrun
           as (new & ? & ? & ? & ? & ?);
         exists new; split_and!; [done|done|lia|done|by apply Forall_singleton]);
    try (apply VALIDATE_FUSED_OPERATOR_appended in Hrun
           as (o & ? & ? & ? & ? & ? & ?);
         exists [o]; split_and!;
           [done|done|simpl; lia
           |apply (bare_appended _ _ []); [apply appended_nil|done..]
           |constructor]);
    try (apply with_explicit_clamp_appended in Hrun as (new & ? & ? & ? & ? & ?);
         exists new; split_and!; [done|done|lia|done|by apply Forall_singleton]).
  - apply VALIDATE_ARRAY_OPERAND_appended in Hrun as (new & ? & ? & ? & ? & ?).
    exists new. split_and!; [done|done|lia|done|done].
  - unfold Concat in Hrun. case_decide; [|done]. unfold_entry_points Hrun.
    apply VALIDATE_FOR_OPERAND_appended in Hrun as (new & ? & ? & ? & ? & ?).
    exists new. split_and!; [done|done|lia|done|by apply Forall_singleton].
Qed.


Lemma with_explicit_clamp_two this options class inputs output this' new :
  with_explicit_clamp this options (λ p, OperatorBase_new p class inputs 1)
  = Returns (output, this') →
  operators this' = operators this ++ new → length new = 2 →
  ∃ handle, options ≫= activation = Some handle ∧
            GetFusedOperator this handle = Returns FusedOperator.Clamp.
Proof.
  intros (maybeError & Hvalidate & Hrun)%with_explicit_clamp_Returns Hnew Hlen.
  apply (f_equal length) in Hnew. rewrite length_app, Hlen in Hnew.
  destruct (ConsumedError maybeError); [destruct Hrun as [_ ->]; lia|].
  destruct Hrun as (primary & _ & Hrun).
  destruct (options ≫= activation) as [handle|];
    [|destruct Hrun as [_ ->]; simpl in Hnew; rewrite length_app in Hnew;
      simpl in Hnew; lia].
  destruct Hrun as (operatorType & Hfused & Hrun).
  destruct (decide (operatorType = FusedOperator.Clamp)) as [->|_];
    [by exists handle|].
  destruct Hrun as [_ ->]. simpl in Hnew. rewrite length_app in Hnew.
  simpl in Hnew. lia.
Qed.

(** Only the clamp path of Conv2d and BatchNorm stores two operators. *)
Lemma run_appended_two call this results this' new :
  run call this = Returns (results, this') →
  operators this' = operators this ++ new → length new = 2 →
  on_clamp_path this call.
Proof.
  intros Hrun Hnew Hlen.
  assert (∀ new', operators this' = operators this ++ new' → length new' ≤ 1 → False)
    as Hone.
  { intros new' Hnew' Hlen'. rewrite Hnew in Hnew'.
    apply app_inv_head in Hnew' as <-. lia. }
  destruct call; unfold run in Hrun;
    unfold operand_result, operator_result, array_result in Hrun;
    apply bind_Returns in Hrun as ([returned this''] & Hrun & [= <- <-]);
    simpl in Hnew, Hone; unfold_entry_points Hrun;
    try (apply VALIDATE_FOR_OPERAND_appended in Hrun as (new' & ? & ? & ? & ? & ?);
         by destruct (Hone new'));
    try (apply VALIDATE_FUSED_OPERATOR_appended in Hrun as (o & ? & ? & ? & ? & ? & ?);
         destruct (Hone [o]); [done|simpl; lia]);
    try (apply (with_explicit_clamp_two _ _ _ _ _ _ new) in Hrun as (handle & ? & ?);
         [by eexists _, handle|done..]).
  - apply VALIDATE_ARRAY_OPERAND_appended in Hrun as (new' & ? & ? & ? & ? & ?).
    by destruct (Hone new').
  - unfold Concat in Hrun. case_decide; [|done]. unfold_entry_points Hrun.
    apply VALIDATE_FOR_OPERAND_appended in Hrun as (new' & ? & ? & ? & ? & ?).
    by destruct (Hone new').
Qed.

(** An entry point never removes or replaces an operator of the arena and
    never touches the error flag of the builder.  It stores at most two
    operators behind the arena, and two only when it is Conv2d or
    BatchNorm called with an activation whose fused operator is Clamp;
    what it hands out is the error sentinel or an output of one of the
    operators it stored, which carries no error tag and names the address
    of that operator; and no operator it stored has an operand with the
    error tag among its inputs. *)
Theorem run_appends call this results this' :
  run call this = Returns (results, this') →
  IsError this' = IsError this ∧
  ∃ new, operators this' = operators this ++ new ∧ length new ≤ 2 ∧
    (length new = 2 → on_clamp_path this call) ∧
    (∀ result, result ∈ results →
       result = OperandBase_MakeError ∨
       ∃ k o, new !! k = Some o ∧ result ∈ mOutputs o ∧ IsError result = false ∧
              mOperator result = Some (length (operators this) + k)) ∧
    (∀ o input, o ∈ new → input ∈ mInputs o → IsError input = false).
Proof.
  intros Hrun.
  destruct (run_appended _ _ _ _ Hrun)
    as (new & Hoperators & Hflag & Hlen & Hnew & Hresults).
  split; [done|]. exists new. split_and!; [done..| | |].
  - by apply (run_appended_two call this results this').
  - intros result Hin. rewrite Forall_forall in Hresults.
    destruct (Hresults result Hin) as [?|(o & Ho & Hout)]; [by left|right].
    apply list_elem_of_lookup in Ho as [k Hk]. exists k, o.
    destruct (Hnew k o Hk) as (_ & _ & Houtputs & _).
    destruct (Houtputs result Hout). by split_and!.
  - intros o input [k Hk]%list_elem_of_lookup Hin.
    destruct (Hnew k o Hk) as (_ & Hinputs & _). by apply Hinputs.
Qed.

(** ** The arena stays linked *)

Lemma appended_initialised this given new :
  appended this given new →
  (∀ input, input ∈ given → IsError input = false →
     is_Some (mType input) ∧ is_Some (mRank input)) →
  ∀ k o output, new !! k = Some o → output ∈ mOutputs o →
    is_Some (mType output) ∧ is_Some (mRank output).
Proof.
  intros Hnew Hgiven k. induction (lt_wf k) as [k _ IH]. intros o output Hk Hout.
  destruct (Hnew k o Hk) as (_ & Hinputs & _ & Hinit). apply Hinit; [|done].
  intros input Hin.
  destruct (Hinputs input Hin) as [Hok [Hg|(k' & o' & Hlt & Hk' & Hout')]].
  - by apply Hgiven.
  - by apply (IH k' Hlt o').
Qed.

Lemma appended_linked this given new :
  linked (operators this) →
  Forall (handed_out this) given → appended this given new →
  linked (operators this ++ new).
Proof.
  intros Hlinked Hgiven Hnew.
  assert (∀ input, input ∈ given → IsError input = false →
    ∃ producer p, operators this !! producer = Some p ∧ input ∈ mOutputs p) as Hfrom.
  { intros input Hin Hok. rewrite Forall_forall in Hgiven.
    destruct (Hgiven input Hin) as [->|(a & p & ? & ?)]; [done|]. by exists a, p. }
  intros address o Ho. apply lookup_app_Some in Ho as [Ho|[Hlen Ho]].
  - destruct (Hlinked address o Ho) as (H1 & H2 & H3). split_and!; [done| |done].
    intros input Hin. destruct (H2 input Hin) as (producer & p & Hp & Hout).
    exists producer, p. split; [by apply lookup_app_l_Some|done].
  - destruct (Hnew _ o Ho) as (H1 & H2 & H3 & H4). split_and!; [done| |].
    + intros input Hin.
      destruct (H2 input Hin) as [Hok [Hg|(k' & o' & _ & Hk' & Hout)]].
      * destruct (Hfrom input Hg Hok) as (producer & p & Hp & Hout).
        exists producer, p. split; [by apply lookup_app_l_Some|done].
      * exists (length (operators this) + k'), o'. split; [|done].
        rewrite lookup_app_r by lia. rewrite <- Hk'. f_equal. lia.
    + intros output Hout.
      eapply (appended_initialised this given new); [done| |done..].
      intros input Hg Hok. destruct (Hfrom input Hg Hok) as (producer & p & Hp & Hout').
      destruct (Hlinked producer p Hp) as (_ & _ & Hinit). by apply Hinit.
Qed.

Lemma Built_linked this : Built this → linked (operators this).
Proof.
  induction 1 as [error|this call results this' Hbuilt IH Harguments Hrun].
  - intros address o Ho. simpl in Ho. by rewrite lookup_nil in Ho.
  - destruct (run_appended call this results this' Hrun)
      as (new & -> & _ & _ & Hnew & _).
    by apply (appended_linked this (arguments call)).
Qed.

(** The operator that produced an operand of the arena. *)
Lemma produced_by heap address o output :
  well_formed heap → linked heap → heap !! address = Some o → output ∈ mOutputs o →
  mOperator output = Some address ∧ IsError o = false ∧ mFusedOperator o = None.
Proof.
  intros Hwf Hlinked Ho Hout.
  destruct (Hwf address o Ho) as [_ Houtputs].
  destruct (Houtputs output Hout) as [_ Hoperator].
  destruct (Hlinked address o Ho) as (Hbare & _).
  split; [done|].
  destruct (IsError o) eqn:Herror.
  { destruct Hbare as [_ Hnone]; [by left|]. rewrite Hnone in Hout.
    by apply elem_of_nil in Hout. }
  split; [done|].
  destruct (mFusedOperator o) eqn:Hfused; [|done].
  destruct Hbare as [_ Hnone]; [by right|]. rewrite Hnone in Hout.
  by apply elem_of_nil in Hout.
Qed.

(** What is reachable from operands of the arena is an operator of the
    arena with an output. *)
Lemma reachable_produces heap rootNodes node :
  well_formed heap → linked heap →
  Forall (λ root, IsError root = false ∧
                  ∃ address o, heap !! address = Some o ∧ root ∈ mOutputs o) rootNodes →
  reachable heap rootNodes node →
  ∃ o output, heap !! node = Some o ∧ output ∈ mOutputs o.
Proof.
  intros Hwf Hlinked Hroots (root & first & Hroot & Hoperator & Hreach).
  rewrite Forall_forall in Hroots.
  destruct (Hroots root Hroot) as (_ & address & o & Ho & Hout).
  destruct (produced_by heap address o root Hwf Hlinked Ho Hout) as (Hfirst & _).
  assert (first = address) as -> by congruence.
  assert (∃ o output, heap !! address = Some o ∧ output ∈ mOutputs o) as Hstart
    by (by exists o, root).
  clear Ho Hout Hfirst Hoperator o.
  induction Hreach as [|consumer producer node Hstep _ IH]; [done|].
  apply IH. destruct Hstart as (o & _ & Ho & _).
  unfold depends, producers in Hstep. rewrite Ho in Hstep.
  apply list_elem_of_omap in Hstep as (input & Hin & Hproducer).
  destruct (Hlinked consumer o Ho) as (_ & Hinputs & _).
  destruct (Hinputs input Hin) as (address & p & Hp & Hout).
  destruct (produced_by heap address p input Hwf Hlinked Hp Hout) as (Haddress & _).
  assert (producer = address) as -> by congruence. by exists p, input.
Qed.

Lemma handed_out_produced this rootNodes :
  Forall (λ root, IsError root = false ∧ handed_out this root) rootNodes →
  Forall (λ root, IsError root = false ∧
                  ∃ address o, operators this !! address = Some o ∧ root ∈ mOutputs o)
         rootNodes.
Proof.
  intros Hroots. eapply Forall_impl; [exact Hroots|].
  intros root [Hok [->|Hout]]; [done|]. by split.
Qed.

Lemma reachable_alive this rootNodes node :
  Built this →
  Forall (λ root, IsError root = false ∧ handed_out this root) rootNodes →
  reachable (operators this) rootNodes node →
  ∃ o, operators this !! node = Some o ∧ IsError o = false.
Proof.
  intros Hbuilt Hroots%handed_out_produced Hreach.
  pose proof (Built_well_formed this Hbuilt) as Hwf.
  pose proof (Built_linked this Hbuilt) as Hlinked.
  destruct (reachable_produces _ _ _ Hwf Hlinked Hroots Hreach)
    as (o & output & Ho & Hout).
  exists o. split; [done|].
  by destruct (produced_by _ _ _ _ Hwf Hlinked Ho Hout) as (_ & ? & _).
Qed.

(** In the arena of a builder reached through the public calls every
    input of an operator is an output of a live operator stored at a
    lower address, which the input names; every output names its own
    operator; no operand of the arena carries the error tag; and an error
    object has neither inputs nor outputs. *)
Theorem Built_arena this address o :
  Built this → operators this !! address = Some o →
  (∀ input, input ∈ mInputs o →
     IsError input = false ∧
     ∃ producer p, mOperator input = Some producer ∧ producer < address ∧
       operators this !! producer = Some p ∧ IsError p = false ∧
       input ∈ mOutputs p) ∧
  (∀ output, output ∈ mOutputs o →
     IsError output = false ∧ mOperator output = Some address) ∧
  (IsError o = true → mInputs o = [] ∧ mOutputs o = []).
Proof.
  intros Hbuilt Ho.
  pose proof (Built_well_formed this Hbuilt) as Hwf.
  pose proof (Built_linked this Hbuilt) as Hlinked.
  destruct (Hwf address o Ho) as [Hinputs Houtputs].
  destruct (Hlinked address o Ho) as (Hbare & Hfrom & _).
  split_and!; [|done|by intros ?; apply Hbare; left].
  intros input Hin. destruct (Hinputs input Hin) as (Hok & producer & Hproducer & Hlt).
  split; [done|].
  destruct (Hfrom input Hin) as (address' & p & Hp & Hout).
  destruct (produced_by _ _ _ _ Hwf Hlinked Hp Hout) as (Haddress & Hlive & _).
  assert (address' = producer) as -> by congruence.
  by exists producer, p.
Qed.

(** A fused-operator handle never becomes part of a graph: every operator
    reachable from terminal operands that the builder handed out is a
    live operator of the arena that has an output, is no error object and
    carries no fused-operator tag.  So the sorter returns no activation
    handle and Build adds none to the backend graph. *)
Theorem reachable_no_fused_handle this rootNodes node :
  Built this →
  Forall (λ root, IsError root = false ∧ handed_out this root) rootNodes →
  reachable (operators this) rootNodes node →
  ∃ o, operators this !! node = Some o ∧ IsError o = false ∧
       mFusedOperator o = None ∧ mOutputs o ≠ [].
Proof.
  intros Hbuilt Hroots%handed_out_produced Hreach.
  pose proof (Built_well_formed this Hbuilt) as Hwf.
  pose proof (Built_linked this Hbuilt) as Hlinked.
  destruct (reachable_produces _ _ _ Hwf Hlinked Hroots Hreach)
    as (o & output & Ho & Hout).
  exists o. split; [done|].
  destruct (produced_by _ _ _ _ Hwf Hlinked Ho Hout) as (_ & ? & ?).
  split_and!; [done..|]. intros Hnone. rewrite Hnone in Hout.
  by apply elem_of_nil in Hout.
Qed.


(** ** The entry points for unary operators *)

Lemma new_Unary_Returns this opType input :
  IsError input = false →
  (opType = op.kSoftmax → is_Some (mRank input)) →
  VALIDATE_FOR_OPERAND this (λ p, new_Unary p opType input)
  = Returns (if decide (opType = op.kSoftmax ∧ mRank input ≠ Some 2%Z)
             then (OperandBase_MakeError, this)
             else ({| operand_error := false;
                      mOperator := Some (length (operators this));
                      mType := mType input;
                      mRank := mRank input |},
                   store this (new_Unary (length (operators this)) opType input))).
Proof.
  intros Hok Hrank.
  assert (Validate (new_Unary (length (operators this)) opType input)
          = Returns (if decide (opType = op.kSoftmax ∧ mRank input ≠ Some 2%Z)
                     then ValidationError "Input dimensions is incorrect."
                     else Success)) as Hvalidate.
  { unfold Validate, new_Unary. simpl.
    unfold Unary_Validate, OperatorBase_Validate. simpl. rewrite Hok. simpl.
    destruct (decide (opType = op.kSoftmax)) as [->|Hother].
    - destruct Hrank as [rank Hrank]; [done|]. rewrite Hrank. simpl.
      destruct (decide (rank = 2%Z)) as [->|Hne].
      + rewrite decide_False by (by intros ?).
        by rewrite decide_False by (intros [_ Hne]; by apply Hne).
      + rewrite decide_True by done.
        by rewrite decide_True by (split; [done|congruence]).
    - by rewrite decide_False by (by intros [? _]). }
  unfold VALIDATE_FOR_OPERAND, DAWN_VALIDATE. rewrite Hvalidate. simpl.
  by destruct (decide (opType = op.kSoftmax ∧ mRank input ≠ Some 2%Z)).
Qed.


(** Every operand that a builder reached through the public calls has
    handed out without the error tag has a type and a rank that a
    constructor or a validator has written; so the rank that Softmax
    reads is initialised, and each of the entry points for unary
    operators returns on such an operand. *)
Theorem handed_out_initialised this operand :
  Built this → handed_out this operand → IsError operand = false →
  is_Some (mType operand) ∧ is_Some (mRank operand) ∧
  ∀ opType, ∃ result,
    VALIDATE_FOR_OPERAND this (λ p, new_Unary p opType operand) = Returns result.
Proof.
  intros Hbuilt [->|(address & o & Ho & Hout)] Hok; [done|].
  destruct (Built_linked this Hbuilt address o Ho) as (_ & _ & Hinit).
  destruct (Hinit operand Hout) as [Htype Hrank]. split_and!; [done..|].
  intros opType. eexists. by apply new_Unary_Returns.
Qed.

(** ** The options of a clamp handle *)

Lemma with_explicit_clamp_handle this options handle this1 this2 more other class inputs
    output this3 :
  ClampOperator this options = Returns (handle, this1) →
  operators this2 = operators this1 ++ more →
  with_explicit_clamp this2 (Some {| activation := Some handle; otherOptions := other |})
    (λ p, OperatorBase_new p class inputs 1) = Returns (output, this3) →
  IsError output = false →
  ∃ primary,
    let base := validated (OperatorBase_new (length (operators this2)) class inputs 1) in
    let clamp := validated (new_Clamp (S (length (operators this2))) primary options) in
    PrimaryOutput base = Returns primary ∧
    operators this3 = operators this2 ++ [base; clamp] ∧
    PrimaryOutput clamp = Returns output ∧
    mOperator output = Some (S (length (operators this2))).
Proof.
  intros Hhandle Hmore Hrun Hok.
  unfold ClampOperator, new_Clamp_fused in Hhandle.
  apply VALIDATE_FUSED_OPERATOR_appended in Hhandle
    as (o & Hoperators & _ & -> & _ & _ & Ho).
  assert (operators this2 !! length (operators this) = Some o) as Hlookup.
  { rewrite Hmore, Hoperators. apply lookup_app_l_Some.
    rewrite lookup_app_r by done. by rewrite Nat.sub_diag. }
  apply with_explicit_clamp_Returns in Hrun as (maybeError & Hvalidate & Hrun).
  destruct (ConsumedError maybeError); [by destruct Hrun as [-> _]|].
  destruct Hrun as (primary & Hprimary & operatorType & Hfused & Hrun).
  unfold GetFusedOperator in Hfused. rewrite Hlookup in Hfused. simpl in Hfused.
  destruct Ho as [->|(_ & Hclass & Htag)]; [done|].
  rewrite Htag in Hfused. injection Hfused as <-.
  rewrite decide_True in Hrun by done.
  destruct Hrun as (clampOptions & maybeError' & Hoptions & Hvalidate' & Hrun).
  unfold Clamp_GetOptions in Hoptions. simpl in Hoptions.
  rewrite (lookup_app_l_Some _ _ _ _ Hlookup) in Hoptions. simpl in Hoptions.
  rewrite Hclass in Hoptions. injection Hoptions as <-.
  destruct (ConsumedError maybeError'); [by destruct Hrun as [-> _]|].
  destruct Hrun as [Houtput ->].
  exists primary. split_and!; [done|simpl; by rewrite <- app_assoc|done|].
  apply PrimaryOutput_Returns, OperatorBase_new_outputs in Houtput. apply Houtput.
Qed.

(** The options given to ClampOperator reach the clamp operator that
    Conv2d and BatchNorm make explicit.  When the handle that
    ClampOperator returned is later passed as the activation of Conv2d or
    BatchNorm and the call hands out an operand without the error tag,
    the call has stored two operators: the convolution (or batch
    normalisation) constructed from the operands and the options as
    passed, and behind it the clamp operator constructed from the primary
    output of the first and the very options ClampOperator was called
    with; the operand handed out is the primary output of that clamp
    operator. *)
Theorem ClampOperator_options_reach_clamp this options handle this1 this2 more other :
  ClampOperator this options = Returns (handle, this1) →
  operators this2 = operators this1 ++ more →
  let fused := Some {| activation := Some handle; otherOptions := other |} in
  let address := length (operators this2) in
  (∀ input filter output this3,
     Conv2d this2 input filter fused = Returns (output, this3) →
     IsError output = false →
     ∃ primary,
       let conv2d := validated (new_Conv2d address input filter fused) in
       let clamp := validated (new_Clamp (S address) primary options) in
       PrimaryOutput conv2d = Returns primary ∧
       operators this3 = operators this2 ++ [conv2d; clamp] ∧
       PrimaryOutput clamp = Returns output ∧
       mOperator output = Some (S address)) ∧
  (∀ input mean variance output this3,
     BatchNorm this2 input mean variance fused = Returns (output, this3) →
     IsError output = false →
     ∃ primary,
       let batchNorm := validated (new_BatchNorm address input mean variance fused) in
       let clamp := validated (new_Clamp (S address) primary options) in
       PrimaryOutput batchNorm = Returns primary ∧
       operators this3 = operators this2 ++ [batchNorm; clamp] ∧
       PrimaryOutput clamp = Returns output ∧
       mOperator output = Some (S address)).
Proof.
  intros Hhandle Hmore fused address. split.
  - intros input filter output this3. rewrite Conv2d_unfold.
    by apply (with_explicit_clamp_handle this options handle this1 this2 more).
  - intros input mean variance output this3. rewrite BatchNorm_unfold.
    by apply (with_explicit_clamp_handle this options handle this1 this2 more).
Qed.

(** ** Split *)

(** Split either fails, handing out an error array without operands and
    storing nothing, or stores one operator on the operand given, which
    carries no error tag, and hands out the outputs of that operator: as
    many as the splits ask for, none with the error tag, all naming the
    one operator stored. *)
Theorem Split_outputs this input splits options array this' :
  Split this input splits options = Returns (array, this') →
  if array_error array then mOperands array = [] ∧ this' = this
  else ∃ o, operators this' = operators this ++ [o] ∧
         opClass o = cSplit splits options ∧ mInputs o = [input] ∧
         IsError input = false ∧
         mOperands array = mOutputs o ∧
         length (mOperands array) = Split_outputSize splits ∧
         Forall (λ output, IsError output = false ∧
                           mOperator output = Some (length (operators this)))
                (mOperands array).
Proof.
  unfold Split, VALIDATE_ARRAY_OPERAND, new_Split.
  intros (checked & Hchecked & Hrun)%bind_Returns.
  apply DAWN_VALIDATE_Returns in Hchecked as (maybeError & Hvalidate & ->).
  destruct (ConsumedError maybeError) eqn:Herror; injection Hrun as <- <-; [done|].
  simpl. eexists. split_and!; [done|done|done| |done| |].
  - apply (Validate_inputs _ _ _ Hvalidate Herror). simpl.
    by apply list_elem_of_singleton.
  - by rewrite length_imap, length_replicate.
  - apply Forall_forall. intros output Hin.
    exact (OperatorBase_new_outputs (length (operators this)) (cSplit splits options)
             [input] (Split_outputSize splits) output Hin).
Qed.


(** ** The handles of the unary activations *)

Lemma unary_fused_Returns this opType fusedOperator :
  opType ≠ op.kSoftmax →
  VALIDATE_FUSED_OPERATOR this (λ _, new_Unary_fused opType fusedOperator)
  = Returns (length (operators this),
             store this (new_Unary_fused opType fusedOperator)).
Proof.
  intros Hother. unfold VALIDATE_FUSED_OPERATOR, DAWN_VALIDATE, Validate. simpl.
  unfold Unary_Validate. simpl. by rewrite decide_False.
Qed.

(** The handles made by ReluOperator, HardSwishOperator and
    SigmoidOperator.  Making one always succeeds: a handle has no inputs,
    so the base validation passes, and Unary::Validate checks a rank for
    softmax only.  When such a handle is later passed as the activation of
    Conv2d or BatchNorm, the call does what it does without looking at
    the activation: it constructs the one operator from the options as
    passed, validates it and returns its primary output; no operator is
    made for the activation. *)
Theorem unary_handle_stays_in_options this handle this1 this2 more other :
  ReluOperator this = Returns (handle, this1) ∨
  HardSwishOperator this = Returns (handle, this1) ∨
  SigmoidOperator this = Returns (handle, this1) →
  operators this2 = operators this1 ++ more →
  let fused := Some {| activation := Some handle; otherOptions := other |} in
  (∀ input filter,
     Conv2d this2 input filter fused
     = VALIDATE_FOR_OPERAND this2 (λ p, new_Conv2d p input filter fused)) ∧
  (∀ input mean variance,
     BatchNorm this2 input mean variance fused
     = VALIDATE_FOR_OPERAND this2 (λ p, new_BatchNorm p input mean variance fused)).
Proof.
  intros Hhandle Hmore fused.
  assert (∃ operatorType, GetFusedOperator this2 handle = Returns operatorType ∧
                          operatorType ≠ FusedOperator.Clamp)
    as (operatorType & Hfused & Hother).
  { assert (∃ opType operatorType,
              handle = length (operators this) ∧
              this1 = store this (new_Unary_fused opType operatorType) ∧
              operatorType ≠ FusedOperator.Clamp)
      as (opType & operatorType & -> & -> & Hother).
    { unfold ReluOperator, HardSwishOperator, SigmoidOperator in Hhandle.
      rewrite !unary_fused_Returns in Hhandle by done.
      destruct Hhandle as [[= <- <-]|[[= <- <-]|[= <- <-]]]; by eexists _, _. }
    exists operatorType. split; [|done].
    unfold GetFusedOperator. rewrite Hmore. simpl.
    rewrite (lookup_app_l_Some _ _ _ (new_Unary_fused opType operatorType)); [done|].
    rewrite lookup_app_r by done. by rewrite Nat.sub_diag. }
  split.
  - intros input filter. rewrite Conv2d_unfold. unfold with_explicit_clamp. simpl.
    rewrite Hfused. simpl. by rewrite decide_False.
  - intros input mean variance. rewrite BatchNorm_unfold. unfold with_explicit_clamp.
    simpl. rewrite Hfused. simpl. by rewrite decide_False.
Qed.


End Builder.

Section Finalize.

Context {Attrs : Type} `{!@ConcreteOperators Attrs} `{!Backend}.
Implicit Types (this : @GraphBuilderBase Attrs).
Implicit Types (namedOperands : list (string * OperandBase)).

(** Claim C8.  Build called on a builder that is an error, or with no
    named output, returns the null graph and writes one line to the error
    log before anything is asked of the backend; not even a backend graph
    is created. *)
Theorem Build_guard fuel this namedOperands :
  IsError this = true ∨ namedOperands = [] →
  Build fuel this namedOperands
  = Returns {| returned := None;
               errorLog := [if IsError this then "This Graph object is an error"
                            else "The output named operands are empty."];
               backendCalls := [] |}.
Proof.
  unfold Build. intros [Herror|Hempty].
  - by rewrite Herror.
  - destruct (IsError this); [done|]. by rewrite decide_True.
Qed.

(** ** Build on an error sentinel *)

Lemma stack_until_null (stack : list (option nat)) :
  None ∈ stack →
  ∃ nodes below, stack = (Some <$> nodes) ++ None :: below.
Proof.
  induction stack as [|[node|] stack IH]; intros Hnull.
  - by apply elem_of_nil in Hnull.
  - apply elem_of_cons in Hnull as [?|Hnull]; [done|].
    destruct (IH Hnull) as (nodes & below & ->). by exists (node :: nodes), below.
  - by exists [], stack.
Qed.

(** A terminal operand without a producing operator puts the null pointer
    on the work stack; the loop dereferences it once it gets there. *)
Lemma TopologicalSort_null (heap : list (@OperatorBase Attrs)) rootNodes :
  acyclic heap →
  Forall (λ root, mOperator root = None ∨ terminal heap root) rootNodes →
  Exists (λ root, mOperator root = None) rootNodes →
  ∃ enough, ∀ fuel, enough ≤ fuel →
    TopologicalSort heap fuel rootNodes = Undefined.
Proof.
  intros Hacyclic Hroots Hnull.
  destruct (stack_until_null (reverse (mOperator <$> rootNodes)))
    as (nodes & below & Hstack).
  { apply elem_of_reverse, list_elem_of_fmap. apply Exists_exists in Hnull.
    destruct Hnull as (root & Hroot & Hnone). by exists root. }
  assert (visits heap nodes) as Hvisits.
  { apply (visits_Forall heap (length heap)); [intros; by apply visits_node|].
    apply Forall_forall. intros node Hnode.
    assert (Some node ∈ reverse (mOperator <$> rootNodes)) as Hin.
    { rewrite Hstack. apply elem_of_app. left. apply list_elem_of_fmap. by exists node. }
    apply elem_of_reverse, list_elem_of_fmap in Hin as (root & Hoperator & Hroot).
    rewrite Forall_forall in Hroots.
    destruct (Hroots root Hroot) as [?|(address & ? & ?)]; congruence. }
  destruct (Hvisits ∅) as (k & emitted & Hrun & _).
  exists (S k). intros fuel Hfuel.
  rewrite TopologicalSort_unfold, Hstack.
  replace fuel with (k + S (fuel - S k)) by lia. by rewrite Hrun.
Qed.

(** In a well-formed arena the only operand with the error tag that a
    client holds is the sentinel, which names no operator. *)
Lemma handed_out_error this operand :
  well_formed (operators this) → handed_out this operand →
  IsError operand = true → mOperator operand = None.
Proof.
  intros Hwf [->|(address & o & Ho & Hin)] Herror; [done|].
  destruct (Hwf address o Ho) as [_ Houtputs].
  destruct (Houtputs operand Hin) as [Hok _]. congruence.
Qed.

(** Build on named outputs one of which is an error sentinel: the sorter
    runs into the null pointer, Build does not return. *)
Lemma Build_on_error_sentinel this namedOperands :
  Built this → IsError this = false →
  Forall (λ named, handed_out this named.2) namedOperands →
  Exists (λ named, IsError named.2 = true) namedOperands →
  ∃ enough, ∀ fuel, enough ≤ fuel → Build fuel this namedOperands = Undefined.
Proof.
  intros Hwf%Built_well_formed Hthis Hnamed Hsentinel.
  destruct (TopologicalSort_null (operators this) (namedOperands.*2))
    as (enough & Hrun).
  - by apply well_formed_acyclic.
  - apply Forall_fmap. eapply Forall_impl; [exact Hnamed|].
    intros named Hout. simpl. destruct (IsError named.2) eqn:Herror.
    + left. by apply (handed_out_error this).
    + right. by apply handed_out_terminal.
  - pose proof Hsentinel as Hfound.
    apply Exists_exists in Hfound as (named & Hin & Herror).
    apply Exists_exists. exists named.2. split.
    + apply list_elem_of_fmap. by exists named.
    + apply (handed_out_error this); [done| |done].
      rewrite Forall_forall in Hnamed. by apply Hnamed.
  - exists enough. intros fuel Hfuel. unfold Build. rewrite Hthis.
    rewrite decide_False.
    + by rewrite (Hrun fuel Hfuel).
    + intros ->. by apply Exists_nil in Hsentinel.
Qed.

(** ** Build as a sequence of backend calls *)

Lemma ask_app graph calls calls' :
  ask graph (calls ++ calls')
  = match ask graph calls with
    | (None, graph') => ask graph' calls'
    | refused => refused
    end.
Proof.
  revert graph. induction calls as [|call calls IH]; intros graph; [done|].
  simpl. by destruct (ConsumedError (backend_reply graph call)).
Qed.

Lemma ask_made graph calls :
  ∃ k, (ask graph calls).2 = graph ++ take k calls ∧
       ((ask graph calls).1 = None → length calls ≤ k).
Proof.
  revert graph. induction calls as [|call calls IH]; intros graph.
  - exists 0. simpl. by rewrite app_nil_r.
  - simpl. destruct (ConsumedError (backend_reply graph call)).
    + by exists 1.
    + destruct (IH (graph ++ [call])) as (k & Hmade & Hall).
      exists (S k). simpl. rewrite Hmade, <- app_assoc. split; [done|].
      intros Hnone. specialize (Hall Hnone). lia.
Qed.

Lemma ask_refused graph calls refused graph' :
  ask graph calls = (Some refused, graph') → refused ∈ calls.
Proof.
  revert graph. induction calls as [|call calls IH]; intros graph; [done|].
  simpl. destruct (ConsumedError (backend_reply graph call)).
  - intros [= <- _]. by left.
  - intros Hrest. right. by eapply IH.
Qed.

Lemma Build_outputs_ask graph namedOperands :
  Build_outputs graph namedOperands
  = let made := ask graph ((λ namedOutput, AddOutput namedOutput.1 namedOutput.2)
                             <$> namedOperands) in
    (match made.1 with None => true | Some _ => false end, made.2).
Proof.
  revert graph. induction namedOperands as [|namedOutput rest IH]; intros graph; [done|].
  simpl. destruct (ConsumedError (backend_reply graph _)); [done|]. apply IH.
Qed.

Lemma Build_operators_ask (heap : list (@OperatorBase Attrs)) graph sorted_operands :
  Forall (λ o, ∃ object, heap !! o = Some object ∧ IsError object = false)
         sorted_operands →
  Build_operators heap graph sorted_operands
  = Returns (let made := ask graph (AddToGraph <$> sorted_operands) in
             (match made.1 with None => true | Some _ => false end, made.2)).
Proof.
  revert graph.
  induction sorted_operands as [|o rest IH]; intros graph Halive; [done|].
  apply Forall_cons in Halive as [(object & Hobject & Hok) Hrest].
  simpl. rewrite Hobject. simpl. rewrite Hok.
  destruct (ConsumedError (backend_reply graph _)); [done|]. by apply IH.
Qed.

Lemma Build_operators_Returns (heap : list (@OperatorBase Attrs)) graph sorted_operands
    made :
  Build_operators heap graph sorted_operands = Returns made →
  (∃ k, made.2 = graph ++ (AddToGraph <$> take k sorted_operands)) ∧
  (made.1 = true →
   ask graph (AddToGraph <$> sorted_operands) = (None, made.2) ∧
   Forall (λ o, ∃ object, heap !! o = Some object ∧ IsError object = false)
          sorted_operands).
Proof.
  revert graph. induction sorted_operands as [|o rest IH]; intros graph; simpl.
  - intros [= <-]. split; [|done]. exists 0. by rewrite app_nil_r.
  - intros (object & Hobject & Hrun)%bind_Returns.
    destruct (heap !! o) as [object'|] eqn:Ho; [|done]. injection Hobject as ->.
    destruct (IsError object) eqn:Hok.
    { injection Hrun as <-. split; [|done]. exists 0. by rewrite app_nil_r. }
    destruct (ConsumedError (backend_reply graph (AddToGraph o))).
    { injection Hrun as <-. split; [|done]. by exists 1. }
    destruct (IH _ Hrun) as [(k & Hmade) Hall]. split.
    + exists (S k). by rewrite Hmade, <- app_assoc.
    + intros Hadded. destruct (Hall Hadded) as [Hask Halive].
      split; [done|]. constructor; [by exists object|done].
Qed.

Lemma added_app calls calls' : added (calls ++ calls') = added calls ++ added calls'.
Proof. apply omap_app. Qed.

Lemma added_operators sorted_operands :
  added (AddToGraph <$> sorted_operands) = sorted_operands.
Proof. induction sorted_operands as [|o rest IH]; [done|]. cbn. f_equal. apply IH. Qed.

Lemma added_none calls :
  Forall (λ call, ∀ o, call ≠ AddToGraph o) calls → added calls = [].
Proof.
  induction 1 as [|call calls Hcall _ IH]; [done|].
  simpl. destruct call; try done. by destruct (Hcall operator).
Qed.

Lemma added_requests k sorted_operands namedOperands :
  added (take k (requests sorted_operands namedOperands)) = take k sorted_operands.
Proof.
  unfold requests. rewrite take_app, added_app, <- fmap_take, added_operators.
  rewrite added_none; [by rewrite app_nil_r|].
  apply Forall_take, Forall_app. split.
  - apply Forall_fmap, Forall_forall. by intros namedOutput _ o.
  - by repeat constructor.
Qed.

Lemma take_min {A} k (l : list A) : take (k `min` length l) l = take k l.
Proof.
  destruct (decide (k ≤ length l)); [by rewrite Nat.min_l|].
  rewrite Nat.min_r by lia. by rewrite !take_ge by lia.
Qed.

(** What Build has asked of the backend when it returns. *)
Lemma Build_Returns_made fuel this namedOperands result :
  Build fuel this namedOperands = Returns result →
  backendCalls result = [] ∧ returned result = None ∨
  ∃ sorted_operands k,
    TopologicalSort (operators this) fuel (namedOperands.*2) = Returns sorted_operands ∧
    backendCalls result = CreateGraph :: take k (requests sorted_operands namedOperands) ∧
    (is_Some (returned result) →
     length (requests sorted_operands namedOperands) ≤ k).
Proof.
  unfold Build. destruct (IsError this); [intros [= <-]; left; by split|].
  case_decide; [intros [= <-]; left; by split|].
  intros (sorted_operands & Hsorted & Hrun)%bind_Returns.
  apply bind_Returns in Hrun as (made & Hmade & Hrun).
  right. exists sorted_operands.
  destruct (Build_operators_Returns _ _ _ _ Hmade) as [(k & Hk) Hall].
  destruct made as [[] graph]; simpl in *.
  2:{ injection Hrun as <-. exists (k `min` length sorted_operands).
      split; [done|]. split; [|by intros [? ?]]. simpl. rewrite Hk. f_equal.
      unfold requests. rewrite take_app_le by (rewrite length_fmap; lia).
      by rewrite <- fmap_take, take_min. }
  destruct (Hall eq_refl) as [Hask _]. clear Hall Hk k.
  rewrite Build_outputs_ask in Hrun. simpl in Hrun.
  set (outputs := (λ namedOutput : string * OperandBase,
                     AddOutput namedOutput.1 namedOutput.2) <$> namedOperands) in *.
  assert (∀ k rest,
            (graph ++ take k rest : list BackendCall)
            = CreateGraph :: take (length sorted_operands + k)
                                  ((AddToGraph <$> sorted_operands) ++ rest)) as Hbehind.
  { intros k rest. pose proof (ask_made [CreateGraph] (AddToGraph <$> sorted_operands))
      as (j & Hj & Hlen). rewrite Hask in Hj, Hlen. simpl in Hj, Hlen.
    specialize (Hlen eq_refl). rewrite length_fmap in Hlen.
    rewrite take_ge in Hj by (rewrite length_fmap; lia). rewrite Hj. simpl. f_equal.
    rewrite take_app_ge by (rewrite length_fmap; lia).
    rewrite length_fmap. f_equal. f_equal. lia. }
  destruct (ask_made graph outputs) as (k & Hk & Hall).
  destruct (ask graph outputs) as [[refused|] graph'] eqn:Houtputs; simpl in *.
  { injection Hrun as <-. exists (length sorted_operands + (k `min` length outputs)).
    split; [done|]. split; [|by intros [? ?]]. simpl. rewrite Hk.
    unfold requests. rewrite <- Hbehind. fold outputs.
    rewrite take_app_le by lia. by rewrite take_min. }
  specialize (Hall eq_refl). rewrite take_ge in Hk by done. subst graph'.
  assert (∀ j, j ≤ 2 →
            ((graph ++ outputs) ++ take j [Finish; Compile] : list BackendCall)
            = CreateGraph :: take (length sorted_operands + (length outputs + j))
                                  (requests sorted_operands namedOperands)) as Hlast.
  { intros j _. unfold requests. fold outputs. rewrite <- Hbehind, <- app_assoc.
    f_equal. rewrite take_app_ge by lia. f_equal. f_equal. lia. }
  destruct (ConsumedError (backend_reply (graph ++ outputs) Finish)).
  { injection Hrun as <-. exists (length sorted_operands + (length outputs + 1)).
    split; [done|]. split; [|by intros [? ?]].
    simpl. apply (Hlast 1). lia. }
  destruct (ConsumedError (backend_reply ((graph ++ outputs) ++ [Finish]) Compile));
    injection Hrun as <-; exists (length sorted_operands + (length outputs + 2));
    (split; [done|]); simpl.
  - split; [|by intros [? ?]]. rewrite <- app_assoc. apply (Hlast 2). lia.
  - split; [rewrite <- app_assoc; apply (Hlast 2); lia|].
    intros _. unfold requests. fold outputs.
    rewrite !length_app, length_fmap. simpl. lia.
Qed.

(** What Build leaves behind when it returns.  A graph is returned only
    after the backend has accepted every call: the sorted operators
    added in the order of the sorter, none of them an error object, then
    the named outputs registered in the order of the records, then
    Finish, then Compile; that graph holds these calls and nothing was
    logged.  In every other case the null graph is returned and exactly
    one line was logged: Build never returns a partial graph and never
    fails silently. *)
Theorem Build_returns_complete_graph fuel this namedOperands result :
  Build fuel this namedOperands = Returns result →
  match returned result with
  | Some graph =>
      ∃ sorted_operands,
        TopologicalSort (operators this) fuel (namedOperands.*2)
        = Returns sorted_operands ∧
        graph = CreateGraph :: requests sorted_operands namedOperands ∧
        ask [CreateGraph] (requests sorted_operands namedOperands) = (None, graph) ∧
        Forall (λ o, ∃ object, operators this !! o = Some object ∧
                               IsError object = false) sorted_operands ∧
        backendCalls result = graph ∧ errorLog result = []
  | None => length (errorLog result) = 1
  end.
Proof.
  unfold Build. destruct (IsError this); [by intros [= <-]|].
  case_decide; [by intros [= <-]|].
  intros (sorted_operands & Hsorted & Hrun)%bind_Returns.
  apply bind_Returns in Hrun as (made & Hmade & Hrun).
  destruct (Build_operators_Returns _ _ _ _ Hmade) as [_ Hall].
  destruct made as [[] graph]; simpl in *; [|by injection Hrun as <-].
  destruct (Hall eq_refl) as [Hask Halive]. clear Hall.
  rewrite Build_outputs_ask in Hrun. simpl in Hrun.
  destruct (ask graph _) as [[refused|] graph'] eqn:Houtputs; simpl in Hrun;
    [by injection Hrun as <-|].
  destruct (ConsumedError (backend_reply graph' Finish)) eqn:Hfinish;
    [by injection Hrun as <-|].
  destruct (ConsumedError (backend_reply (graph' ++ [Finish]) Compile)) eqn:Hcompile;
    injection Hrun as <-; [done|]. simpl.
  assert (ask [CreateGraph] (requests sorted_operands namedOperands)
          = (None, (graph' ++ [Finish]) ++ [Compile])) as Hall.
  { unfold requests. rewrite ask_app, Hask, ask_app, Houtputs. simpl.
    by rewrite Hfinish, Hcompile. }
  exists sorted_operands. split_and!; [done| |done..].
  destruct (ask_made [CreateGraph] (requests sorted_operands namedOperands))
    as (k & Hk & Hlen).
  rewrite Hall in Hk, Hlen. simpl in Hk, Hlen.
  by rewrite take_ge in Hk by (by apply Hlen).
Qed.

(** Build on a graph built through the public calls.  On a builder that
    is no error, with at least one named output and named outputs that the
    builder handed out without the error tag, Build returns, and what it
    leaves behind is decided by the backend alone: the sorted operators,
    the named outputs, Finish and Compile are asked of the backend in that
    order up to the first call it refuses; if it refuses none, the graph
    with all these calls is returned and nothing is logged; otherwise the
    null graph is returned and the one line of the refused stage is
    logged.  The test for an error object among the sorted operators never
    fires. *)
Theorem Build_on_built_graph this namedOperands :
  Built this → IsError this = false → namedOperands ≠ [] →
  Forall (λ named, IsError named.2 = false ∧ handed_out this named.2) namedOperands →
  ∃ enough sorted_operands, ∀ fuel, enough ≤ fuel →
    TopologicalSort (operators this) fuel (namedOperands.*2) = Returns sorted_operands ∧
    Build fuel this namedOperands
    = Returns (asked (requests sorted_operands namedOperands)).
Proof.
  intros Hbuilt Hthis Hsome Hnamed.
  assert (Forall (λ root, IsError root = false ∧ handed_out this root)
                 (namedOperands.*2)) as Hroots by (by apply Forall_fmap).
  pose proof (Built_well_formed this Hbuilt) as Hwf.
  destruct (TopologicalSort_acyclic (operators this) (namedOperands.*2))
    as (k & sorted_operands & Hsorted & _ & Hreach); [by apply well_formed_acyclic| |].
  { eapply Forall_impl; [exact Hroots|]. intros root [Hok Hout].
    by apply handed_out_terminal. }
  exists (S k), sorted_operands. intros fuel Hfuel.
  rewrite Hsorted by lia. split; [done|].
  unfold Build. rewrite Hthis, decide_False by done. rewrite Hsorted by lia. simpl.
  rewrite Build_operators_ask.
  2:{ apply Forall_forall. intros o Ho%Hreach.
      by apply (reachable_alive this (namedOperands.*2)). }
  simpl. unfold asked, requests. rewrite ask_app.
  destruct (ask [CreateGraph] (AddToGraph <$> sorted_operands))
    as [[refused|] graph] eqn:Hoperators; simpl.
  { apply ask_refused, list_elem_of_fmap in Hoperators as (o & -> & _). done. }
  rewrite Build_outputs_ask, ask_app. simpl.
  destruct (ask graph _) as [[refused|] graph'] eqn:Houtputs; simpl.
  { apply ask_refused, list_elem_of_fmap in Houtputs as (named & -> & _). done. }
  destruct (ConsumedError (backend_reply graph' Finish)); [done|]. simpl.
  by destruct (ConsumedError (backend_reply (graph' ++ [Finish]) Compile)).
Qed.

(** Build hands to the backend only what the named outputs need, once, and
    producers first.  On a graph built through the public calls, whenever
    Build returns, the operators it has added to the backend graph are
    pairwise distinct, each is reachable from the named outputs, and the
    producer of every input of an operator was added before the operator
    itself; when a graph is returned, every reachable operator was added. *)
Theorem Build_adds_reachable_once fuel this namedOperands result :
  Built this →
  Forall (λ named, IsError named.2 = false ∧ handed_out this named.2) namedOperands →
  Build fuel this namedOperands = Returns result →
  NoDup (added (backendCalls result)) ∧
  (∀ o, o ∈ added (backendCalls result) →
     reachable (operators this) (namedOperands.*2) o) ∧
  (∀ i o p, added (backendCalls result) !! i = Some o →
     p ∈ producers (operators this) o →
     ∃ j, j < i ∧ added (backendCalls result) !! j = Some p) ∧
  (is_Some (returned result) →
   ∀ o, reachable (operators this) (namedOperands.*2) o →
     o ∈ added (backendCalls result)).
Proof.
  intros Hbuilt Hnamed Hrun.
  destruct (Build_Returns_made _ _ _ _ Hrun)
    as [[Hnone Hnull]|(sorted_operands & k & Hsorted & Hmade & Hall)].
  { rewrite Hnone, Hnull. simpl.
    split_and!; [constructor|by intros ? ?%elem_of_nil|done|by intros [? ?]]. }
  pose proof (Built_well_formed this Hbuilt) as Hwf.
  destruct (TopologicalSort_Returns_acyclic (operators this) (namedOperands.*2) fuel
              sorted_operands) as [Hord Hreach]; [by apply well_formed_acyclic| |done|].
  { apply Forall_fmap. eapply Forall_impl; [exact Hnamed|]. intros named [Hok Hout].
    by apply handed_out_terminal. }
  rewrite Hmade. change (added (CreateGraph :: ?l)) with (added l).
  rewrite added_requests. split_and!.
  - eapply sublist_NoDup; [by eapply ordered_NoDup|apply sublist_take].
  - intros o (i & Hi & _)%elem_of_take. by eapply Hreach, list_elem_of_lookup_2.
  - intros i o p [Hi Hlt]%lookup_take_Some Hp.
    destruct (ordered_lookup _ _ _ _ _ _ Hord Hi Hp) as [Hempty|(j & Hj & Hlook)];
      [by apply not_elem_of_empty in Hempty|].
    exists j. split; [done|]. apply lookup_take_Some. split; [done|lia].
  - intros Hsome o Ho%Hreach. specialize (Hall Hsome).
    rewrite take_ge; [done|]. unfold requests in Hall.
    rewrite length_app, length_fmap in Hall. lia.
Qed.


End Finalize.


(** * The concrete sessions *)

Lemma session_run :
  session
  = Returns ([session_A; session_B; session_C; session_D], session_builder).
Proof. vm_compute. reflexivity. Qed.

Lemma session_Built : Built session_builder.
Proof.
  apply (replay_Built
           [CallInput "A" [2; 2]%Z; CallInput "B" [2; 2]%Z;
            CallMatmul session_A session_B; CallRelu session_C]
           GraphBuilderBase_new).
  - apply Built_new.
  - vm_compute. reflexivity.
Qed.

Lemma session_acyclic : acyclic (operators session_builder).
Proof. apply well_formed_acyclic, Built_well_formed, session_Built. Qed.

(** The end-to-end scenario: both inputs come first, the one listed last
    in MatMul's Inputs() before the other, then MatMul, then Relu. *)
Example session_sorted :
  TopologicalSort (operators session_builder) 20 [session_D] = Returns [1; 0; 2; 3].
Proof. vm_compute. reflexivity. Qed.

(** Build then adds the operators in that order, registers the one
    output, finishes and compiles. *)
Example session_build :
  Build 20 session_builder [("result", session_D)]
  = Returns
      {| returned := Some [CreateGraph; AddToGraph 1; AddToGraph 0; AddToGraph 2;
                           AddToGraph 3; AddOutput "result" session_D; Finish; Compile];
         errorLog := [];
         backendCalls := [CreateGraph; AddToGraph 1; AddToGraph 0; AddToGraph 2;
                          AddToGraph 3; AddOutput "result" session_D; Finish; Compile] |}.
Proof. vm_compute. reflexivity. Qed.

Lemma session_inputs_independent : independent (operators session_builder) [0; 1].
Proof.
  intros p q Hp Hq Hne Hreach. apply Hne. symmetry.
  apply (reach_leaf (operators session_builder) p q); [|done].
  apply elem_of_cons in Hp as [->|Hp]; [reflexivity|].
  apply list_elem_of_singleton in Hp as ->. reflexivity.
Qed.

(** ** Claim C1 at the session *)

Lemma TopologicalSort_topological_witness :
  Built session_builder ∧
  Forall (λ root, IsError root = false ∧ handed_out session_builder root) [session_D] ∧
  ∃ result,
    (∃ enough, ∀ fuel, enough ≤ fuel →
       TopologicalSort (operators session_builder) fuel [session_D] = Returns result) ∧
    (∀ i node p, result !! i = Some node →
       p ∈ producers (operators session_builder) node →
       ∃ j, j < i ∧ result !! j = Some p) ∧
    NoDup result ∧
    (∀ node, reachable (operators session_builder) [session_D] node ↔ node ∈ result).
Proof.
  assert (Forall (λ root, IsError root = false ∧ handed_out session_builder root)
                 [session_D]) as Hroots.
  { apply Forall_singleton. split; [reflexivity|].
    apply handed_out_check_true. vm_compute. reflexivity. }
  split; [exact session_Built|]. split; [exact Hroots|].
  exact (TopologicalSort_topological session_builder [session_D] session_Built Hroots).
Defined.

(** ** Claim C4 at the session *)

(** MatMul lists A (operator 0) before B (operator 1); the two are
    independent; the sorter puts B before A. *)
Lemma TopologicalSort_not_in_Inputs_order :
  ¬ producers_in_Inputs_order (operators session_builder) [session_C] 2.
Proof.
  intros Hclaim.
  specialize (Hclaim 20 [1; 0; 2]).
  assert (filter (λ x, x ∈ producers (operators session_builder) 2) [1; 0; 2]
          = producers (operators session_builder) 2) as Horder.
  { apply Hclaim; [vm_compute; reflexivity|]. exact session_inputs_independent. }
  vm_compute in Horder. discriminate Horder.
Qed.

Lemma session_producers : producers (operators session_builder) 2 = [0; 1].
Proof. reflexivity. Qed.

Lemma TopologicalSort_missing_producers_reversed_witness :
  acyclic (operators session_builder) ∧
  ∃ enough result,
    (∀ fuel, enough ≤ fuel →
       TopologicalSort (operators session_builder) fuel ([] ++ [session_C])
       = Returns result) ∧
    filter (λ x, x ∈ producers (operators session_builder) 2) result
    = reverse (producers (operators session_builder) 2).
Proof.
  assert (NoDup (producers (operators session_builder) 2)) as Hnodup.
  { rewrite session_producers. apply NoDup_cons. split; [|apply NoDup_singleton].
    intros Hin. apply list_elem_of_singleton in Hin. discriminate Hin. }
  assert (independent (operators session_builder)
            (producers (operators session_builder) 2)) as Hindependent.
  { rewrite session_producers. exact session_inputs_independent. }
  assert (2 < length (operators session_builder)) as Hlen by (simpl; lia).
  split; [exact session_acyclic|].
  exact (proj2 (TopologicalSort_missing_producers_reversed (operators session_builder)
                  session_acyclic)
           [] session_C 2 (Forall_nil_2 _) eq_refl Hlen Hnodup Hindependent).
Defined.

(** ** Claim C5 at the session *)

Lemma shift_inj : Inj (=) (=) shift.
Proof. intros a b Hab. unfold shift in Hab. lia. Qed.

Lemma session_relocated_by_shift :
  relocated shift (operators session_builder) session_relocated.
Proof.
  intros address. unfold session_relocated, shift.
  rewrite lookup_app_r by (rewrite length_replicate; lia).
  rewrite length_replicate, list_lookup_fmap. f_equal. f_equal. lia.
Qed.

(** The sequence for D is [1; 0; 2; 3] with 10 iterations as with 25, and
    [11; 10; 12; 13] on the graph laid out ten addresses higher. *)
Lemma TopologicalSort_deterministic_witness :
  TopologicalSort (operators session_builder) 10 [session_D]
  = TopologicalSort (operators session_builder) 25 [session_D] ∧
  TopologicalSort session_relocated 20 (relocate_operand shift <$> [session_D])
  = Outcome_map (fmap (M := list) shift)
      (TopologicalSort (operators session_builder) 20 [session_D]) ∧
  ∃ result enough, ∀ fuel1 fuel2, enough ≤ fuel1 → enough ≤ fuel2 →
    TopologicalSort (operators session_builder) fuel1 [session_D] = Returns result ∧
    TopologicalSort (operators session_builder) fuel2 [session_D] = Returns result.
Proof.
  assert (Forall (terminal (operators session_builder)) [session_D]) as Hroots.
  { apply Forall_singleton. exists 3. split; [reflexivity|simpl; lia]. }
  destruct (TopologicalSort_deterministic (operators session_builder) [session_D])
    as (Hagree & Hrelocated & Hreturns).
  split_and!.
  - apply Hagree; by vm_compute.
  - exact (Hrelocated shift session_relocated 20 shift_inj session_relocated_by_shift).
  - exact (Hreturns session_acyclic Hroots).
Defined.

(** ** Claim C9 at the session *)

(** With the terminal operands A, B, A the sorter returns A's operator
    before B's; on A, B, the list without the second A, it returns B's
    before A's. *)
Lemma TopologicalSort_not_same_as_keep_first :
  ¬ same_as_deduplicated (operators session_builder) [session_A; session_B; session_A].
Proof.
  intros Hclaim. specialize (Hclaim 20 [0; 1]).
  assert (TopologicalSort (operators session_builder) 20
            (unique_keep_first [session_A; session_B; session_A])
          = Returns [0; 1]) as Hsame.
  { apply Hclaim. vm_compute. reflexivity. }
  vm_compute in Hsame. discriminate Hsame.
Qed.

Lemma TopologicalSort_duplicates_keep_last_witness :
  acyclic (operators session_builder) ∧
  Forall (terminal (operators session_builder)) [session_A; session_B; session_A] ∧
  ∃ enough result,
    (∀ fuel, enough ≤ fuel →
       TopologicalSort (operators session_builder) fuel
         [session_A; session_B; session_A] = Returns result ∧
       TopologicalSort (operators session_builder) fuel
         (unique_keep_last [session_A; session_B; session_A]) = Returns result) ∧
    NoDup result ∧
    (∀ root address, root ∈ [session_A; session_B; session_A] →
       mOperator root = Some address → address ∈ result).
Proof.
  assert (Forall (terminal (operators session_builder))
                 [session_A; session_B; session_A]) as Hroots.
  { repeat (apply Forall_cons_2; [eexists; split; [reflexivity|simpl; lia]|]).
    constructor. }
  split_and!; [exact session_acyclic|exact Hroots|].
  exact (TopologicalSort_duplicates_keep_last (operators session_builder)
           [session_A; session_B; session_A] session_acyclic Hroots).
Defined.

(** ** Claims C6, C7 and C10 at the session *)

Lemma Unary_Validate_softmax_witness :
  mInputs softmax_of_x = [poisoned_x] ∧
  OperatorBase_Validate softmax_of_x = Success ∧
  mRank poisoned_x = Some 1%Z ∧
  Unary_Validate op.kSoftmax softmax_of_x
  = Returns (ValidationError "Input dimensions is incorrect.").
Proof.
  split_and!; [reflexivity..|].
  exact (Unary_Validate_softmax softmax_of_x poisoned_x [] 1%Z eq_refl eq_refl eq_refl).
Defined.

Lemma OperandBase_new_first_input_witness :
  1 ≤ length (mInputs relu_of_D) ∧
  ∃ primaryInput,
    mInputs relu_of_D !! 0 = Some primaryInput ∧
    mType (OperandBase_new 4 relu_of_D) = mType primaryInput ∧
    mRank (OperandBase_new 4 relu_of_D) = mRank primaryInput.
Proof.
  assert (1 ≤ length (mInputs relu_of_D)) as Hlen by (simpl; lia).
  split; [exact Hlen|].
  exact (proj1 (OperandBase_new_first_input (Attrs := list Z)) 4 relu_of_D Hlen).
Defined.

Lemma OperandBase_new_no_input_witness :
  mInputs input_A = [] ∧
  mType (OperandBase_new 0 input_A) = Some Float32 ∧
  mRank (OperandBase_new 0 input_A) = Some 0%Z.
Proof.
  split; [reflexivity|].
  exact (OperandBase_new_no_input 0 input_A eq_refl).
Defined.

(** ** Claim C8 at the session *)

Lemma Build_guard_witness :
  (IsError session_builder = true ∨ @nil (string * OperandBase) = []) ∧
  Build 5 session_builder []
  = Returns {| returned := None;
               errorLog := ["The output named operands are empty."];
               backendCalls := [] |}.
Proof.
  split; [by right|].
  exact (Build_guard 5 session_builder [] (or_intror eq_refl)).
Defined.

(** ** Claim C2 at the clamp session *)

Lemma clamp_session_run :
  Conv2d clamp_before clamp_x clamp_w conv2d_options = Returns (clamp_y, clamp_after).
Proof. vm_compute. reflexivity. Qed.



(** ** Claim C3 at the poisoned session *)

(** Claim C3 fails on the code.  Softmax on an input of rank 1 returns an
    error sentinel, and so does Relu on that sentinel: the error
    propagates as the claim says.  But Build on the sentinel does not
    return the null graph: TopologicalSort pushes the sentinel's producing
    operator, which is the null pointer, and dereferences it. *)
Theorem Build_on_poisoned_operand_undefined :
  poisoned_session
  = Returns ([poisoned_x; OperandBase_MakeError; OperandBase_MakeError],
             poisoned_builder) ∧
  IsError poisoned_x = false ∧
  Softmax poisoned_builder poisoned_x = Returns (OperandBase_MakeError, poisoned_builder) ∧
  Relu poisoned_builder OperandBase_MakeError
  = Returns (OperandBase_MakeError, poisoned_builder) ∧
  mOperator OperandBase_MakeError = None ∧
  ∀ fuel, Build (S fuel) poisoned_builder [("output", OperandBase_MakeError)] = Undefined.
Proof.
  split_and!; [vm_compute; reflexivity..|].
  intros fuel. reflexivity.
Qed.

(** * Further properties at the sessions *)

(** ** The sorter *)

(** A second Relu on D, stored behind the session's operators, leaves the
    sequence for D as it was. *)
Lemma TopologicalSort_ignores_later_operators_witness :
  acyclic (operators session_builder) ∧
  Forall (terminal (operators session_builder)) [session_D] ∧
  TopologicalSort (operators session_builder ++ [relu_of_D]) 20 [session_D]
  = TopologicalSort (operators session_builder) 20 [session_D].
Proof.
  assert (Forall (terminal (operators session_builder)) [session_D]) as Hroots.
  { apply Forall_singleton. exists 3. split; [reflexivity|simpl; lia]. }
  split_and!; [exact session_acyclic|exact Hroots|].
  exact (TopologicalSort_ignores_later_operators (operators session_builder)
           [relu_of_D] [session_D] 20 session_acyclic Hroots).
Defined.

Lemma cyclic_arena_feeds_itself : feeds_itself cyclic_arena {[0; 1]}.
Proof.
  intros node [->%elem_of_singleton| ->%elem_of_singleton]%elem_of_union.
  - exists 1. split; [by apply list_elem_of_singleton|set_solver].
  - exists 0. split; [by apply list_elem_of_singleton|set_solver].
Qed.

Lemma TopologicalSort_cycle_never_returns_witness :
  feeds_itself cyclic_arena {[0; 1]} ∧
  output_of 0 ∈ [output_of 0] ∧
  mOperator (output_of 0) = Some 0 ∧
  0 ∈ ({[0; 1]} : gset nat) ∧
  ∀ fuel sorted, TopologicalSort cyclic_arena fuel [output_of 0] ≠ Returns sorted.
Proof.
  assert (output_of 0 ∈ [output_of 0]) as Hroot by (by apply list_elem_of_singleton).
  assert (0 ∈ ({[0; 1]} : gset nat)) as Hnode by set_solver.
  split_and!; [exact cyclic_arena_feeds_itself|exact Hroot|reflexivity|exact Hnode|].
  exact (TopologicalSort_cycle_never_returns cyclic_arena {[0; 1]} [output_of 0]
           (output_of 0) 0 cyclic_arena_feeds_itself Hroot eq_refl Hnode).
Defined.

Lemma TopologicalSort_roots_permutation_witness :
  acyclic (operators session_builder) ∧
  Forall (terminal (operators session_builder)) [session_A; session_B] ∧
  [session_A; session_B] ≡ₚ [session_B; session_A] ∧
  ∃ enough result result',
    (∀ fuel, enough ≤ fuel →
       TopologicalSort (operators session_builder) fuel [session_A; session_B]
       = Returns result ∧
       TopologicalSort (operators session_builder) fuel [session_B; session_A]
       = Returns result') ∧
    result ≡ₚ result' ∧ NoDup result ∧ NoDup result' ∧
    (∀ node, node ∈ result ↔
             reachable (operators session_builder) [session_A; session_B] node).
Proof.
  assert (Forall (terminal (operators session_builder)) [session_A; session_B])
    as Hroots.
  { repeat (apply Forall_cons_2; [eexists; split; [reflexivity|simpl; lia]|]).
    constructor. }
  assert ([session_A; session_B] ≡ₚ [session_B; session_A]) as Hperm
    by apply Permutation_swap.
  split_and!; [exact session_acyclic|exact Hroots|exact Hperm|].
  exact (TopologicalSort_roots_permutation (operators session_builder)
           [session_A; session_B] [session_B; session_A] session_acyclic Hroots Hperm).
Defined.

(** ** The entry points *)

Lemma clamp_session_call :
  run (CallConv2d clamp_x clamp_w conv2d_options) clamp_before
  = Returns ([clamp_y], clamp_after).
Proof. vm_compute. reflexivity. Qed.

(** Conv2d with the clamp handle stores two operators, at addresses 3 and
    4, and hands out the output of the second. *)
Lemma run_appends_witness :
  run (CallConv2d clamp_x clamp_w conv2d_options) clamp_before
  = Returns ([clamp_y], clamp_after) ∧
  IsError clamp_after = IsError clamp_before ∧
  ∃ new, operators clamp_after = operators clamp_before ++ new ∧ length new ≤ 2 ∧
    (length new = 2 →
     on_clamp_path clamp_before (CallConv2d clamp_x clamp_w conv2d_options)) ∧
    (∀ result, result ∈ [clamp_y] →
       result = OperandBase_MakeError ∨
       ∃ k o, new !! k = Some o ∧ result ∈ mOutputs o ∧ IsError result = false ∧
              mOperator result = Some (length (operators clamp_before) + k)) ∧
    (∀ o input, o ∈ new → input ∈ mInputs o → IsError input = false).
Proof.
  split; [exact clamp_session_call|].
  exact (run_appends (CallConv2d clamp_x clamp_w conv2d_options) clamp_before
           [clamp_y] clamp_after clamp_session_call).
Defined.

Lemma poisoned_Built : Built poisoned_builder.
Proof.
  apply (replay_Built
           [CallInput "x" [4]%Z; CallSoftmax poisoned_x; CallRelu OperandBase_MakeError]
           GraphBuilderBase_new).
  - apply Built_new.
  - vm_compute. reflexivity.
Qed.

Lemma poisoned_call :
  run (CallRelu OperandBase_MakeError) poisoned_builder
  = Returns ([OperandBase_MakeError], poisoned_builder).
Proof. vm_compute. reflexivity. Qed.

Lemma poisoned_split_call :
  run (CallSplit OperandBase_MakeError [1; 1]%Z None) poisoned_builder
  = Returns ([], poisoned_builder).
Proof. vm_compute. reflexivity. Qed.

Lemma run_poisoned_witness :
  OperandBase_MakeError
  ∈ arguments (CallSplit (Attrs := list Z) OperandBase_MakeError [1; 1]%Z None) ∧
  IsError OperandBase_MakeError = true ∧
  run (CallSplit OperandBase_MakeError [1; 1]%Z None) poisoned_builder
  = Returns ([], poisoned_builder) ∧
  poisoned_builder = poisoned_builder ∧
  @nil OperandBase = [] ∧
  Split poisoned_builder OperandBase_MakeError [1; 1]%Z None
  = Returns (OperandArrayBase_MakeError, poisoned_builder).
Proof.
  assert (OperandBase_MakeError
          ∈ arguments (CallSplit (Attrs := list Z) OperandBase_MakeError [1; 1]%Z None))
    as Hin by (by apply list_elem_of_singleton).
  split_and!; [exact Hin|reflexivity|exact poisoned_split_call|..];
    apply (run_poisoned (CallSplit OperandBase_MakeError [1; 1]%Z None) poisoned_builder
             [] poisoned_builder OperandBase_MakeError Hin eq_refl poisoned_split_call).
Defined.

Lemma session_matmul_stored : operators session_builder !! 2 = Some session_matmul.
Proof. reflexivity. Qed.

Lemma Built_arena_witness :
  Built session_builder ∧
  operators session_builder !! 2 = Some session_matmul ∧
  (∀ input, input ∈ mInputs session_matmul →
     IsError input = false ∧
     ∃ producer p, mOperator input = Some producer ∧ producer < 2 ∧
       operators session_builder !! producer = Some p ∧ IsError p = false ∧
       input ∈ mOutputs p) ∧
  (∀ output, output ∈ mOutputs session_matmul →
     IsError output = false ∧ mOperator output = Some 2) ∧
  (IsError session_matmul = true →
   mInputs session_matmul = [] ∧ mOutputs session_matmul = []).
Proof.
  split_and!; [exact session_Built|exact session_matmul_stored|..];
    apply (Built_arena session_builder 2 session_matmul session_Built
             session_matmul_stored).
Defined.

Lemma session_D_handed_out :
  Forall (λ root, IsError root = false ∧ handed_out session_builder root) [session_D].
Proof.
  apply Forall_singleton. split; [reflexivity|].
  apply handed_out_check_true. vm_compute. reflexivity.
Qed.

Lemma session_D_reaches_matmul : reachable (operators session_builder) [session_D] 2.
Proof.
  exists session_D, 3. split_and!; [by apply list_elem_of_singleton|reflexivity|].
  apply rtc_once. unfold depends.
  assert (producers (operators session_builder) 3 = [2]) as -> by reflexivity.
  by apply list_elem_of_singleton.
Qed.

Lemma reachable_no_fused_handle_witness :
  Built session_builder ∧
  Forall (λ root, IsError root = false ∧ handed_out session_builder root) [session_D] ∧
  reachable (operators session_builder) [session_D] 2 ∧
  ∃ o, operators session_builder !! 2 = Some o ∧ IsError o = false ∧
       mFusedOperator o = None ∧ mOutputs o ≠ [].
Proof.
  split_and!;
    [exact session_Built|exact session_D_handed_out|exact session_D_reaches_matmul|].
  exact (reachable_no_fused_handle session_builder [session_D] 2 session_Built
           session_D_handed_out session_D_reaches_matmul).
Defined.

Lemma handed_out_initialised_witness :
  Built session_builder ∧
  handed_out session_builder session_D ∧
  IsError session_D = false ∧
  is_Some (mType session_D) ∧ is_Some (mRank session_D) ∧
  ∀ opType, ∃ result,
    VALIDATE_FOR_OPERAND session_builder (λ p, new_Unary p opType session_D)
    = Returns result.
Proof.
  assert (handed_out session_builder session_D) as Hout.
  { apply handed_out_check_true. vm_compute. reflexivity. }
  split_and!; [exact session_Built|exact Hout|reflexivity|..];
    apply (handed_out_initialised session_builder session_D session_Built Hout eq_refl).
Defined.

Lemma clamp_first_call :
  ClampOperator GraphBuilderBase_new clamp_options = Returns (0, clamp_first).
Proof. vm_compute. reflexivity. Qed.

Lemma clamp_before_behind_first :
  operators clamp_before = operators clamp_first ++ drop 1 (operators clamp_before).
Proof. reflexivity. Qed.

(** The clamp operator of the clamp session, at address 4, is constructed
    from the output of the convolution at address 3 and the options
    [0; 6] that ClampOperator was called with. *)
Lemma ClampOperator_options_reach_clamp_witness :
  ClampOperator GraphBuilderBase_new clamp_options = Returns (0, clamp_first) ∧
  operators clamp_before = operators clamp_first ++ drop 1 (operators clamp_before) ∧
  ∃ primary,
    let conv2d := validated (new_Conv2d 3 clamp_x clamp_w conv2d_options) in
    let clamp := validated (new_Clamp 4 primary clamp_options) in
    PrimaryOutput conv2d = Returns primary ∧
    operators clamp_after = operators clamp_before ++ [conv2d; clamp] ∧
    PrimaryOutput clamp = Returns clamp_y ∧
    mOperator clamp_y = Some 4.
Proof.
  split_and!; [exact clamp_first_call|exact clamp_before_behind_first|].
  exact (proj1 (ClampOperator_options_reach_clamp GraphBuilderBase_new clamp_options 0
                  clamp_first clamp_before (drop 1 (operators clamp_before)) []
                  clamp_first_call clamp_before_behind_first)
           clamp_x clamp_w clamp_y clamp_after clamp_session_run eq_refl).
Defined.

Lemma split_call :
  Split session_builder session_D [1; 1]%Z None = Returns (split_array, split_after).
Proof. vm_compute. reflexivity. Qed.

Lemma Split_outputs_witness :
  Split session_builder session_D [1; 1]%Z None = Returns (split_array, split_after) ∧
  ∃ o, operators split_after = operators session_builder ++ [o] ∧
    opClass o = cSplit [1; 1]%Z None ∧ mInputs o = [session_D] ∧
    IsError session_D = false ∧
    mOperands split_array = mOutputs o ∧
    length (mOperands split_array) = Split_outputSize [1; 1]%Z ∧
    Forall (λ output, IsError output = false ∧
                      mOperator output = Some (length (operators session_builder)))
           (mOperands split_array).
Proof.
  split; [exact split_call|].
  exact (Split_outputs session_builder session_D [1; 1]%Z None split_array split_after
           split_call).
Defined.

(** ** Build *)

Lemma session_build_result :
  Build 20 session_builder [("result", session_D)] = Returns session_result.
Proof. vm_compute. reflexivity. Qed.

Lemma session_named_handed_out :
  Forall (λ named : string * OperandBase,
            IsError named.2 = false ∧ handed_out session_builder named.2)
         [("result", session_D)].
Proof.
  apply Forall_singleton. split; [reflexivity|].
  apply handed_out_check_true. vm_compute. reflexivity.
Qed.

Lemma Build_returns_complete_graph_witness :
  Build 20 session_builder [("result", session_D)] = Returns session_result ∧
  match returned session_result with
  | Some graph =>
      ∃ sorted_operands,
        TopologicalSort (operators session_builder) 20 ([("result", session_D)].*2)
        = Returns sorted_operands ∧
        graph = CreateGraph :: requests sorted_operands [("result", session_D)] ∧
        ask [CreateGraph] (requests sorted_operands [("result", session_D)])
        = (None, graph) ∧
        Forall (λ o, ∃ object, operators session_builder !! o = Some object ∧
                               IsError object = false) sorted_operands ∧
        backendCalls session_result = graph ∧ errorLog session_result = []
  | None => length (errorLog session_result) = 1
  end.
Proof.
  split; [exact session_build_result|].
  exact (Build_returns_complete_graph 20 session_builder [("result", session_D)]
           session_result session_build_result).
Defined.

Lemma Build_on_built_graph_witness :
  Built session_builder ∧
  IsError session_builder = false ∧
  [("result", session_D)] ≠ [] ∧
  Forall (λ named : string * OperandBase,
            IsError named.2 = false ∧ handed_out session_builder named.2)
         [("result", session_D)] ∧
  ∃ enough sorted_operands, ∀ fuel, enough ≤ fuel →
    TopologicalSort (operators session_builder) fuel ([("result", session_D)].*2)
    = Returns sorted_operands ∧
    Build fuel session_builder [("result", session_D)]
    = Returns (asked (requests sorted_operands [("result", session_D)])).
Proof.
  assert ([("result", session_D)] ≠ []) as Hsome by discriminate.
  split_and!; [exact session_Built|reflexivity|exact Hsome
              |exact session_named_handed_out|].
  exact (Build_on_built_graph session_builder [("result", session_D)] session_Built
           eq_refl Hsome session_named_handed_out).
Defined.

Lemma Build_adds_reachable_once_witness :
  Built session_builder ∧
  Forall (λ named : string * OperandBase,
            IsError named.2 = false ∧ handed_out session_builder named.2)
         [("result", session_D)] ∧
  Build 20 session_builder [("result", session_D)] = Returns session_result ∧
  NoDup (added (backendCalls session_result)) ∧
  (∀ o, o ∈ added (backendCalls session_result) →
     reachable (operators session_builder) ([("result", session_D)].*2) o) ∧
  (∀ i o p, added (backendCalls session_result) !! i = Some o →
     p ∈ producers (operators session_builder) o →
     ∃ j, j < i ∧ added (backendCalls session_result) !! j = Some p) ∧
  (is_Some (returned session_result) →
   ∀ o, reachable (operators session_builder) ([("result", session_D)].*2) o →
     o ∈ added (backendCalls session_result)).
Proof.
  split_and!; [exact session_Built|exact session_named_handed_out
              |exact session_build_result|..];
    apply (Build_adds_reachable_once 20 session_builder [("result", session_D)]
             session_result session_Built session_named_handed_out
             session_build_result).
Defined.

Lemma Build_on_error_sentinel_witness :
  Built poisoned_builder ∧
  IsError poisoned_builder = false ∧
  Forall (λ named : string * OperandBase, handed_out poisoned_builder named.2)
         [("output", OperandBase_MakeError)] ∧
  Exists (λ named : string * OperandBase, IsError named.2 = true)
         [("output", OperandBase_MakeError)] ∧
  ∃ enough, ∀ fuel, enough ≤ fuel →
    Build fuel poisoned_builder [("output", OperandBase_MakeError)] = Undefined.
Proof.
  assert (Forall (λ named : string * OperandBase, handed_out poisoned_builder named.2)
                 [("output", OperandBase_MakeError)]) as Hnamed
    by (apply Forall_singleton; by left).
  assert (Exists (λ named : string * OperandBase, IsError named.2 = true)
                 [("output", OperandBase_MakeError)]) as Hsentinel
    by (by apply Exists_cons_hd).
  split_and!; [exact poisoned_Built|reflexivity|exact Hnamed|exact Hsentinel|].
  exact (Build_on_error_sentinel poisoned_builder [("output", OperandBase_MakeError)]
           poisoned_Built eq_refl Hnamed Hsentinel).
Defined.

(** ** The handle of a unary activation *)

Lemma relu_first_call : ReluOperator GraphBuilderBase_new = Returns (0, relu_first).
Proof. vm_compute. reflexivity. Qed.

Lemma relu_before_behind_first :
  operators relu_before = operators relu_first ++ drop 1 (operators relu_before).
Proof. reflexivity. Qed.

(** With the relu handle at address 0 as the activation, Conv2d and
    BatchNorm take the plain path. *)
Lemma unary_handle_stays_in_options_witness :
  (ReluOperator GraphBuilderBase_new = Returns (0, relu_first) ∨
   HardSwishOperator GraphBuilderBase_new = Returns (0, relu_first) ∨
   SigmoidOperator GraphBuilderBase_new = Returns (0, relu_first)) ∧
  operators relu_before = operators relu_first ++ drop 1 (operators relu_before) ∧
  (∀ input filter,
     Conv2d relu_before input filter conv2d_options
     = VALIDATE_FOR_OPERAND relu_before
         (λ p, new_Conv2d p input filter conv2d_options)) ∧
  (∀ input mean variance,
     BatchNorm relu_before input mean variance conv2d_options
     = VALIDATE_FOR_OPERAND relu_before
         (λ p, new_BatchNorm p input mean variance conv2d_options)).
Proof.
  assert (ReluOperator GraphBuilderBase_new = Returns (0, relu_first) ∨
          HardSwishOperator GraphBuilderBase_new = Returns (0, relu_first) ∨
          SigmoidOperator GraphBuilderBase_new = Returns (0, relu_first)) as Hhandle
    by (left; exact relu_first_call).
  split_and!; [exact Hhandle|exact relu_before_behind_first|..];
    apply (unary_handle_stays_in_options GraphBuilderBase_new 0 relu_first relu_before
             (drop 1 (operators relu_before)) [] Hhandle relu_before_behind_first).
Defined.
